(** * Span tree reconstruction, timeline rendering and span collection
      (span-tree.ts, instrumentation.ts)

    A shallow embedding of the trace visualizer: [hrTimeToMs],
    [buildSpanTree], [getDurationColor], [renderTimelineBar],
    [renderSpanTree] and [renderTrace], and of the span processor that
    feeds it, [onEnd] and the callback it hands to [setTimeout], together
    with the properties stated about them.

    Conventions of the embedding.
    - A JavaScript string is the list of its UTF-16 code units, so that
      [length] is the [.length] of the program.
    - A JavaScript number is an exact rational ([Q]); [NaN] and the
      infinities are outside the model, and the one place where the
      program divides by a possibly zero total ([getDurationColor]) spells
      the IEEE outcome out.  Where the rounding of doubles bears on a
      property, the operations are rounded one by one with [toDouble]
      ([hrTimeToMs_double]).  A character count ([barWidth], [repeat]) is an
      integer ([Z]).
    - The value of an attribute is given by its template-literal
      conversion, which is all the program does with it; values whose
      conversion throws are outside the model.
    - Objects live in a store addressed by locations.  The caller's span
      records, the caller's array, the tree nodes and the sorted copy of
      the fallback branch are all cells of that one store, and a node's
      [children] holds references, as in the program.
    - A call either returns or throws; the recursion depth of the two
      recursive walks is bounded by a fuel argument standing for the call
      stack, whose exhaustion is the stack-overflow [RangeError].
    - The two maps of the processor and the timers it has armed are
      passed from one event to the next; [registerOTel], which hands the
      processor to the tracer, is outside the model. *)

From Stdlib Require Import QArith Qround Qminmax Qpower Lia Lqa ZArith String Ascii.
From stdpp Require Import functions gmap list sorting.

Local Open Scope Z_scope.

(** ** Outcomes of a call *)

Inductive error : Type :=
| StackOverflow      (* RangeError: Maximum call stack size exceeded *)
| InvalidCount       (* RangeError: Invalid count value (String.prototype.repeat) *)
| IllTyped.          (* a reference that does not hold what its static type says *)

Inductive result (A : Type) : Type :=
| Ok (a : A)
| Throw (e : error).
Arguments Ok {A} a.
Arguments Throw {A} e.

#[global] Instance result_ret : MRet result := fun A a => Ok a.
#[global] Instance result_bind : MBind result := fun A B f r =>
  match r with
  | Ok a => f a
  | Throw e => Throw e
  end.

(** ** Strings *)

Abbreviation jsstring := (list N).

(** An ASCII literal of the program. *)
Definition str (s : string) : jsstring :=
  N_of_ascii <$> list_ascii_of_string s.

Definition SOLID : N := 9608%N.        (* U+2588 full block *)
Definition FILLER : N := 183%N.        (* U+00B7 middle dot *)
Definition VBAR : N := 9474%N.         (* U+2502 *)
Definition TEE : N := 9500%N.          (* U+251C *)
Definition HBAR : N := 9472%N.         (* U+2500 *)
Definition ELBOW : N := 9492%N.        (* U+2514 *)
Definition ELLIPSIS : N := 8230%N.     (* U+2026 *)
Definition ESC : N := 27%N.
Definition SPACE : N := 32%N.

(** [s.repeat(count)] for a one-unit string [s] and an integral count. *)
Definition js_repeat (c : N) (count : Z) : result jsstring :=
  if count <? 0 then Throw InvalidCount else Ok (replicate (Z.to_nat count) c).

(** [s.slice(0, n)] for [0 <= n]. *)
Definition js_slice0 (s : jsstring) (n : nat) : jsstring := take n s.

(** [s.padEnd(n)] *)
Definition js_padEnd (s : jsstring) (n : nat) : jsstring :=
  s ++ replicate (n - length s) SPACE.

(** ** Numbers *)

(** [Math.round]: the nearest integer, halves going up. *)
Definition Math_round (x : Q) : Z := Qfloor (x + (1 # 2))%Q.

(** Decimal digits of a natural number, most significant first. *)
Fixpoint digits_aux (fuel : nat) (n : N) (acc : jsstring) : jsstring :=
  match fuel with
  | O => acc
  | S fuel' =>
      let acc' := (48 + n mod 10)%N :: acc in
      if (n <? 10)%N then acc' else digits_aux fuel' (n / 10)%N acc'
  end.

Definition digits (n : N) : jsstring :=
  digits_aux (S (N.to_nat (N.log2 n))) n [].

(** [x.toFixed(d)] in its fixed-notation range ([|x| < 1e21]): the integer
    [n] nearest to [|x| * 10^d] (the larger one on a tie), written with at
    least [d + 1] digits and a point before the last [d]. *)
Definition toFixed (x : Q) (d : nat) : jsstring :=
  let neg := negb (Qle_bool 0 x) in
  let ax := if neg then Qopp x else x in
  let n := Z.to_N (Math_round (ax * inject_Z (10 ^ Z.of_nat d))%Q) in
  let m := digits n in
  let m := replicate (S d - length m) 48%N ++ m in
  let k := length m in
  (if neg then str "-" else []) ++
  (if decide (d = O) then m
   else take (k - d) m ++ str "." ++ drop (k - d) m).

(** [hrTimeToMs]: a pair of seconds and nanoseconds, in milliseconds. *)
Definition hrTimeToMs (hrTime : Q * Q) : Q :=
  (hrTime.1 * 1000 + hrTime.2 / 1000000)%Q.

(** *** Doubles

    Every arithmetic operation of the program yields the double nearest
    to its exact result, a tie going to the one with an even last bit.
    A double has 53 significant bits and its last bit is worth no less
    than 2^-1074; results beyond the largest double, which the program
    turns into an infinity, are outside the model. *)

(** The integer nearest to [x], the even one of two that are equally
    near. *)
Definition roundEven (x : Q) : Z :=
  let f := Qfloor x in
  match (x - inject_Z f ?= 1 # 2)%Q with
  | Lt => f
  | Gt => f + 1
  | Eq => if Z.even f then f else f + 1
  end.

(** For a positive [x], the exponent of the largest power of two that
    is at most [x]. *)
Definition floorLog2 (x : Q) : Z :=
  let e := Z.log2 (Qnum x) - Z.log2 (Z.pos (Qden x)) in
  if Qle_bool (2 ^ e) x then e else e - 1.

(** The exponent of the last bit of the double nearest to a positive
    [x]. *)
Definition ulpExp (x : Q) : Z := Z.max (floorLog2 x - 52) (-1074).

Definition roundPos (x : Q) : Q :=
  (inject_Z (roundEven (x / 2 ^ ulpExp x)) * 2 ^ ulpExp x)%Q.

Definition toDouble (x : Q) : Q :=
  match (x ?= 0)%Q with
  | Eq => 0%Q
  | Gt => roundPos x
  | Lt => (- roundPos (- x))%Q
  end.

(** [hrTimeToMs] with the roundings of the program: the product, the
    quotient and the sum each yield a double. *)
Definition hrTimeToMs_double (hrTime : Q * Q) : Q :=
  toDouble (toDouble (hrTime.1 * 1000) + toDouble (hrTime.2 / 1000000))%Q.

(** ** Colours *)

Definition colors_reset : jsstring := ESC :: str "[0m".
Definition colors_green : jsstring := ESC :: str "[32m".
Definition colors_yellow : jsstring := ESC :: str "[33m".
Definition colors_red : jsstring := ESC :: str "[31m".
Definition colors_dim : jsstring := ESC :: str "[2m".
Definition colors_cyan : jsstring := ESC :: str "[36m".
Definition colors_bold : jsstring := ESC :: str "[1m".

(** [duration / totalDuration] is an infinity or [NaN] when the total is
    zero: [-Infinity < 0.1] holds, the two other comparisons do not. *)
Definition getDurationColor (duration totalDuration : Q) : jsstring :=
  if Qeq_bool totalDuration 0 then
    if Qle_bool 0 duration then colors_red else colors_green
  else
    let ratio := (duration / totalDuration)%Q in
    if negb (Qle_bool (1 # 10) ratio) then colors_green
    else if negb (Qle_bool (4 # 10) ratio) then colors_yellow
    else colors_red.

(** ** The timeline bar

    [barWidth] defaults to 40 when the caller leaves it out; the one
    caller, [renderNode], passes [timelineWidth]. *)

Definition renderTimelineBar
    (startTime duration traceStartTime totalDuration : Q) (barWidth : Z)
    : result jsstring :=
  if Qeq_bool totalDuration 0 then js_repeat SOLID barWidth else
  let startOffset := Qmax 0 (startTime - traceStartTime)%Q in
  let startRatio := Qmin (startOffset / totalDuration)%Q 1 in
  let durationRatio := Qmin (duration / totalDuration)%Q (1 - startRatio)%Q in
  let startPos := Z.max 0 (Math_round (startRatio * inject_Z barWidth)%Q) in
  let barLength := Z.max 1 (Math_round (durationRatio * inject_Z barWidth)%Q) in
  let adjustedStartPos := Z.min startPos (barWidth - 1) in
  let endPos := Z.min barWidth (adjustedStartPos + barLength) in
  before ← js_repeat FILLER adjustedStartPos;
  bar ← js_repeat SOLID (Z.max 1 (endPos - adjustedStartPos));
  after ← js_repeat FILLER (Z.max 0 (barWidth - endPos));
  mret (before ++ bar ++ after).

(** ** The data model *)

Record SpanData : Type := {
  spanId : jsstring;
  parentSpanId : option jsstring;     (* [None] is [undefined] *)
  name : jsstring;
  startTime : Q;                      (* ms from epoch *)
  duration : Q;                       (* ms *)
  (* [Object.entries] of the record, in its order, each value given by
     its template-literal conversion, the only way the renderer reads it *)
  attributes : option (list (jsstring * jsstring));
}.

Abbreviation loc := nat.

(** The objects of the program: a span record handed in by the caller, a
    [SpanTreeNode] (the fields of a span and the array of references to
    its children), and an array of references to records (the caller's
    [spans], the copy [[...spans]]). *)
Inductive obj : Type :=
| OSpan (s : SpanData)
| ONode (s : SpanData) (children : list loc)
| OArray (elems : list loc).

Record world : Type := {
  heap : list obj;
  console : list jsstring;            (* one entry per [console.log] *)
}.

(** ** Stateful computations that may throw *)

Definition M (A : Type) : Type := world -> world * result A.

#[global] Instance M_ret : MRet M := fun A a w => (w, Ok a).
#[global] Instance M_bind : MBind M := fun A B f m w =>
  match m w with
  | (w', Ok a) => f a w'
  | (w', Throw e) => (w', Throw e)
  end.

Definition throw {A} (e : error) : M A := fun w => (w, Throw e).

Definition liftR {A} (r : result A) : M A := fun w => (w, r).

Definition alloc (o : obj) : M loc := fun w =>
  ({| heap := heap w ++ [o]; console := console w |}, Ok (length (heap w))).

Definition readObj (l : loc) : M obj := fun w =>
  match heap w !! l with
  | Some o => (w, Ok o)
  | None => (w, Throw IllTyped)
  end.

Definition writeObj (l : loc) (o : obj) : M unit := fun w =>
  ({| heap := <[l := o]> (heap w); console := console w |}, Ok tt).

Definition console_log (s : jsstring) : M unit := fun w =>
  ({| heap := heap w; console := console w ++ [s] |}, Ok tt).

(** The [SpanData] fields of a record; a node is a span record too. *)
Definition readSpan (l : loc) : M SpanData :=
  o ← readObj l;
  match o with
  | OSpan s | ONode s _ => mret s
  | OArray _ => throw IllTyped
  end.

Definition readNode (l : loc) : M (SpanData * list loc) :=
  o ← readObj l;
  match o with
  | ONode s children => mret (s, children)
  | _ => throw IllTyped
  end.

Definition readArray (l : loc) : M (list loc) :=
  o ← readObj l;
  match o with
  | OArray elems => mret elems
  | _ => throw IllTyped
  end.

(** [for (const x of xs) acc = f(acc, x)] *)
Fixpoint forOf {A B} (f : B -> A -> M B) (acc : B) (xs : list A) : M B :=
  match xs with
  | [] => mret acc
  | x :: xs' => acc' ← f acc x; forOf f acc' xs'
  end.

(** [xs.forEach(f)] *)
Fixpoint forEach {A} (f : A -> M unit) (xs : list A) : M unit :=
  match xs with
  | [] => mret tt
  | x :: xs' => _ ← f x; forEach f xs'
  end.

(** The references of [xs], each with the fields read through it. *)
Fixpoint readAll (xs : list loc) : M (list (loc * SpanData)) :=
  match xs with
  | [] => mret []
  | x :: xs' => s ← readSpan x; rest ← readAll xs'; mret ((x, s) :: rest)
  end.

(** ** [Array.prototype.sort]

    The sort of the language is stable, and for a comparator that is a
    total preorder its result is the one stable arrangement; it is
    modelled by stable insertion.  [cmp a b] is the number the comparator
    returns: positive when [a] goes after [b]. *)
Fixpoint js_insert {A} (cmp : A -> A -> Q) (x : A) (l : list A) : list A :=
  match l with
  | [] => [x]
  | y :: l' =>
      if Qle_bool (cmp x y) 0 then x :: y :: l' else y :: js_insert cmp x l'
  end.

Fixpoint js_sort {A} (cmp : A -> A -> Q) (l : list A) : list A :=
  match l with
  | [] => []
  | x :: l' => js_insert cmp x (js_sort cmp l')
  end.

(** [(a, b) => a.startTime - b.startTime] on references read through the
    store. *)
Definition byStartTime (a b : loc * SpanData) : Q :=
  (startTime a.2 - startTime b.2)%Q.

(** ** The tree builder *)

(** Truthiness of [span.parentSpanId]: [undefined] and the empty string
    are falsy. *)
Definition parentKey (span : SpanData) : jsstring :=
  default [] (parentSpanId span).

Definition truthy (s : jsstring) : bool :=
  match s with [] => false | _ => true end.

Definition Map_has (m : gmap jsstring loc) (k : jsstring) : bool :=
  bool_decide (is_Some (m !! k)).

(** [m.get(k)!] *)
Definition Map_get (m : gmap jsstring loc) (k : jsstring) : M loc :=
  match m !! k with
  | Some l => mret l
  | None => throw IllTyped
  end.

(** [spanMap.set(span.spanId, { ...span, children: [] })] *)
Definition createNode (spanMap : gmap jsstring loc) (l : loc)
    : M (gmap jsstring loc) :=
  span ← readSpan l;
  node ← alloc (ONode span []);
  mret (<[spanId span := node]> spanMap).

(** [parent.children.push(node)] *)
Definition pushChild (parent node : loc) : M unit :=
  '(s, children) ← readNode parent;
  writeObj parent (ONode s (children ++ [node])).

(** The body of the linking loop; [root] is the variable it assigns. *)
Definition linkSpan (spanMap : gmap jsstring loc) (root : option loc) (l : loc)
    : M (option loc) :=
  span ← readSpan l;
  node ← Map_get spanMap (spanId span);
  if truthy (parentKey span) && Map_has spanMap (parentKey span) then
    parent ← Map_get spanMap (parentKey span);
    _ ← pushChild parent node;
    mret root
  else if negb (truthy (parentKey span)) then
    mret (Some node)
  else
    mret root.

(** [node.children.sort(...)] followed by [node.children.forEach(sortChildren)].
    The walk over the sorted array is taken over its contents after the
    sort: a nested call can only rewrite this same array when the node is
    its own descendant, and then it rewrites it with what it holds. *)
Fixpoint sortChildren (fuel : nat) (node : loc) : M unit :=
  match fuel with
  | O => throw StackOverflow
  | S fuel' =>
      '(s, children) ← readNode node;
      kids ← readAll children;
      let sorted := (js_sort byStartTime kids).*1 in
      _ ← writeObj node (ONode s sorted);
      forEach (sortChildren fuel') sorted
  end.

(** [[...spans].sort(...)]: a fresh array, sorted in place. *)
Definition sortedCopy (elems : list loc) : M loc :=
  copy ← alloc (OArray elems);
  es ← readArray copy;
  recs ← readAll es;
  _ ← writeObj copy (OArray (js_sort byStartTime recs).*1);
  mret copy.

Definition buildSpanTree (fuel : nat) (spans : loc) : M (option loc) :=
  elems ← readArray spans;
  if decide (length elems = 0)%nat then mret None else
  spanMap ← forOf createNode ∅ elems;
  root ← forOf (linkSpan spanMap) None elems;
  match root with
  | Some r =>
      _ ← sortChildren fuel r;
      mret (Some r)
  | None =>
      if decide (0 < length elems)%nat then
        sortedSpans ← sortedCopy elems;
        sorted ← readArray sortedSpans;
        match sorted !! 0%nat with
        | Some first =>
            s ← readSpan first;
            r ← Map_get spanMap (spanId s);
            mret (Some r)
        | None => throw IllTyped
        end
      else mret None
  end.

(** ** The timeline renderer *)

Definition timelineWidth : Z := 50.
Definition nameColWidth : nat := 45.

(** [xs.join(sep)] *)
Fixpoint js_join (sep : jsstring) (xs : list jsstring) : jsstring :=
  match xs with
  | [] => []
  | [x] => x
  | x :: xs' => x ++ sep ++ js_join sep xs'
  end.

(** The bracketed summary of the first two attributes. *)
Definition attrStr (n : SpanData) : jsstring :=
  match attributes n with
  | Some (kv :: kvs) =>
      let pairs :=
        js_join (str " ") ((fun kv => kv.1 ++ str "=" ++ kv.2) <$> take 2 (kv :: kvs)) in
      str " [" ++ pairs ++ str "]"
  | _ => []
  end.

(** Pad or truncate to the fixed width of the name column. *)
Definition displayName (nameWithDuration : jsstring) : jsstring :=
  if decide (nameColWidth < length nameWithDuration)%nat
  then js_slice0 nameWithDuration (nameColWidth - 1) ++ [ELLIPSIS]
  else js_padEnd nameWithDuration nameColWidth.

Definition renderLine (n : SpanData) (totalDuration traceStartTime : Q)
    (prefix : jsstring) (isLast isRoot : bool) : result jsstring :=
  let connector :=
    if isRoot then [] else if isLast then [ELBOW; HBAR; SPACE] else [TEE; HBAR; SPACE] in
  let durationMs := toFixed (duration n) 1 in
  let color := getDurationColor (duration n) totalDuration in
  timelineBar ← renderTimelineBar (startTime n) (duration n) traceStartTime
                   totalDuration timelineWidth;
  let nameWithDuration :=
    prefix ++ connector ++ name n ++ attrStr n ++ str " (" ++ durationMs ++ str "ms)" in
  mret (color ++ displayName nameWithDuration ++ colors_reset ++
        colors_dim ++ [VBAR] ++ colors_reset ++
        color ++ timelineBar ++ colors_reset ++
        colors_dim ++ [VBAR] ++ colors_reset).

(** [renderNode]; [lines] is the array of the enclosing [renderSpanTree],
    which every call pushes onto. *)
Fixpoint renderNode (fuel : nat) (totalDuration traceStartTime : Q)
    (lines : list jsstring) (node : loc) (prefix : jsstring)
    (isLast isRoot : bool) : M (list jsstring) :=
  match fuel with
  | O => throw StackOverflow
  | S fuel' =>
      '(n, children) ← readNode node;
      line ← liftR (renderLine n totalDuration traceStartTime prefix isLast isRoot);
      let lines := lines ++ [line] in
      let childPrefix :=
        if isRoot then []
        else prefix ++ (if isLast then str "   " else [VBAR; SPACE; SPACE]) in
      forOf (fun lines ic =>
               renderNode fuel' totalDuration traceStartTime lines ic.2 childPrefix
                 (Z.of_nat ic.1 =? Z.of_nat (length children) - 1) false)
            lines (imap pair children)
  end.

Definition renderSpanTree (fuel : nat) (root : loc)
    (totalDuration traceStartTime : Q) : M jsstring :=
  pad ← liftR (js_repeat SPACE (Z.of_nat nameColWidth));
  gap ← liftR (js_repeat SPACE (timelineWidth - 7));
  let timeMarkers :=
    pad ++ colors_dim ++ str "0ms" ++ gap ++
    toFixed totalDuration 0 ++ str "ms" ++ colors_reset in
  lines ← renderNode fuel totalDuration traceStartTime [timeMarkers] root [] true true;
  mret (js_join [10%N] lines).

Definition renderTrace (fuel : nat) (traceId : jsstring) (spans : loc) : M unit :=
  tree ← buildSpanTree fuel spans;
  match tree with
  | None => mret tt
  | Some tree =>
      t ← readSpan tree;
      let totalDuration := duration t in
      let traceStartTime := startTime t in
      let shortTraceId := js_slice0 traceId 8 in
      _ ← console_log [];
      elems ← readArray spans;
      _ ← console_log
            (colors_bold ++ colors_cyan ++ str "Trace " ++ shortTraceId ++
             colors_reset ++ str " " ++ colors_dim ++ str "(" ++
             toFixed totalDuration 1 ++ str "ms total, " ++
             digits (N.of_nat (length elems)) ++ str " spans)" ++ colors_reset);
      out ← renderSpanTree fuel tree totalDuration traceStartTime;
      _ ← console_log out;
      console_log []
  end.

(** ** The span collector (instrumentation.ts)

    The processor keeps, for each trace, the array of the spans that
    have ended, and the timer that will render it.  The two module-level
    maps and the armed timers of the runtime are the state of the
    collector; the arrays and the records live in the store.  A timer is
    named by a number, fresh at each [setTimeout]; which armed timer
    fires next is left open, which covers the order the runtime picks. *)

(** [a || b] on values that are a string or [undefined]. *)
Definition js_or (a b : option jsstring) : option jsstring :=
  if truthy (default [] a) then a else b.

(** [s.startsWith(p)] *)
Definition js_startsWith (s p : jsstring) : bool :=
  bool_decide (take (length p) s = p).

Record SpanContext : Type := {
  ctx_traceId : jsstring;
  ctx_spanId : jsstring;
}.

(** The fields [onEnd] reads of the span it is given; a span that ends
    has its own context, the three sources of a parent id may each be
    missing. *)
Record EndedSpan : Type := {
  _spanContext : SpanContext;
  span_parentSpanId : option jsstring;
  parentSpanContext : option SpanContext;
  _parentSpanContext : option SpanContext;
  span_name : jsstring;
  span_startTime : Q * Q;
  span_duration : Q * Q;
  (* [Object.entries] of [span.attributes], [None] when it is [undefined] *)
  span_attributes : option (list (jsstring * jsstring));
}.

(** The test of the attribute loop. *)
Definition keepAttr (key : jsstring) : bool :=
  negb (js_startsWith key (str "next.")) ||
  bool_decide (key = str "next.segment") ||
  bool_decide (key = str "next.page") ||
  bool_decide (key = str "next.route").

(** The entries of [usefulAttrs] after the loop.  An assignment to the
    key [__proto__] goes to the accessor of [Object.prototype] and adds
    no entry. *)
Definition usefulAttrs (span : EndedSpan) : list (jsstring * jsstring) :=
  filter (fun kv => keepAttr kv.1 = true /\ kv.1 <> str "__proto__")
         (default [] (span_attributes span)).

(** The record [onEnd] builds. *)
Definition spanDataOf (span : EndedSpan) : SpanData :=
  {| spanId := ctx_spanId (_spanContext span);
     parentSpanId :=
       js_or (js_or (span_parentSpanId span) (ctx_spanId <$> parentSpanContext span))
             (ctx_spanId <$> _parentSpanContext span);
     name := span_name span;
     startTime := hrTimeToMs (span_startTime span);
     duration := hrTimeToMs (span_duration span);
     attributes :=
       if decide (0 < length (usefulAttrs span))%nat then Some (usefulAttrs span)
       else None |}.

Record collector : Type := {
  traceSpans : gmap jsstring loc;        (* Map<string, SpanData[]> *)
  pendingRenders : gmap jsstring nat;    (* Map<string, Timeout> *)
  timers : gmap nat jsstring;            (* the armed timers and the trace of each *)
  nextTimer : nat;
}.

Definition onEnd (span : EndedSpan) (c : collector) : M collector :=
  let traceId := ctx_traceId (_spanContext span) in
  let spanData := spanDataOf span in
  rec ← alloc (OSpan spanData);
  spansOf ←
    (if Map_has (traceSpans c) traceId then mret (traceSpans c)
     else arr ← alloc (OArray []); mret (<[traceId := arr]> (traceSpans c)));
  arr ← Map_get spansOf traceId;
  elems ← readArray arr;
  _ ← writeObj arr (OArray (elems ++ [rec]));
  if negb (truthy (parentKey spanData)) then
    let armed :=
      match pendingRenders c !! traceId with
      | Some t => delete t (timers c)            (* clearTimeout *)
      | None => timers c
      end in
    let timeout := nextTimer c in
    mret {| traceSpans := spansOf;
            pendingRenders := <[traceId := timeout]> (pendingRenders c);
            timers := <[timeout := traceId]> armed;
            nextTimer := S timeout |}
  else
    mret {| traceSpans := spansOf; pendingRenders := pendingRenders c;
            timers := timers c; nextTimer := nextTimer c |}.

(** The callback handed to [setTimeout]. *)
Definition renderPending (fuel : nat) (traceId : jsstring) (c : collector)
    : M collector :=
  match traceSpans c !! traceId with
  | Some spans =>
      elems ← readArray spans;
      if decide (0 < length elems)%nat then
        _ ← renderTrace fuel traceId spans;
        mret {| traceSpans := delete traceId (traceSpans c);
                pendingRenders := delete traceId (pendingRenders c);
                timers := timers c; nextTimer := nextTimer c |}
      else mret c
  | None => mret c
  end.

(** What the runtime delivers to the module: a span that ends, or an
    armed timer that fires. *)
Inductive event : Type :=
| SpanEnds (span : EndedSpan)
| TimerFires (t : nat).

Definition handle (fuel : nat) (c : collector) (e : event) : M collector :=
  match e with
  | SpanEnds span => onEnd span c
  | TimerFires t =>
      match timers c !! t with
      | Some traceId =>
          renderPending fuel traceId
            {| traceSpans := traceSpans c; pendingRenders := pendingRenders c;
               timers := delete t (timers c); nextTimer := nextTimer c |}
      | None => mret c
      end
  end.

Definition initial : collector :=
  {| traceSpans := ∅; pendingRenders := ∅; timers := ∅; nextTimer := 0 |}.

(** The module after a run of events. *)
Definition runEvents (fuel : nat) (es : list event) : M collector :=
  forOf (handle fuel) initial es.

(** ** Stores for concrete traces *)

Definition mkSpan (id : string) (parent : option string) (start dur : Q) : SpanData :=
  {| spanId := str id; parentSpanId := str <$> parent; name := str id;
     startTime := start; duration := dur; attributes := None |}.

(** The records at locations [0 .. n-1], their array at location [n]. *)
Definition worldOf (spans : list SpanData) : world :=
  {| heap := (OSpan <$> spans) ++ [OArray (seq 0 (length spans))];
     console := [] |}.

Definition spansRef (spans : list SpanData) : loc := length spans.

(** ** What the builder is given, and the notions the properties use *)

Definition fieldsOf (o : obj) : option SpanData :=
  match o with
  | OSpan s | ONode s _ => Some s
  | OArray _ => None
  end.

(** The array at [a] holds references to records whose fields are, in
    order, [spans]. *)
Definition holdsSpans (w : world) (a : loc) (spans : list SpanData) : Prop :=
  exists elems,
    heap w !! a = Some (OArray elems) /\
    Forall2 (fun l s => heap w !! l ≫= fieldsOf = Some s) elems spans.

(** A span whose [parentSpanId] is absent or empty. *)
Definition parentless (s : SpanData) : Prop := truthy (parentKey s) = false.

#[global] Instance parentless_dec s : Decision (parentless s).
Proof. unfold parentless. apply _. Defined.

(** The position of the span with a given id. *)
Fixpoint indexOf (k : jsstring) (spans : list SpanData) : option nat :=
  match spans with
  | [] => None
  | s :: rest => if decide (spanId s = k) then Some 0%nat else S <$> indexOf k rest
  end.

(** The position of the span that [s] names as its parent, when it names
    one that is present. *)
Definition parentIdx (spans : list SpanData) (s : SpanData) : option nat :=
  if truthy (parentKey s) then indexOf (parentKey s) spans else None.

Definition parentAt (spans : list SpanData) (j : nat) : option nat :=
  spans !! j ≫= parentIdx spans.

(** A span that names a parent which is not among the spans. *)
Definition dangling (spans : list SpanData) (s : SpanData) : Prop :=
  truthy (parentKey s) = true /\ parentKey s ∉ spanId <$> spans.

(** The [k]-th ancestor of the span at position [j]. *)
Fixpoint ancestor (spans : list SpanData) (k : nat) (j : nat) : option nat :=
  match k with
  | O => Some j
  | S k' => parentAt spans j ≫= ancestor spans k'
  end.

(** No span is its own ancestor. *)
Definition acyclic (spans : list SpanData) : Prop :=
  forall j k, (0 < k)%nat -> ancestor spans k j <> Some j.

(** The nodes of the tree below [r]: [r], and the children of its nodes. *)
Inductive reachable (h : list obj) (r : loc) : loc -> Prop :=
| reach_root : reachable h r r
| reach_child l s ch c :
    reachable h r l -> h !! l = Some (ONode s ch) -> c ∈ ch -> reachable h r c.

(** The node made for the span at position [j]: nodes are allocated in
    input order, after the objects that were there. *)
Definition nodeOf (w : world) (j : nat) : loc := (length (heap w) + j)%nat.

(** The children [ch] of a node, read through the store [h], start in
    non-decreasing order from left to right. *)
Definition childrenSorted (h : list obj) (ch : list loc) : Prop :=
  forall i j a b sa sb, (i < j)%nat ->
    ch !! i = Some a -> ch !! j = Some b ->
    h !! a ≫= fieldsOf = Some sa -> h !! b ≫= fieldsOf = Some sb ->
    (startTime sa <= startTime sb)%Q.

(** ** The state of the collector *)

(** The spans recorded for a trace. *)
Definition recorded (c : collector) (w : world) (traceId : jsstring)
    (spans : list SpanData) : Prop :=
  exists arr, traceSpans c !! traceId = Some arr /\ holdsSpans w arr spans.

(** What holds of the collector between two events. *)
Definition collector_ok (c : collector) (w : world) : Prop :=
  (forall T arr, traceSpans c !! T = Some arr ->
     exists spans, holdsSpans w arr spans /\ spans <> []) /\
  (forall T1 T2 arr, traceSpans c !! T1 = Some arr -> traceSpans c !! T2 = Some arr ->
     T1 = T2) /\
  (forall t T, timers c !! t = Some T ->
     pendingRenders c !! T = Some t /\ (t < nextTimer c)%nat /\
     exists spans, recorded c w T spans /\ exists s, s ∈ spans /\ parentless s) /\
  (forall T t, pendingRenders c !! T = Some t -> timers c !! t = Some T).

(** ** Concrete traces *)

(** The three-span example: root A, children B and C. *)
Definition threeSpans : list SpanData :=
  [mkSpan "A" None 0 100; mkSpan "B" (Some "A"%string) 10 20;
   mkSpan "C" (Some "A"%string) 50 10].

(** Two parentless spans, the later one starting first. *)
Definition twoRoots : list SpanData :=
  [mkSpan "X" None 5 1; mkSpan "Y" None 1 1].

(** No parentless span: A names a parent that is not there, and its
    children come in the order B (start 20), C (start 10). *)
Definition noRoot : list SpanData :=
  [mkSpan "A" (Some "Z"%string) 0 100; mkSpan "B" (Some "A"%string) 20 5;
   mkSpan "C" (Some "A"%string) 10 5].

(** A root with one child and a span that names an absent parent. *)
Definition withOrphan : list SpanData :=
  [mkSpan "A" None 0 100; mkSpan "B" (Some "A"%string) 10 20;
   mkSpan "D" (Some "Z"%string) 30 5].

(** A single span that names itself as its parent. *)
Definition selfParent : list SpanData := [mkSpan "A" (Some "A"%string) 0 10].

(** A single span that names an absent parent. *)
Definition orphan : list SpanData := [mkSpan "A" (Some "Z"%string) 0 10].

(** No parentless span, and two spans that name each other as parent;
    the fallback root A is not linked to them. *)
Definition sideCycle : list SpanData :=
  [mkSpan "A" (Some "Z"%string) 0 10; mkSpan "B" (Some "C"%string) 1 1;
   mkSpan "C" (Some "B"%string) 2 1].

(** A chain: C below B below the root A. *)
Definition deepChain : list SpanData :=
  [mkSpan "A" None 0 10; mkSpan "B" (Some "A"%string) 1 1;
   mkSpan "C" (Some "B"%string) 2 1].

(** Lists in which an id occurs twice. *)
Definition dupCycle : list SpanData :=
  [mkSpan "X" (Some "X"%string) 0 1; mkSpan "X" None 0 1].

Definition dupRoots : list SpanData :=
  [mkSpan "A" None 0 1; mkSpan "B" None 0 1; mkSpan "B" (Some "A"%string) 0 1].

Definition dupEarliest : list SpanData :=
  [mkSpan "X" (Some "Z"%string) 0 1; mkSpan "X" (Some "Z"%string) 5 1].

Definition dupOrphan : list SpanData :=
  [mkSpan "P" None 0 10; mkSpan "Y" (Some "P"%string) 1 1;
   mkSpan "Y" (Some "Z"%string) 2 1].

(** Spans as the tracer hands them over, and runs of events. *)
Definition mkEnded (trace id : string) (parent : option string) (start dur : Z)
    : EndedSpan :=
  {| _spanContext := {| ctx_traceId := str trace; ctx_spanId := str id |};
     span_parentSpanId := str <$> parent;
     parentSpanContext := None;
     _parentSpanContext := None;
     span_name := str id;
     span_startTime := (inject_Z start, 0%Q);
     span_duration := (inject_Z dur, 0%Q);
     span_attributes := None |}.

Definition emptyWorld : world := {| heap := []; console := [] |}.

Definition sampleEvents : list event :=
  [SpanEnds (mkEnded "t1" "b" (Some "a"%string) 1 1);
   SpanEnds (mkEnded "t1" "a" None 0 3);
   SpanEnds (mkEnded "t2" "x" None 0 1);
   SpanEnds (mkEnded "t1" "c" None 0 1)].

Definition unrootedEvents : list event :=
  [SpanEnds (mkEnded "t1" "b" (Some "a"%string) 1 1);
   SpanEnds (mkEnded "t2" "x" None 0 1)].

(** ** Notions used in the proofs *)

(** [triple P m R E]: run from a world satisfying [P], the computation
    [m] either returns some [a] in a world satisfying [R a], or throws in
    a world satisfying [E].  With [E] empty it says that [m] returns. *)
Definition triple {A} (P : world -> Prop) (m : M A)
    (R : A -> world -> Prop) (E : world -> Prop) : Prop :=
  forall w, P w ->
    match m w with
    | (w', Ok a) => R a w'
    | (w', Throw _) => E w'
    end.

(** The order the sort establishes. *)
Definition startsBefore (a b : loc * SpanData) : Prop :=
  (startTime a.2 <= startTime b.2)%Q.

(** An object that, if it is a node, refers to locations from [base] on
    only. *)
Definition closedObj (base : nat) (o : obj) : Prop :=
  match o with
  | ONode _ ch => Forall (fun c => base <= c)%nat ch
  | _ => True
  end.

(** [framed h0 w]: the store of [w] is [h0] followed by objects allocated
    since, and the nodes among those refer to such objects only. *)
Definition framed (h0 : list obj) (w : world) : Prop :=
  exists ext, heap w = h0 ++ ext /\ Forall (closedObj (length h0)) ext.

Definition mapFresh (h0 : list obj) (m : gmap jsstring loc) : Prop :=
  forall k l, m !! k = Some l -> (length h0 <= l)%nat.

Definition refFresh (h0 : list obj) (r : option loc) : Prop :=
  forall l, r = Some l -> (length h0 <= l)%nat.

(** The map the first loop builds, registering from location [next] on. *)
Fixpoint regFrom (next : nat) (spans : list SpanData) (m : gmap jsstring loc)
    : gmap jsstring loc :=
  match spans with
  | [] => m
  | s :: rest => regFrom (S next) rest (<[spanId s := next]> m)
  end.

(** The node of the span at position [j], in a store that began as [h0]. *)
Definition loc_of (h0 : list obj) (j : nat) : loc := (length h0 + j)%nat.

(** The store while the tree is built: the initial one, then the node of
    each span in input order, then whatever was allocated later; [ch k]
    is the [children] array of the node of span [k]. *)
Definition treeWorld (spans : list SpanData) (h0 : list obj)
    (ch : nat -> list loc) (tl : list obj) (out : list jsstring) : world :=
  {| heap := h0 ++ imap (fun k s => ONode s (ch k)) spans ++ tl; console := out |}.

(** The spans among the first [t] that name span [k] as their parent. *)
Definition kidsUpTo (spans : list SpanData) (t k : nat) : list nat :=
  filter (fun j => parentAt spans j = Some k) (seq 0 t).

Definition rootAt (spans : list SpanData) (j : nat) : bool :=
  match spans !! j with
  | Some s => negb (truthy (parentKey s))
  | None => false
  end.

(** The last parentless span among the first [t]. *)
Definition rootUpTo (spans : list SpanData) (t : nat) : option nat :=
  last (filter (fun j => rootAt spans j) (seq 0 t)).

(** The children arrays after [t] turns of the linking loop. *)
Definition linked (spans : list SpanData) (h0 : list obj) (t k : nat) : list loc :=
  loc_of h0 <$> kidsUpTo spans t k.

(** The spans that name span [k] as their parent, in input order. *)
Definition kidsOf (spans : list SpanData) (k : nat) : list nat :=
  kidsUpTo spans (length spans) k.

(** The children [locs] of a node start in non-decreasing order. *)
Definition sortedKids (spans : list SpanData) (h0 : list obj) (locs : list loc) : Prop :=
  forall i j a b sa sb, (i < j)%nat ->
    locs !! i = Some (loc_of h0 a) -> locs !! j = Some (loc_of h0 b) ->
    spans !! a = Some sa -> spans !! b = Some sb ->
    (startTime sa <= startTime sb)%Q.

(** The store once the tree is linked: every node holds its children,
    in some order, and in order of start for the nodes in [P]. *)
Definition treeInv (spans : list SpanData) (h0 : list obj) (P : nat -> Prop)
    (tl : list obj) (out : list jsstring) (w : world) : Prop :=
  exists ch,
    w = treeWorld spans h0 ch tl out /\
    (forall k, ch k ≡ₚ loc_of h0 <$> kidsOf spans k) /\
    (forall k, P k -> sortedKids spans h0 (ch k)).

(** [chainTo spans r (i :: A)]: following parent links from [i] goes
    through [A] and ends in [r]. *)
Inductive chainTo (spans : list SpanData) (r : nat) : list nat -> Prop :=
| chain_root : chainTo spans r [r]
| chain_step c i A :
    parentAt spans c = Some i -> chainTo spans r (i :: A) ->
    chainTo spans r (c :: i :: A).
Arguments chain_root {spans} r.
Arguments chain_step {spans r} c i A _ _.

(** A line of the output that renders span [i] or a span whose parent
    is among the spans. *)
Definition rendersBelow (spans : list SpanData) (i : nat)
    (totalDuration traceStartTime : Q) (line : jsstring) : Prop :=
  exists j s prefix isLast isRoot,
    (j = i \/ is_Some (parentAt spans j)) /\ spans !! j = Some s /\
    renderLine s totalDuration traceStartTime prefix isLast isRoot = Ok line.

(** [line] is the line of the span [row.1], rendered [row.2] levels
    below a node that is rendered with [prefix], [isLast] and [isRoot]:
    the node itself as it is given, a span below it as a child, with
    three more columns of prefix for each further level. *)
Definition rowLine (spans : list SpanData) (totalDuration traceStartTime : Q)
    (prefix : jsstring) (isLast isRoot : bool)
    (row : nat * nat) (line : jsstring) : Prop :=
  exists s p il,
    spans !! row.1 = Some s /\
    renderLine s totalDuration traceStartTime p il
      (match row.2 with O => isRoot | S _ => false end) = Ok line /\
    length p =
      match row.2 with
      | O => length prefix
      | S d => ((if isRoot then 0 else length prefix + 3) + 3 * d)%nat
      end.

(** In the list [rows] of spans and their depths, every span below the
    first level comes after its parent, which is one level higher. *)
Definition parentsFirst (spans : list SpanData) (rows : list (nat * nat)) : Prop :=
  forall p j d, rows !! p = Some (j, S d) ->
    exists p' k, (p' < p)%nat /\ rows !! p' = Some (k, d) /\
                 parentAt spans j = Some k.

(** [a] goes before [b] among the children of a node: it starts earlier,
    or at the same time and comes earlier in the input. *)
Definition startsFirst (a b : loc * SpanData) : Prop :=
  (startTime a.2 < startTime b.2)%Q \/
  ((startTime a.2 == startTime b.2)%Q /\ (a.1 < b.1)%nat).

(** The children [locs] of a node are in order of start, and those that
    start together are in the order of the input. *)
Definition stableKids (spans : list SpanData) (h0 : list obj) (locs : list loc) : Prop :=
  forall i j a b sa sb, (i < j)%nat ->
    locs !! i = Some (loc_of h0 a) -> locs !! j = Some (loc_of h0 b) ->
    spans !! a = Some sa -> spans !! b = Some sb ->
    (startTime sa < startTime sb)%Q \/
    ((startTime sa == startTime sb)%Q /\ (a < b)%nat).

(** The store while the sort goes through the tree: the nodes in [P]
    have been sorted, the others hold their children as they were
    linked. *)
Definition stableInv (spans : list SpanData) (h0 : list obj) (P : nat -> Prop)
    (tl : list obj) (out : list jsstring) (w : world) : Prop :=
  exists ch,
    w = treeWorld spans h0 ch tl out /\
    (forall k, ch k ≡ₚ loc_of h0 <$> kidsOf spans k) /\
    (forall k, P k -> stableKids spans h0 (ch k)) /\
    (forall k, ~ P k -> ch k = loc_of h0 <$> kidsOf spans k).

(** The outcome of a comparison of rationals, as a proposition. *)
Ltac qcmp H :=
  first [apply Qeq_alt in H | apply Qlt_alt in H | apply Qgt_alt in H].

(** * Properties *)

(** ** The embedding on examples *)

Example toFixed_examples :
  toFixed (12345 # 100) 1 = str "123.5" /\ toFixed (5 # 100) 1 = str "0.1" /\
  toFixed (-(4 # 100)) 1 = str "-0.0" /\ toFixed (1995 # 10) 0 = str "200".
Proof. repeat split; reflexivity. Qed.

Example digits_examples : digits 0 = str "0" /\ digits 1024 = str "1024".
Proof. split; reflexivity. Qed.

(** The bar of span B of the three-span example: offset 10 and duration
    20 in a trace of 100, forty cells wide. *)
Example bar_example :
  renderTimelineBar 10 20 0 100 40 =
  Ok (replicate 4 FILLER ++ replicate 8 SOLID ++ replicate 28 FILLER).
Proof. reflexivity. Qed.

(** Only the first two attributes are shown. *)
Example attrStr_example :
  attrStr {| spanId := str "s"; parentSpanId := None; name := str "s";
             startTime := 0; duration := 1;
             attributes := Some [(str "a", str "1"); (str "b", str "2");
                                 (str "c", str "3")] |}
  = str " [a=1 b=2]".
Proof. reflexivity. Qed.

(** The three-span example: the root is the node of A, at location 4,
    with the nodes of B and C as its children. *)
Example threeSpans_tree :
  let res := buildSpanTree 3 (spansRef threeSpans) (worldOf threeSpans) in
  res.2 = Ok (Some 4%nat) /\
  heap res.1 !! 4%nat = Some (ONode (mkSpan "A" None 0 100) [5; 6]%nat).
Proof. split; vm_compute; reflexivity. Qed.

(** Children that come in the order C (start 50), B (start 10) are put
    in the order B, C. *)
Example children_get_sorted :
  let spans := [mkSpan "A" None 0 100; mkSpan "C" (Some "A"%string) 50 10;
                mkSpan "B" (Some "A"%string) 10 20] in
  let res := buildSpanTree 3 (spansRef spans) (worldOf spans) in
  heap res.1 !! 4%nat = Some (ONode (mkSpan "A" None 0 100) [6; 5]%nat).
Proof. vm_compute. reflexivity. Qed.

(** [renderTrace] logs four entries: an empty line, the title, the
    block of the header and one line per span, an empty line. *)
Example threeSpans_rendered :
  let res := renderTrace 3 (str "0123456789abcdef") (spansRef threeSpans)
               (worldOf threeSpans) in
  res.2 = Ok tt /\ length (console res.1) = 4%nat /\
  (console res.1 !! 2%nat ≫= fun out => Some (length (filter (fun c => c = 10%N) out)))
    = Some 3%nat.
Proof. repeat split; vm_compute; reflexivity. Qed.

(** ** The timeline bar *)

Lemma js_repeat_ok c count :
  0 <= count -> js_repeat c count = Ok (replicate (Z.to_nat count) c).
Proof.
  intros Hc. unfold js_repeat.
  destruct (count <? 0) eqn:E; [apply Z.ltb_lt in E; lia | reflexivity].
Qed.

(** Whatever the two roundings give, the three runs fill the bar: the
    start is clamped into [0, barWidth - 1] and the end into
    (start, barWidth]. *)
Lemma renderTimelineBar_runs startTime duration traceStartTime totalDuration barWidth :
  1 <= barWidth ->
  exists before bar after : nat,
    renderTimelineBar startTime duration traceStartTime totalDuration barWidth =
      Ok (replicate before FILLER ++ replicate bar SOLID ++ replicate after FILLER) /\
    (0 < bar)%nat /\
    Z.of_nat (before + bar + after) = barWidth.
Proof.
  intros Hw. unfold renderTimelineBar.
  destruct (Qeq_bool totalDuration 0).
  - exists 0%nat, (Z.to_nat barWidth), 0%nat.
    rewrite js_repeat_ok by lia. simpl. rewrite app_nil_r.
    repeat split; lia.
  - set (r1 := Math_round _). set (r2 := Math_round _).
    clearbody r1 r2.
    set (adj := Z.min (Z.max 0 r1) (barWidth - 1)).
    set (endPos := Z.min barWidth (adj + Z.max 1 r2)).
    assert (0 <= adj < barWidth) by (subst adj; lia).
    assert (adj < endPos <= barWidth) by (subst endPos; lia).
    rewrite !js_repeat_ok by lia. cbn.
    eexists _, _, _. split; [reflexivity |]. split; lia.
Qed.

Lemma renderLine_returns n totalDuration traceStartTime prefix isLast isRoot :
  exists line, renderLine n totalDuration traceStartTime prefix isLast isRoot = Ok line.
Proof.
  unfold renderLine.
  destruct (renderTimelineBar_runs (startTime n) (duration n) traceStartTime
              totalDuration timelineWidth) as (b & m & a & -> & _);
    [unfold timelineWidth; lia |].
  eexists. reflexivity.
Qed.

(** C5. For non-negative duration, non-negative totalDuration and a
    barWidth of at least 1, [renderTimelineBar] returns a string whose
    length is exactly barWidth and which holds at least one solid-block
    glyph. *)
Theorem renderTimelineBar_length_and_solid
    (startTime duration traceStartTime totalDuration : Q) (barWidth : Z) :
  (0 <= duration)%Q ->
  (0 <= totalDuration)%Q ->
  1 <= barWidth ->
  exists bar : jsstring,
    renderTimelineBar startTime duration traceStartTime totalDuration barWidth = Ok bar /\
    Z.of_nat (length bar) = barWidth /\
    SOLID ∈ bar.
Proof.
  intros _ _ Hw.
  destruct (renderTimelineBar_runs startTime duration traceStartTime totalDuration
              barWidth Hw) as (b & m & a & -> & Hm & Hlen).
  eexists. split; [reflexivity |]. split.
  - rewrite !length_app, !length_replicate. lia.
  - apply elem_of_app. right. apply elem_of_app. left.
    apply elem_of_replicate. split; [reflexivity | lia].
Qed.

Lemma renderTimelineBar_length_and_solid_witness :
  exists bar : jsstring,
    renderTimelineBar 10 20 0 100 40 = Ok bar /\
    Z.of_nat (length bar) = 40 /\ SOLID ∈ bar.
Proof.
  apply (renderTimelineBar_length_and_solid 10 20 0 100 40).
  - unfold Qle; simpl; lia.
  - unfold Qle; simpl; lia.
  - lia.
Defined.

(** C8. When totalDuration is 0 and barWidth is at least 1, the bar is
    barWidth solid-block glyphs and nothing else, whatever the node's
    startTime and duration. *)
Theorem renderTimelineBar_zero_total
    (startTime duration traceStartTime totalDuration : Q) (barWidth : Z) :
  totalDuration == 0 ->
  1 <= barWidth ->
  exists bar : jsstring,
    renderTimelineBar startTime duration traceStartTime totalDuration barWidth = Ok bar /\
    Z.of_nat (length bar) = barWidth /\
    Forall (eq SOLID) bar.
Proof.
  intros H0 Hw. unfold renderTimelineBar.
  apply Qeq_bool_iff in H0. rewrite H0.
  rewrite js_repeat_ok by lia.
  eexists. split; [reflexivity |]. split.
  - rewrite length_replicate. lia.
  - apply Forall_replicate. reflexivity.
Qed.

Lemma renderTimelineBar_zero_total_witness :
  exists bar : jsstring,
    renderTimelineBar 7 3 2 0 50 = Ok bar /\
    Z.of_nat (length bar) = 50 /\ Forall (eq SOLID) bar.
Proof.
  apply (renderTimelineBar_zero_total 7 3 2 0 50).
  - reflexivity.
  - lia.
Defined.

(** ** Reasoning about computations *)

Lemma bind_run {A B} (m : M A) (f : A -> M B) w :
  (m ≫= f) w =
  match m w with
  | (w', Ok a) => f a w'
  | (w', Throw e) => (w', Throw e)
  end.
Proof. reflexivity. Qed.

Lemma ret_run {A} (a : A) w : (mret a : M A) w = (w, Ok a).
Proof. reflexivity. Qed.

Lemma triple_ret {A} (P : world -> Prop) (a : A) R E :
  (forall w, P w -> R a w) -> triple P (mret a) R E.
Proof. intros H w Hw. cbn. auto. Qed.

Lemma triple_throw {A} (P : world -> Prop) e (R : A -> world -> Prop) E :
  (forall w, P w -> E w) -> triple P (throw e) R E.
Proof. intros H w Hw. cbn. auto. Qed.

Lemma triple_bind {A B} P (m : M A) (f : A -> M B) R' R E :
  triple P m R' E ->
  (forall a, triple (R' a) (f a) R E) ->
  triple P (m ≫= f) R E.
Proof.
  intros Hm Hf w Hw. rewrite bind_run. specialize (Hm w Hw).
  destruct (m w) as [w' [a | e]]; [apply Hf, Hm | exact Hm].
Qed.

Lemma triple_conseq {A} (P P' : world -> Prop) (m : M A) (R R' : A -> world -> Prop)
    (E E' : world -> Prop) :
  triple P m R E ->
  (forall w, P' w -> P w) ->
  (forall a w, R a w -> R' a w) ->
  (forall w, E w -> E' w) ->
  triple P' m R' E'.
Proof.
  intros Hm HP HR HE w Hw. specialize (Hm w (HP w Hw)).
  destruct (m w) as [w' [a | e]]; auto.
Qed.

Lemma triple_liftR {A} (P : world -> Prop) (r : result A) (R : A -> world -> Prop) E :
  (forall w, P w -> match r with Ok a => R a w | Throw _ => E w end) ->
  triple P (liftR r) R E.
Proof. intros H w Hw. cbn. specialize (H w Hw). destruct r; auto. Qed.

(** A loop with an invariant indexed by the position reached. *)
Lemma triple_forOf {A B} (I : nat -> B -> world -> Prop) E
    (f : B -> A -> M B) (xs : list A) (b : B) :
  (forall i b x, xs !! i = Some x -> triple (I i b) (f b x) (I (S i)) E) ->
  triple (I 0%nat b) (forOf f b xs) (I (length xs)) E.
Proof.
  revert I b. induction xs as [| x xs IH]; intros I b Hstep.
  - apply triple_ret. auto.
  - cbn [forOf]. eapply triple_bind.
    + apply (Hstep 0%nat b x). reflexivity.
    + intros b'. apply (IH (fun i => I (S i))).
      intros i b'' y Hy. apply Hstep. exact Hy.
Qed.

Lemma triple_forEach {A} (I : world -> Prop) E (f : A -> M unit) (xs : list A) :
  (forall x, x ∈ xs -> triple I (f x) (fun _ => I) E) ->
  triple I (forEach f xs) (fun _ => I) E.
Proof.
  induction xs as [| x xs IH]; intros Hstep.
  - apply triple_ret. auto.
  - cbn [forEach]. eapply triple_bind.
    + apply Hstep. left.
    + intros u. apply IH. intros y Hy. apply Hstep. right. exact Hy.
Qed.

Lemma triple_forEach_at {A} (I : nat -> world -> Prop) E (f : A -> M unit)
    (xs : list A) :
  (forall i x, xs !! i = Some x -> triple (I i) (f x) (fun _ => I (S i)) E) ->
  triple (I 0%nat) (forEach f xs) (fun _ => I (length xs)) E.
Proof.
  revert I. induction xs as [| x xs IH]; intros I Hstep.
  - apply triple_ret. auto.
  - cbn [forEach]. eapply triple_bind.
    + apply (Hstep 0%nat x). reflexivity.
    + intros u. apply (IH (fun i => I (S i))).
      intros i y Hy. apply Hstep. exact Hy.
Qed.

(** A computation that returns: the result and the world it ends in. *)
Lemma triple_returns {A} (P : world -> Prop) (m : M A) R w :
  triple P m R (fun _ => False) -> P w ->
  exists w' a, m w = (w', Ok a) /\ R a w'.
Proof.
  intros Hm Hw. specialize (Hm w Hw).
  destruct (m w) as [w' [a | e]]; [eauto | contradiction].
Qed.

(** Reads *)

Lemma triple_readObj (P : world -> Prop) l E :
  (forall w, P w -> heap w !! l = None -> E w) ->
  triple P (readObj l) (fun o w => P w /\ heap w !! l = Some o) E.
Proof.
  intros HE w Hw. unfold readObj.
  destruct (heap w !! l) eqn:Hl; auto.
Qed.

Lemma triple_readSpan (P : world -> Prop) l E :
  (forall w, P w -> E w) ->
  triple P (readSpan l)
    (fun s w => P w /\ (heap w !! l = Some (OSpan s) \/
                        exists ch, heap w !! l = Some (ONode s ch))) E.
Proof.
  intros HE. unfold readSpan. eapply triple_bind.
  - apply triple_readObj. auto.
  - intros [s | s ch | es].
    + apply triple_ret. intros w [? ?]. auto.
    + apply triple_ret. intros w [? ?]. eauto.
    + apply triple_throw. intros w [? ?]. auto.
Qed.

Lemma triple_readNode (P : world -> Prop) l E :
  (forall w, P w -> E w) ->
  triple P (readNode l)
    (fun sc w => P w /\ heap w !! l = Some (ONode sc.1 sc.2)) E.
Proof.
  intros HE. unfold readNode. eapply triple_bind.
  - apply triple_readObj. auto.
  - intros [s | s ch | es].
    + apply triple_throw. intros w [? ?]. auto.
    + apply triple_ret. intros w [? ?]. auto.
    + apply triple_throw. intros w [? ?]. auto.
Qed.

Lemma triple_readArray (P : world -> Prop) l E :
  (forall w, P w -> E w) ->
  triple P (readArray l)
    (fun es w => P w /\ heap w !! l = Some (OArray es)) E.
Proof.
  intros HE. unfold readArray. eapply triple_bind.
  - apply triple_readObj. auto.
  - intros [s | s ch | es].
    + apply triple_throw. intros w [? ?]. auto.
    + apply triple_throw. intros w [? ?]. auto.
    + apply triple_ret. intros w [? ?]. auto.
Qed.

Lemma triple_readAll (P : world -> Prop) xs E :
  (forall w, P w -> E w) ->
  triple P (readAll xs) (fun kids w => P w /\ kids.*1 = xs) E.
Proof.
  intros HE. induction xs as [| x xs IH]; cbn [readAll].
  - apply triple_ret. auto.
  - eapply triple_bind; [apply triple_readSpan; exact HE |].
    intros s. eapply triple_bind.
    + eapply triple_conseq; [exact IH | | intros a w H; exact H | auto].
      intros w [Hw _]. exact Hw.
    + intros rest. apply triple_ret. intros w [Hw Hr]. split; [exact Hw |].
      cbn. by rewrite Hr.
Qed.

Lemma triple_pure {A} (P : world -> Prop) (phi : Prop) (m : M A) R E :
  (forall w, P w -> phi) ->
  (phi -> triple P m R E) ->
  triple P m R E.
Proof. intros H1 H2 w Hw. exact (H2 (H1 w Hw) w Hw). Qed.

(** ** The sort *)

Lemma js_insert_perm {A} (cmp : A -> A -> Q) x l : js_insert cmp x l ≡ₚ x :: l.
Proof.
  induction l as [| y l IH]; cbn; [reflexivity |].
  destruct (Qle_bool (cmp x y) 0); [reflexivity |].
  rewrite IH. apply Permutation_swap.
Qed.

Lemma js_sort_perm {A} (cmp : A -> A -> Q) l : js_sort cmp l ≡ₚ l.
Proof.
  induction l as [| x l IH]; cbn; [reflexivity |].
  rewrite js_insert_perm. by rewrite IH.
Qed.

Lemma js_sort_fst_perm (kids : list (loc * SpanData)) :
  (js_sort byStartTime kids).*1 ≡ₚ kids.*1.
Proof. apply fmap_Permutation, js_sort_perm. Qed.

(** The sort puts first the earliest of the least elements. *)
Lemma js_sort_head (l : list (loc * SpanData)) :
  l <> [] ->
  exists i x,
    l !! i = Some x /\ head (js_sort byStartTime l) = Some x /\
    forall j y, l !! j = Some y ->
      (startTime x.2 <= startTime y.2)%Q /\
      ((j < i)%nat -> (startTime x.2 < startTime y.2)%Q).
Proof.
  induction l as [| a l IH]; [done |]. intros _.
  destruct (decide (l = [])) as [-> | Hne].
  - exists 0%nat, a. split; [reflexivity |]. split; [reflexivity |].
    intros j y H. destruct j; [| discriminate]. injection H as <-.
    split; [apply Qle_refl | lia].
  - destruct (IH Hne) as (i & x & Hx & Hhead & Hmin).
    change (js_sort byStartTime (a :: l))
      with (js_insert byStartTime a (js_sort byStartTime l)).
    destruct (js_sort byStartTime l) as [| z rest]; [discriminate |].
    cbn in Hhead. injection Hhead as ->. cbn [js_insert].
    destruct (Qle_bool (byStartTime a x) 0) eqn:Hab.
    + apply Qle_bool_iff in Hab. unfold byStartTime in Hab.
      exists 0%nat, a. split; [reflexivity |]. split; [reflexivity |].
      intros j y H. split; [| lia]. destruct j as [| j]; cbn in H.
      * injection H as <-. apply Qle_refl.
      * destruct (Hmin j y H) as [Hle _]. lra.
    + assert (~ (byStartTime a x <= 0)%Q) as Hab'
        by (intros H; apply Qle_bool_iff in H; congruence).
      unfold byStartTime in Hab'.
      exists (S i), x. split; [exact Hx |]. split; [reflexivity |].
      intros j y H. destruct j as [| j]; cbn in H.
      * injection H as <-. split; [lra | intros _; lra].
      * destruct (Hmin j y H) as [Hle Hlt]. split; [exact Hle |].
        intros Hj. apply Hlt. lia.
Qed.

Lemma js_insert_sorted x l :
  StronglySorted startsBefore l ->
  StronglySorted startsBefore (js_insert byStartTime x l).
Proof.
  induction 1 as [| y l Hl IH Hy]; cbn [js_insert].
  - repeat constructor.
  - destruct (Qle_bool (byStartTime x y) 0) eqn:Hxy.
    + apply Qle_bool_iff in Hxy. unfold byStartTime in Hxy.
      constructor; [by constructor |].
      constructor; [unfold startsBefore; lra |].
      eapply Forall_impl; [exact Hy |]. unfold startsBefore. intros z Hz. lra.
    + assert (~ (byStartTime x y <= 0)%Q) as Hxy'
        by (intros H; apply Qle_bool_iff in H; congruence).
      unfold byStartTime in Hxy'.
      constructor; [exact IH |].
      rewrite js_insert_perm. constructor; [unfold startsBefore; lra | exact Hy].
Qed.

Lemma js_sort_sorted l : StronglySorted startsBefore (js_sort byStartTime l).
Proof.
  induction l as [| x l IH]; cbn [js_sort]; [constructor |].
  by apply js_insert_sorted.
Qed.

Lemma StronglySorted_lookup {A} (R : A -> A -> Prop) l i j a b :
  StronglySorted R l -> (i < j)%nat ->
  l !! i = Some a -> l !! j = Some b -> R a b.
Proof.
  intros Hs. revert i j. induction Hs as [| x l Hl IH Hx]; intros i j Hij Hi Hj.
  - discriminate.
  - destruct j as [| j]; [lia |]. cbn in Hj. destruct i as [| i]; cbn in Hi.
    + injection Hi as <-. rewrite Forall_forall in Hx.
      eapply Hx, list_elem_of_lookup_2, Hj.
    + apply (IH i j); [lia | assumption | assumption].
Qed.

(** ** The call leaves every object of the caller as it was *)

Section Frame.
Variable h0 : list obj.

Local Abbreviation mapFresh := (mapFresh h0).
Local Abbreviation refFresh := (refFresh h0).

Lemma framed_children w l s ch :
  framed h0 w -> (length h0 <= l)%nat -> heap w !! l = Some (ONode s ch) ->
  Forall (fun c => length h0 <= c)%nat ch.
Proof.
  intros (ext & Hh & Hc) Hl Hlk. rewrite Hh in Hlk.
  rewrite lookup_app_r in Hlk by exact Hl.
  apply (Forall_lookup_1 _ _ _ _ Hc) in Hlk. exact Hlk.
Qed.

Lemma triple_alloc_framed o E :
  closedObj (length h0) o ->
  triple (framed h0) (alloc o)
    (fun l w => framed h0 w /\ (length h0 <= l)%nat) E.
Proof.
  intros Ho w (ext & Hh & Hc). cbn. split.
  - exists (ext ++ [o]). split.
    + rewrite Hh. by rewrite app_assoc.
    + apply Forall_app. split; [exact Hc |]. by constructor.
  - rewrite Hh, length_app. lia.
Qed.

Lemma triple_writeObj_framed l o E :
  (length h0 <= l)%nat -> closedObj (length h0) o ->
  triple (framed h0) (writeObj l o) (fun _ => framed h0) E.
Proof.
  intros Hl Ho w (ext & Hh & Hc). cbn.
  exists (<[(l - length h0)%nat := o]> ext). split.
  - rewrite Hh. by rewrite insert_app_r_alt.
  - apply Forall_insert; assumption.
Qed.

(** Weakening a precondition that carries more than the frame. *)
Lemma triple_framed_pre {A} (P : world -> Prop) (m : M A) R :
  (forall w, P w -> framed h0 w) ->
  triple (framed h0) m R (framed h0) ->
  triple P m R (framed h0).
Proof.
  intros HP Hm. eapply triple_conseq; [exact Hm | exact HP | auto | auto].
Qed.

Lemma sortChildren_framed fuel node :
  (length h0 <= node)%nat ->
  triple (framed h0) (sortChildren fuel node) (fun _ => framed h0) (framed h0).
Proof.
  revert node. induction fuel as [| fuel IH]; intros node Hn; cbn [sortChildren].
  - apply triple_throw. auto.
  - eapply triple_bind; [apply triple_readNode; auto |].
    intros [s ch]. cbn [fst snd].
    apply (triple_pure _ (Forall (fun c => length h0 <= c)%nat ch)).
    { intros w [Hf Hlk]. exact (framed_children w node s ch Hf Hn Hlk). }
    intros Hch.
    eapply triple_bind; [apply triple_readAll; intros w [H _]; exact H |].
    intros kids.
    apply (triple_pure _ (kids.*1 = ch)); [intros w [_ H]; exact H |].
    intros Hk.
    assert (Forall (fun c => length h0 <= c)%nat (js_sort byStartTime kids).*1) as Hs.
    { rewrite js_sort_fst_perm, Hk. exact Hch. }
    eapply triple_bind.
    + apply triple_framed_pre; [intros w [[H _] _]; exact H |].
      apply triple_writeObj_framed; [exact Hn | exact Hs].
    + intros u. apply triple_forEach. intros x Hx.
      apply IH. rewrite Forall_forall in Hs. apply Hs, Hx.
Qed.

Lemma createNode_framed m l :
  mapFresh m ->
  triple (framed h0) (createNode m l)
    (fun m' w => framed h0 w /\ mapFresh m') (framed h0).
Proof.
  intros Hm. unfold createNode.
  eapply triple_bind; [apply triple_readSpan; auto |].
  intros s. eapply triple_bind.
  - apply triple_framed_pre; [intros w [H _]; exact H |].
    apply (triple_alloc_framed (ONode s [])). constructor.
  - intros node. apply triple_ret. intros w [Hw Hl]. split; [exact Hw |].
    intros k l'. rewrite lookup_insert. case_decide.
    + intros [= <-]. exact Hl.
    + apply Hm.
Qed.

Lemma Map_get_framed (P : world -> Prop) m k E :
  mapFresh m -> (forall w, P w -> E w) ->
  triple P (Map_get m k) (fun l w => P w /\ (length h0 <= l)%nat) E.
Proof.
  intros Hm HE. unfold Map_get. destruct (m !! k) as [l |] eqn:Hk.
  - apply triple_ret. intros w Hw. split; [exact Hw |]. eapply Hm, Hk.
  - apply triple_throw. exact HE.
Qed.

Lemma pushChild_framed parent node :
  (length h0 <= parent)%nat -> (length h0 <= node)%nat ->
  triple (framed h0) (pushChild parent node) (fun _ => framed h0) (framed h0).
Proof.
  intros Hp Hn. unfold pushChild.
  eapply triple_bind; [apply triple_readNode; auto |].
  intros [s ch]. cbn [fst snd].
  apply (triple_pure _ (Forall (fun c => length h0 <= c)%nat ch)).
  { intros w [Hf Hlk]. exact (framed_children w parent s ch Hf Hp Hlk). }
  intros Hch.
  apply triple_framed_pre; [intros w [H _]; exact H |].
  apply triple_writeObj_framed; [exact Hp |].
  apply Forall_app; split; [exact Hch | by constructor].
Qed.

Lemma linkSpan_framed m root l :
  mapFresh m -> refFresh root ->
  triple (framed h0) (linkSpan m root l)
    (fun root' w => framed h0 w /\ refFresh root') (framed h0).
Proof.
  intros Hm Hr. unfold linkSpan.
  eapply triple_bind; [apply triple_readSpan; auto |].
  intros s. eapply triple_bind.
  { apply Map_get_framed; [exact Hm | intros w [H _]; exact H]. }
  intros node.
  apply (triple_pure _ (length h0 <= node)%nat); [intros w [_ H]; exact H |].
  intros Hnode.
  destruct (truthy (parentKey s) && Map_has m (parentKey s)).
  - eapply triple_bind.
    { apply Map_get_framed; [exact Hm | intros w [[H _] _]; exact H]. }
    intros parent.
    apply (triple_pure _ (length h0 <= parent)%nat); [intros w [_ H]; exact H |].
    intros Hparent.
    eapply triple_bind.
    + apply triple_framed_pre; [intros w [[[H _] _] _]; exact H |].
      apply (pushChild_framed parent node Hparent Hnode).
    + intros u. apply triple_ret. intros w Hw. split; [exact Hw | exact Hr].
  - destruct (negb (truthy (parentKey s))).
    + apply triple_ret. intros w [[H _] _]. split; [exact H |].
      intros l' [= <-]. exact Hnode.
    + apply triple_ret. intros w [[H _] _]. split; [exact H | exact Hr].
Qed.

Lemma sortedCopy_framed elems :
  triple (framed h0) (sortedCopy elems) (fun _ => framed h0) (framed h0).
Proof.
  unfold sortedCopy.
  eapply triple_bind; [apply (triple_alloc_framed (OArray elems)); exact I |].
  intros copy.
  apply (triple_pure _ (length h0 <= copy)%nat); [intros w [_ H]; exact H |].
  intros Hcopy.
  eapply triple_bind; [apply triple_readArray; intros w [H _]; exact H |].
  intros es.
  eapply triple_bind; [apply triple_readAll; intros w [[H _] _]; exact H |].
  intros recs. eapply triple_bind.
  - apply triple_framed_pre; [intros w [[[H _] _] _]; exact H |].
    apply triple_writeObj_framed; [exact Hcopy | exact I].
  - intros u. apply triple_ret. auto.
Qed.

Lemma buildSpanTree_framed fuel spans :
  triple (framed h0) (buildSpanTree fuel spans) (fun _ => framed h0) (framed h0).
Proof.
  unfold buildSpanTree.
  eapply triple_bind; [apply triple_readArray; auto |].
  intros elems.
  destruct (decide (length elems = 0%nat)).
  { apply triple_ret. intros w [H _]; exact H. }
  eapply triple_bind.
  { apply triple_framed_pre; [intros w [H _]; exact H |].
    eapply triple_conseq;
      [apply (triple_forOf (fun _ (m : gmap jsstring loc) w => framed h0 w /\ mapFresh m)
                (framed h0) createNode elems ∅)
      | | intros m w H; exact H | auto].
    - intros i m x _.
      apply (triple_pure _ (mapFresh m)); [intros w [_ H]; exact H |].
      intros Hm. apply triple_framed_pre; [intros w [H _]; exact H |].
      apply createNode_framed, Hm.
    - intros w Hw. split; [exact Hw |]. intros k l. by rewrite lookup_empty. }
  intros spanMap.
  apply (triple_pure _ (mapFresh spanMap)); [intros w [_ H]; exact H |].
  intros Hm.
  eapply triple_bind.
  { apply triple_framed_pre; [intros w [H _]; exact H |].
    eapply triple_conseq;
      [apply (triple_forOf (fun _ (r : option loc) w => framed h0 w /\ refFresh r)
                (framed h0) (linkSpan spanMap) elems None)
      | | intros r w H; exact H | auto].
    - intros i r x _.
      apply (triple_pure _ (refFresh r)); [intros w [_ H]; exact H |].
      intros Hr. apply triple_framed_pre; [intros w [H _]; exact H |].
      apply linkSpan_framed; assumption.
    - intros w Hw. split; [exact Hw |]. intros l [=]. }
  intros [r |].
  - apply (triple_pure _ (length h0 <= r)%nat); [intros w [_ H]; by apply H |].
    intros Hr. eapply triple_bind.
    + apply triple_framed_pre; [intros w [H _]; exact H |].
      apply sortChildren_framed, Hr.
    + intros u. apply triple_ret. auto.
  - destruct (decide (0 < length elems)%nat).
    + eapply triple_bind.
      { apply triple_framed_pre; [intros w [H _]; exact H |].
        apply sortedCopy_framed. }
      intros sortedSpans.
      eapply triple_bind; [apply triple_readArray; auto |].
      intros sorted. destruct (sorted !! 0%nat) as [first |].
      * eapply triple_bind; [apply triple_readSpan; intros w [H _]; exact H |].
        intros s. eapply triple_bind.
        { apply (Map_get_framed _ _ _ (framed h0) Hm).
          intros w [[H _] _]. exact H. }
        intros r. apply triple_ret. intros w [[[H _] _] _]. exact H.
      * apply triple_throw. intros w [H _]. exact H.
    + apply triple_ret. intros w [H _]. exact H.
Qed.
End Frame.

(** The renderer reads the store and writes nothing. *)
Lemma renderNode_reads (P : world -> Prop) fuel totalDuration traceStartTime
    lines node prefix isLast isRoot :
  triple P (renderNode fuel totalDuration traceStartTime lines node prefix isLast isRoot)
    (fun _ => P) P.
Proof.
  revert lines node prefix isLast isRoot.
  induction fuel as [| fuel IH]; intros lines node prefix isLast isRoot;
    cbn [renderNode].
  - apply triple_throw. auto.
  - eapply triple_bind; [apply triple_readNode; auto |].
    intros [n children]. cbn [fst snd].
    eapply triple_bind.
    { apply triple_liftR. intros w [Hw _].
      instantiate (1 := fun _ => P).
      destruct (renderLine _ _ _ _ _ _); exact Hw. }
    intros line.
    eapply triple_conseq;
      [apply (triple_forOf (fun _ _ => P) P) | auto | auto | auto].
    intros i b x _. apply IH.
Qed.

Lemma renderSpanTree_reads (P : world -> Prop) fuel root totalDuration traceStartTime :
  triple P (renderSpanTree fuel root totalDuration traceStartTime) (fun _ => P) P.
Proof.
  unfold renderSpanTree.
  eapply triple_bind.
  { apply triple_liftR. intros w Hw. instantiate (1 := fun _ => P).
    destruct (js_repeat _ _); exact Hw. }
  intros pad. eapply triple_bind.
  { apply triple_liftR. intros w Hw. instantiate (1 := fun _ => P).
    destruct (js_repeat _ _); exact Hw. }
  intros gap. eapply triple_bind; [apply renderNode_reads |].
  intros lines. apply triple_ret. auto.
Qed.

Lemma renderTrace_framed h0 fuel traceId spans :
  triple (framed h0) (renderTrace fuel traceId spans) (fun _ => framed h0) (framed h0).
Proof.
  unfold renderTrace.
  eapply triple_bind; [apply buildSpanTree_framed |].
  intros [tree |]; [| apply triple_ret; auto].
  eapply triple_bind; [apply triple_readSpan; auto |].
  intros t. eapply triple_bind.
  { instantiate (1 := fun _ => framed h0). intros w [H _]. exact H. }
  intros u. eapply triple_bind; [apply triple_readArray; auto |].
  intros elems. eapply triple_bind.
  { instantiate (1 := fun _ => framed h0). intros w [H _]. exact H. }
  intros u'. eapply triple_bind; [apply renderSpanTree_reads |].
  intros out. eapply triple_bind.
  { instantiate (1 := fun _ => framed h0). intros w H. exact H. }
  intros u''. intros w H. exact H.
Qed.

Lemma framed_initial w : framed (heap w) w.
Proof. exists []. split; [by rewrite app_nil_r | constructor]. Qed.

(** C10. [buildSpanTree] and [renderTrace] leave the input unchanged:
    whatever the store, the array passed in and the fuel, and whether the
    call returns or throws, the store it ends in is the initial store
    followed by the objects the call allocated.  The spans array, every
    span record in it and every other object of the caller are exactly as
    before: the nodes are copies, and the fallback sorts a copy. *)
Theorem buildSpanTree_renderTrace_input_unchanged
    (fuel : nat) (traceId : jsstring) (spans : loc) (w : world) :
  (exists ext, heap (buildSpanTree fuel spans w).1 = heap w ++ ext) /\
  (exists ext, heap (renderTrace fuel traceId spans w).1 = heap w ++ ext).
Proof.
  split.
  - pose proof (buildSpanTree_framed (heap w) fuel spans w (framed_initial w)) as H.
    destruct (buildSpanTree fuel spans w) as [w' [r | e]];
      destruct H as (ext & H & _); eauto.
  - pose proof (renderTrace_framed (heap w) fuel traceId spans w (framed_initial w)) as H.
    destruct (renderTrace fuel traceId spans w) as [w' [r | e]];
      destruct H as (ext & H & _); eauto.
Qed.

(** ** Running the primitives *)

Lemma readSpan_run w l s :
  heap w !! l ≫= fieldsOf = Some s -> readSpan l w = (w, Ok s).
Proof.
  intros H. unfold readSpan, readObj. rewrite bind_run.
  destruct (heap w !! l) as [[s' | s' ch | es] |]; cbn in H; try discriminate;
    injection H as ->; reflexivity.
Qed.

Lemma readNode_run w l s ch :
  heap w !! l = Some (ONode s ch) -> readNode l w = (w, Ok (s, ch)).
Proof. intros H. unfold readNode, readObj. rewrite bind_run, H. reflexivity. Qed.

Lemma readArray_run w l es :
  heap w !! l = Some (OArray es) -> readArray l w = (w, Ok es).
Proof. intros H. unfold readArray, readObj. rewrite bind_run, H. reflexivity. Qed.

Lemma readAll_run w xs ss :
  Forall2 (fun l s => heap w !! l ≫= fieldsOf = Some s) xs ss ->
  readAll xs w = (w, Ok (zip xs ss)).
Proof.
  induction 1 as [| l s xs ss Hl _ IH]; [reflexivity |].
  cbn [readAll]. rewrite bind_run, (readSpan_run _ _ _ Hl).
  rewrite bind_run, IH. reflexivity.
Qed.

Lemma readAll_returns w xs :
  Forall (fun l => is_Some (heap w !! l ≫= fieldsOf)) xs ->
  exists kids,
    readAll xs w = (w, Ok kids) /\ kids.*1 = xs /\
    Forall (fun p => heap w !! p.1 ≫= fieldsOf = Some p.2) kids.
Proof.
  induction 1 as [| l xs [s Hl] _ (kids & Hrun & Hfst & Hall)].
  - exists []. repeat split. constructor.
  - exists ((l, s) :: kids). cbn [readAll].
    rewrite bind_run, (readSpan_run _ _ _ Hl), bind_run, Hrun.
    repeat split; [by rewrite fmap_cons, Hfst | by constructor].
Qed.

Lemma Map_get_run (m : gmap jsstring loc) k l w :
  m !! k = Some l -> Map_get m k w = (w, Ok l).
Proof. intros H. unfold Map_get. rewrite H. reflexivity. Qed.

Lemma forOf_run {A B} (f : B -> A -> M B) (W : nat -> world) (Bs : nat -> B) xs :
  (forall i x, xs !! i = Some x -> f (Bs i) x (W i) = (W (S i), Ok (Bs (S i)))) ->
  forOf f (Bs 0%nat) xs (W 0%nat) = (W (length xs), Ok (Bs (length xs))).
Proof.
  revert W Bs. induction xs as [| x xs IH]; intros W Bs Hstep; [reflexivity |].
  cbn [forOf]. rewrite bind_run, (Hstep 0%nat x eq_refl).
  apply (IH (fun i => W (S i)) (fun i => Bs (S i))).
  intros i y Hy. apply (Hstep (S i)). exact Hy.
Qed.

(** ** A deeper stack does not change a result

    Once a call returns with some fuel, it returns the same with more. *)

Lemma bind_ok_inv {A B} (m : M A) (f : A -> M B) w w' b :
  (m ≫= f) w = (w', Ok b) ->
  exists w1 a, m w = (w1, Ok a) /\ f a w1 = (w', Ok b).
Proof.
  rewrite bind_run. destruct (m w) as [w1 [a | e]]; [eauto | discriminate].
Qed.

Lemma forEach_ok_mono {A} (f g : A -> M unit) xs :
  (forall x w w' u, f x w = (w', Ok u) -> g x w = (w', Ok u)) ->
  forall w w' u, forEach f xs w = (w', Ok u) -> forEach g xs w = (w', Ok u).
Proof.
  intros H. induction xs as [| x xs IH]; intros w w' u Hrun; [exact Hrun |].
  cbn [forEach] in *. apply bind_ok_inv in Hrun as (w1 & u1 & Hf & Hrest).
  rewrite bind_run, (H _ _ _ _ Hf). by apply IH.
Qed.

Lemma forOf_ok_mono {A B} (f g : B -> A -> M B) xs :
  (forall b x w w' b', f b x w = (w', Ok b') -> g b x w = (w', Ok b')) ->
  forall b w w' b', forOf f b xs w = (w', Ok b') -> forOf g b xs w = (w', Ok b').
Proof.
  intros H. induction xs as [| x xs IH]; intros b w w' b' Hrun; [exact Hrun |].
  cbn [forOf] in *. apply bind_ok_inv in Hrun as (w1 & b1 & Hf & Hrest).
  rewrite bind_run, (H _ _ _ _ _ Hf). by apply IH.
Qed.

Lemma sortChildren_fuel_mono fuel : forall fuel' l w w' u,
  (fuel <= fuel')%nat ->
  sortChildren fuel l w = (w', Ok u) -> sortChildren fuel' l w = (w', Ok u).
Proof.
  induction fuel as [| fuel IH]; intros fuel' l w w' u Hle Hrun; [discriminate |].
  destruct fuel' as [| fuel']; [lia |]. cbn [sortChildren] in *.
  apply bind_ok_inv in Hrun as (w1 & [s ch] & Hn & Hrun). rewrite bind_run, Hn.
  apply bind_ok_inv in Hrun as (w2 & kids & Hk & Hrun). rewrite bind_run, Hk.
  apply bind_ok_inv in Hrun as (w3 & u3 & Hw & Hrun). rewrite bind_run, Hw.
  eapply forEach_ok_mono; [| exact Hrun].
  intros x v v' u' Hx. apply (IH fuel'); [lia | exact Hx].
Qed.

Lemma renderNode_fuel_mono totalDuration traceStartTime fuel :
  forall fuel' lines node prefix isLast isRoot w w' lines',
  (fuel <= fuel')%nat ->
  renderNode fuel totalDuration traceStartTime lines node prefix isLast isRoot w =
    (w', Ok lines') ->
  renderNode fuel' totalDuration traceStartTime lines node prefix isLast isRoot w =
    (w', Ok lines').
Proof.
  induction fuel as [| fuel IH];
    intros fuel' lines node prefix isLast isRoot w w' lines' Hle Hrun; [discriminate |].
  destruct fuel' as [| fuel']; [lia |]. cbn [renderNode] in *.
  apply bind_ok_inv in Hrun as (w1 & [n ch] & Hn & Hrun). rewrite bind_run, Hn.
  apply bind_ok_inv in Hrun as (w2 & line & Hl & Hrun). rewrite bind_run, Hl.
  eapply forOf_ok_mono; [| exact Hrun].
  intros b x v v' b' Hx. apply (IH fuel'); [lia | exact Hx].
Qed.

Lemma buildSpanTree_fuel_mono fuel fuel' a w w' r :
  (fuel <= fuel')%nat ->
  buildSpanTree fuel a w = (w', Ok r) -> buildSpanTree fuel' a w = (w', Ok r).
Proof.
  intros Hle Hrun. unfold buildSpanTree in *.
  apply bind_ok_inv in Hrun as (w1 & elems & H1 & Hrun). rewrite bind_run, H1.
  destruct (decide (length elems = 0%nat)); [exact Hrun |].
  apply bind_ok_inv in Hrun as (w2 & m & H2 & Hrun). rewrite bind_run, H2.
  apply bind_ok_inv in Hrun as (w3 & root & H3 & Hrun). rewrite bind_run, H3.
  destruct root as [r0 |]; [| exact Hrun].
  apply bind_ok_inv in Hrun as (w4 & u & H4 & Hrun).
  by rewrite bind_run, (sortChildren_fuel_mono _ _ _ _ _ _ Hle H4).
Qed.

Lemma renderSpanTree_fuel_mono fuel fuel' root totalDuration traceStartTime w w' out :
  (fuel <= fuel')%nat ->
  renderSpanTree fuel root totalDuration traceStartTime w = (w', Ok out) ->
  renderSpanTree fuel' root totalDuration traceStartTime w = (w', Ok out).
Proof.
  intros Hle Hrun. unfold renderSpanTree in *.
  apply bind_ok_inv in Hrun as (w1 & pad & H1 & Hrun). rewrite bind_run, H1.
  apply bind_ok_inv in Hrun as (w2 & gap & H2 & Hrun). rewrite bind_run, H2.
  apply bind_ok_inv in Hrun as (w3 & lines & H3 & Hrun).
  by rewrite bind_run, (renderNode_fuel_mono _ _ _ _ _ _ _ _ _ _ _ _ Hle H3).
Qed.

Lemma renderTrace_fuel_mono fuel fuel' traceId a w w' u :
  (fuel <= fuel')%nat ->
  renderTrace fuel traceId a w = (w', Ok u) -> renderTrace fuel' traceId a w = (w', Ok u).
Proof.
  intros Hle Hrun. unfold renderTrace in *.
  apply bind_ok_inv in Hrun as (w1 & tree & H1 & Hrun).
  rewrite bind_run, (buildSpanTree_fuel_mono _ _ _ _ _ _ Hle H1).
  destruct tree as [tree |]; [| exact Hrun].
  apply bind_ok_inv in Hrun as (w2 & t & H2 & Hrun). rewrite bind_run, H2.
  apply bind_ok_inv in Hrun as (w3 & u3 & H3 & Hrun). rewrite bind_run, H3.
  apply bind_ok_inv in Hrun as (w4 & es & H4 & Hrun). rewrite bind_run, H4.
  apply bind_ok_inv in Hrun as (w5 & u5 & H5 & Hrun). rewrite bind_run, H5.
  apply bind_ok_inv in Hrun as (w6 & out & H6 & Hrun).
  by rewrite bind_run, (renderSpanTree_fuel_mono _ _ _ _ _ _ _ _ Hle H6).
Qed.

(** ** The first loop: one node per span, registered under its id *)

Lemma createNodes_run elems spans w m :
  Forall2 (fun l s => heap w !! l ≫= fieldsOf = Some s) elems spans ->
  forOf createNode m elems w =
    ({| heap := heap w ++ ((fun s => ONode s []) <$> spans); console := console w |},
     Ok (regFrom (length (heap w)) spans m)).
Proof.
  revert spans w m.
  induction elems as [| l elems IH]; intros spans w m H;
    inversion H as [| ? s ? rest Hl Hrest]; subst.
  - cbn. rewrite app_nil_r. by destruct w.
  - cbn [forOf]. rewrite bind_run. unfold createNode at 1.
    rewrite bind_run, (readSpan_run _ _ _ Hl). rewrite bind_run. cbn [alloc].
    cbn -[forOf]. rewrite (IH rest).
    + cbn. rewrite length_app, <- app_assoc. cbn. by rewrite Nat.add_1_r.
    + cbn. eapply Forall2_impl; [exact Hrest |].
      intros l' s' Hl'. cbn in Hl'.
      destruct (heap w !! l') as [o |] eqn:E; [| discriminate].
      by rewrite (lookup_app_l_Some _ _ _ _ E).
Qed.

Lemma indexOf_Some k spans i :
  indexOf k spans = Some i -> exists s, spans !! i = Some s /\ spanId s = k.
Proof.
  revert i. induction spans as [| s rest IH]; intros i; cbn; [discriminate |].
  case_decide.
  - intros [= <-]. eauto.
  - destruct (indexOf k rest) as [i' |]; cbn; [| discriminate].
    intros [= <-]. apply IH. reflexivity.
Qed.

Lemma indexOf_None k spans :
  indexOf k spans = None <-> k ∉ spanId <$> spans.
Proof.
  induction spans as [| s rest IH]; cbn.
  - split; [intros _; apply not_elem_of_nil | done].
  - rewrite not_elem_of_cons. case_decide.
    + split; [discriminate | intros [? _]; congruence].
    + destruct (indexOf k rest); cbn.
      * split; [discriminate |]. intros [_ H']. apply IH in H'. discriminate.
      * split; [| done]. intros _. split; [congruence | by apply IH].
Qed.

Lemma indexOf_NoDup spans i s :
  NoDup (spanId <$> spans) -> spans !! i = Some s ->
  indexOf (spanId s) spans = Some i.
Proof.
  revert i. induction spans as [| s0 rest IH]; intros i Hnd Hi; [discriminate |].
  cbn in Hnd. apply NoDup_cons in Hnd as [Hnot Hnd].
  destruct i as [| i]; cbn in *.
  - injection Hi as ->. by rewrite decide_True.
  - rewrite decide_False.
    + by rewrite (IH i Hnd Hi).
    + intros Heq. apply Hnot. rewrite Heq.
      apply list_elem_of_fmap. exists s. split; [done |].
      eapply list_elem_of_lookup_2, Hi.
Qed.

Lemma regFrom_lookup next spans m k :
  NoDup (spanId <$> spans) ->
  regFrom next spans m !! k =
    match indexOf k spans with
    | Some i => Some (next + i)%nat
    | None => m !! k
    end.
Proof.
  revert next m. induction spans as [| s rest IH]; intros next m Hnd; [reflexivity |].
  cbn in Hnd. apply NoDup_cons in Hnd as [Hnot Hnd].
  cbn. rewrite IH by exact Hnd. case_decide as Hk.
  - subst k. apply indexOf_None in Hnot. rewrite Hnot.
    rewrite lookup_insert_eq. f_equal. lia.
  - destruct (indexOf k rest) as [i |]; cbn.
    + f_equal. lia.
    + by rewrite lookup_insert_ne.
Qed.

(** ** The store while the tree is built

    Throughout this section the spans have distinct ids and the initial
    store [h0] holds them. *)

Section Tree.
Variable spans : list SpanData.
Variable h0 : list obj.
Variable elems : list loc.
Hypothesis Hrecs : Forall2 (fun l s => h0 !! l ≫= fieldsOf = Some s) elems spans.
Hypothesis Hnd : NoDup (spanId <$> spans).

Local Abbreviation loc_of := (loc_of h0).
Local Abbreviation treeWorld := (treeWorld spans h0).
Local Abbreviation kidsUpTo := (kidsUpTo spans).
Local Abbreviation rootAt := (rootAt spans).
Local Abbreviation rootUpTo := (rootUpTo spans).
Local Abbreviation linked := (linked spans h0).
Local Abbreviation kidsOf := (kidsOf spans).
Local Abbreviation sortedKids := (sortedKids spans h0).
Local Abbreviation treeInv := (treeInv spans h0).
Local Abbreviation chainTo := (chainTo spans).
Local Abbreviation rendersBelow := (rendersBelow spans).

Lemma treeWorld_ext ch ch' tl out :
  (forall k, (k < length spans)%nat -> ch k = ch' k) ->
  treeWorld ch tl out = treeWorld ch' tl out.
Proof.
  intros H. unfold treeWorld. f_equal. f_equal. f_equal.
  apply list_eq. intros i. rewrite !list_lookup_imap.
  destruct (spans !! i) as [s |] eqn:E; [| reflexivity].
  cbn. rewrite H; [reflexivity |]. eapply lookup_lt_Some, E.
Qed.

Lemma treeWorld_old ch tl out l o :
  h0 !! l = Some o -> heap (treeWorld ch tl out) !! l = Some o.
Proof. intros H. cbn. by apply lookup_app_l_Some. Qed.

Lemma treeWorld_span ch tl out i l s :
  elems !! i = Some l -> spans !! i = Some s ->
  heap (treeWorld ch tl out) !! l ≫= fieldsOf = Some s.
Proof.
  intros Hl Hs.
  pose proof (Forall2_lookup_lr _ _ _ _ _ _ Hrecs Hl Hs) as H.
  cbn beta in H.
  destruct (h0 !! l) as [o |] eqn:E; [| discriminate].
  by rewrite (treeWorld_old _ _ _ _ _ E).
Qed.

Lemma treeWorld_node ch tl out k s :
  spans !! k = Some s ->
  heap (treeWorld ch tl out) !! loc_of k = Some (ONode s (ch k)).
Proof.
  intros Hs. cbn. unfold loc_of.
  rewrite lookup_app_r by lia.
  replace (length h0 + k - length h0)%nat with k by lia.
  rewrite lookup_app_l.
  - by rewrite list_lookup_imap, Hs.
  - rewrite length_imap. eapply lookup_lt_Some, Hs.
Qed.

Lemma treeWorld_write ch tl out k s new :
  spans !! k = Some s ->
  writeObj (loc_of k) (ONode s new) (treeWorld ch tl out) =
    (treeWorld (<[k := new]> ch) tl out, Ok tt).
Proof.
  intros Hs. unfold writeObj, treeWorld, loc_of. cbn. f_equal. f_equal.
  rewrite insert_app_r_alt by lia.
  replace (length h0 + k - length h0)%nat with k by lia.
  f_equal.
  rewrite insert_app_l by (rewrite length_imap; eapply lookup_lt_Some, Hs).
  f_equal. apply list_eq. intros i.
  destruct (decide (i = k)) as [-> | Hne].
  - rewrite list_lookup_insert_eq by (rewrite length_imap; eapply lookup_lt_Some, Hs).
    rewrite list_lookup_imap, Hs. cbn. by rewrite fn_lookup_insert.
  - rewrite list_lookup_insert_ne by congruence.
    rewrite !list_lookup_imap. destruct (spans !! i); [| reflexivity].
    cbn. by rewrite fn_lookup_insert_ne by congruence.
Qed.

(** The map built by the first loop. *)
Lemma spanMap_lookup k :
  regFrom (length h0) spans ∅ !! k = loc_of <$> indexOf k spans.
Proof.
  rewrite regFrom_lookup by exact Hnd.
  destruct (indexOf k spans); [reflexivity | apply lookup_empty].
Qed.

Lemma spanMap_node i s :
  spans !! i = Some s -> regFrom (length h0) spans ∅ !! spanId s = Some (loc_of i).
Proof.
  intros Hs. by rewrite spanMap_lookup, (indexOf_NoDup _ _ _ Hnd Hs).
Qed.

Lemma kidsUpTo_S t k :
  kidsUpTo (S t) k =
  kidsUpTo t k ++ (if decide (parentAt spans t = Some k) then [t] else []).
Proof.
  unfold kidsUpTo. rewrite seq_S, filter_app. reflexivity.
Qed.

Lemma rootUpTo_S t :
  rootUpTo (S t) = if rootAt t then Some t else rootUpTo t.
Proof.
  unfold rootUpTo. rewrite seq_S, filter_app. cbn.
  destruct (rootAt t); cbn.
  - rewrite decide_True by exact I. by rewrite last_snoc.
  - rewrite decide_False by (intros []). by rewrite app_nil_r.
Qed.

(** One turn of the linking loop. *)
Lemma linkSpan_run t l tl out :
  elems !! t = Some l ->
  linkSpan (regFrom (length h0) spans ∅) (loc_of <$> rootUpTo t) l
      (treeWorld (linked t) tl out) =
    (treeWorld (linked (S t)) tl out, Ok (loc_of <$> rootUpTo (S t))).
Proof.
  intros Hl.
  destruct (Forall2_lookup_l _ _ _ _ _ Hrecs Hl) as (s & Hs & _).
  unfold linkSpan.
  rewrite bind_run, (readSpan_run _ _ _ (treeWorld_span _ _ _ _ _ _ Hl Hs)).
  rewrite bind_run, (Map_get_run _ _ _ _ (spanMap_node _ _ Hs)).
  rewrite rootUpTo_S. unfold rootAt at 1. rewrite Hs.
  assert (parentAt spans t = parentIdx spans s) as Hpa
    by (unfold parentAt; by rewrite Hs).
  unfold Map_has. rewrite spanMap_lookup.
  unfold parentIdx in Hpa.
  destruct (truthy (parentKey s)) eqn:Ht; cbn [andb negb].
  - destruct (indexOf (parentKey s) spans) as [p |] eqn:Hp; cbn [fmap option_fmap option_map].
    + rewrite bool_decide_eq_true_2 by eauto.
      destruct (indexOf_Some _ _ _ Hp) as (sp & Hsp & _).
      rewrite bind_run, (Map_get_run _ _ (loc_of p)) by (by rewrite spanMap_lookup, Hp).
      rewrite bind_run. unfold pushChild.
      rewrite bind_run, (readNode_run _ _ _ _ (treeWorld_node _ _ _ _ _ Hsp)).
      rewrite (treeWorld_write _ _ _ _ _ _ Hsp). rewrite ret_run.
      f_equal. apply treeWorld_ext. intros k _. unfold linked.
      rewrite kidsUpTo_S, Hpa.
      destruct (decide (k = p)) as [-> | Hne].
      * rewrite fn_lookup_insert, decide_True by reflexivity.
        by rewrite fmap_app.
      * rewrite fn_lookup_insert_ne by congruence.
        rewrite decide_False by congruence. by rewrite app_nil_r.
    + rewrite bool_decide_eq_false_2 by (intros [? ?]; discriminate).
      rewrite ret_run. f_equal. apply treeWorld_ext. intros k _. unfold linked.
      rewrite kidsUpTo_S, Hpa. by rewrite app_nil_r.
  - rewrite ret_run. f_equal. apply treeWorld_ext. intros k _. unfold linked.
    rewrite kidsUpTo_S, Hpa. by rewrite app_nil_r.
Qed.

Lemma linked_0 tl out :
  treeWorld (linked 0) tl out =
  {| heap := h0 ++ ((fun s => ONode s []) <$> spans) ++ tl; console := out |}.
Proof.
  unfold treeWorld. f_equal. f_equal. f_equal.
  apply list_eq. intros i. rewrite list_lookup_imap, list_lookup_fmap.
  by destruct (spans !! i).
Qed.

(** The linking loop, from the store the first loop leaves. *)
Lemma link_loop_run out :
  forOf (linkSpan (regFrom (length h0) spans ∅)) None elems
    {| heap := h0 ++ ((fun s => ONode s []) <$> spans); console := out |} =
  (treeWorld (linked (length spans)) [] out, Ok (loc_of <$> rootUpTo (length spans))).
Proof.
  pose proof (linked_0 [] out) as H0. rewrite app_nil_r in H0. rewrite <- H0.
  rewrite <- (Forall2_length _ _ _ Hrecs).
  change (@None loc) with (loc_of <$> rootUpTo 0%nat).
  apply (forOf_run (linkSpan (regFrom (length h0) spans ∅))
           (fun t => treeWorld (linked t) [] out) (fun t => loc_of <$> rootUpTo t)).
  intros i x Hx. by apply linkSpan_run.
Qed.

(** The last parentless span, if there is one. *)
Lemma rootUpTo_Some t r :
  rootUpTo t = Some r <->
  (r < t)%nat /\ rootAt r = true /\ forall j, (r < j < t)%nat -> rootAt j = false.
Proof.
  revert r. induction t as [| t IH]; intros r.
  - split; [discriminate | lia].
  - rewrite rootUpTo_S. destruct (rootAt t) eqn:Ht.
    + split.
      * intros [= <-]. split; [lia |]. split; [exact Ht | lia].
      * intros (Hlt & Hr & Hlast). f_equal.
        destruct (decide (r = t)) as [-> | Hne]; [reflexivity |].
        rewrite Hlast in Ht by lia. discriminate.
    + rewrite IH. split.
      * intros (Hlt & Hr & Hlast). split; [lia |]. split; [exact Hr |].
        intros j Hj. destruct (decide (j = t)) as [-> | Hne]; [exact Ht |].
        apply Hlast. lia.
      * intros (Hlt & Hr & Hlast).
        assert (r <> t) by (intros ->; congruence).
        split; [lia |]. split; [exact Hr |]. intros j Hj. apply Hlast. lia.
Qed.

Lemma rootUpTo_None t :
  rootUpTo t = None <-> forall j, (j < t)%nat -> rootAt j = false.
Proof.
  induction t as [| t IH].
  - split; [lia | reflexivity].
  - rewrite rootUpTo_S. destruct (rootAt t) eqn:Ht.
    + split; [discriminate |]. intros H. rewrite H in Ht by lia. discriminate.
    + rewrite IH. split.
      * intros H j Hj. destruct (decide (j = t)) as [-> | Hne]; [exact Ht |].
        apply H. lia.
      * intros H j Hj. apply H. lia.
Qed.

Lemma rootAt_true j :
  rootAt j = true <-> exists s, spans !! j = Some s /\ parentless s.
Proof.
  unfold rootAt, parentless. destruct (spans !! j) as [s |].
  - rewrite negb_true_iff. split; [eauto |]. by intros (s' & [= <-] & H).
  - split; [discriminate |]. by intros (s' & [=] & _).
Qed.

Lemma rootAt_parentAt j : rootAt j = true -> parentAt spans j = None.
Proof.
  intros (s & Hs & Hp)%rootAt_true. unfold parentAt, parentIdx. rewrite Hs. cbn.
  unfold parentless in Hp. by rewrite Hp.
Qed.

(** *** The walks below a root that is not its own ancestor *)

Lemma parentAt_lt c i : parentAt spans c = Some i -> (c < length spans)%nat.
Proof.
  unfold parentAt. destruct (spans !! c) eqn:E; [| discriminate].
  intros _. eapply lookup_lt_Some, E.
Qed.

Lemma elem_of_kidsOf c k : c ∈ kidsOf k <-> parentAt spans c = Some k.
Proof.
  unfold kidsOf, kidsUpTo. rewrite list_elem_of_filter, elem_of_seq.
  split; [tauto |]. intros H. split; [exact H |].
  apply parentAt_lt in H. lia.
Qed.

Lemma chain_bound r P :
  (r < length spans)%nat -> chainTo r P -> Forall (fun j => j < length spans)%nat P.
Proof.
  intros Hr. induction 1 as [| c i A Hc _ IH].
  - by repeat constructor.
  - constructor; [eapply parentAt_lt, Hc | exact IH].
Qed.

Lemma chain_suffix r pre x suf :
  chainTo r (pre ++ x :: suf) -> chainTo r (x :: suf).
Proof.
  induction pre as [| y pre IH]; [auto |].
  cbn. intros H. apply IH. inversion H as [| ? ? ? _ H' Heq]; subst.
  - by destruct pre.
  - exact H'.
Qed.

Lemma chain_det r x L1 L2 :
  chainTo r (x :: L1) -> chainTo r (x :: L2) -> (length L1 < length L2)%nat ->
  exists y B, chainTo r (r :: y :: B).
Proof.
  revert x L2. induction L1 as [| i A IH]; intros x L2 H1 H2 Hlen.
  - inversion H1; subst. destruct L2 as [| y B]; [cbn in Hlen; lia |]. eauto.
  - inversion H1 as [| ? ? ? Hp H1']; subst.
    inversion H2 as [| ? i' A' Hp' H2']; subst; [cbn in Hlen; lia |].
    assert (i' = i) as -> by congruence.
    apply (IH i A'); [exact H1' | exact H2' | cbn in Hlen; lia].
Qed.

Lemma chain_last_step i k B :
  chainTo i (k :: B) ->
  k = i \/ exists c B', parentAt spans c = Some i /\ chainTo c (k :: B').
Proof.
  revert k. induction B as [| x B IH]; intros k Hch.
  - inversion Hch. by left.
  - inversion Hch as [| ? ? ? Hp Hch']; subst. right.
    destruct (IH x Hch') as [-> | (c & B' & Hc & Hcb)].
    + exists k, []. split; [exact Hp | constructor].
    + exists c, (x :: B'). split; [exact Hc | by constructor].
Qed.

Lemma loc_of_inj a b : loc_of a = loc_of b -> a = b.
Proof. unfold loc_of. lia. Qed.

(** What the sort writes into a node is in order of start. *)
Lemma sorted_written ch tl out kids :
  Forall (fun p => heap (treeWorld ch tl out) !! p.1 ≫= fieldsOf = Some p.2) kids ->
  sortedKids (js_sort byStartTime kids).*1.
Proof.
  intros Hkids i j a b sa sb Hij Hi Hj Ha Hb.
  rewrite list_lookup_fmap in Hi, Hj.
  destruct (js_sort byStartTime kids !! i) as [[la sa'] |] eqn:Ei; [| discriminate].
  destruct (js_sort byStartTime kids !! j) as [[lb sb'] |] eqn:Ej; [| discriminate].
  cbn in Hi, Hj. injection Hi as ->. injection Hj as ->.
  assert (forall c sc sc', spans !! c = Some sc ->
            (loc_of c, sc') ∈ js_sort byStartTime kids -> sc' = sc) as Hfields.
  { intros c sc sc' Hc Hin. rewrite js_sort_perm in Hin.
    rewrite Forall_forall in Hkids. specialize (Hkids _ Hin). cbn [fst snd] in Hkids.
    rewrite (treeWorld_node _ _ _ _ _ Hc) in Hkids. cbn in Hkids. congruence. }
  rewrite <- (Hfields a sa sa' Ha (list_elem_of_lookup_2 _ _ _ Ei)).
  rewrite <- (Hfields b sb sb' Hb (list_elem_of_lookup_2 _ _ _ Ej)).
  exact (StronglySorted_lookup startsBefore _ i j _ _ (js_sort_sorted kids) Hij Ei Ej).
Qed.

Lemma treeInv_mono (P Q : nat -> Prop) tl out w :
  (forall k, Q k -> P k) -> treeInv P tl out w -> treeInv Q tl out w.
Proof.
  intros HPQ (ch & -> & Hperm & Hsorted). exists ch.
  split; [reflexivity |]. split; [exact Hperm |]. intros k Hk. apply Hsorted, HPQ, Hk.
Qed.

Section Walk.
Variable r : nat.
Hypothesis Hr : (r < length spans)%nat.
Hypothesis Hacyc : forall y B, ~ chainTo r (r :: y :: B).

Lemma chain_NoDup P : chainTo r P -> NoDup P.
Proof.
  induction 1 as [| c i A Hc Hch IH].
  - apply NoDup_singleton.
  - apply NoDup_cons. split; [| exact IH].
    intros Hin. apply list_elem_of_split in Hin as (pre & suf & Heq).
    pose proof Hch as Hch'. rewrite Heq in Hch'.
    pose proof (chain_suffix _ _ _ _ Hch') as Hsuf.
    destruct (chain_det r c suf (i :: A)) as (y & B & Hbad).
    + exact Hsuf.
    + by apply chain_step.
    + rewrite Heq, length_app. cbn. lia.
    + exact (Hacyc _ _ Hbad).
Qed.

(** A chain visits distinct spans: it is no longer than the input. *)
Lemma chain_length P : chainTo r P -> (length P <= length spans)%nat.
Proof.
  intros Hch.
  assert (length P <= length (seq 0 (length spans)))%nat as H;
    [| by rewrite length_seq in H].
  apply submseteq_length, NoDup_submseteq; [by apply chain_NoDup |].
  intros x Hx. apply elem_of_seq.
  pose proof (chain_bound r P Hr Hch) as Hb.
  rewrite Forall_forall in Hb. specialize (Hb x Hx). lia.
Qed.

Lemma chain_head_lt i A : chainTo r (i :: A) -> (i < length spans)%nat.
Proof.
  intros Hch. pose proof (chain_bound r _ Hr Hch) as Hb.
  by inversion Hb.
Qed.

Lemma treeInv_children ch tl out i x :
  (forall k, ch k ≡ₚ loc_of <$> kidsOf k) -> x ∈ ch i ->
  exists c s,
    x = loc_of c /\ parentAt spans c = Some i /\ spans !! c = Some s /\
    heap (treeWorld ch tl out) !! x = Some (ONode s (ch c)).
Proof.
  intros Hperm Hx. rewrite (Hperm i) in Hx.
  apply list_elem_of_fmap in Hx as (c & -> & Hc).
  apply elem_of_kidsOf in Hc.
  pose proof Hc as Hc'. unfold parentAt in Hc'.
  destruct (spans !! c) as [s |] eqn:Hs; [| discriminate].
  exists c, s. split; [reflexivity |]. split; [exact Hc |].
  split; [exact Hs |]. by apply treeWorld_node.
Qed.

Lemma treeInv_readable ch tl out i :
  (forall k, ch k ≡ₚ loc_of <$> kidsOf k) ->
  Forall (fun l => is_Some (heap (treeWorld ch tl out) !! l ≫= fieldsOf)) (ch i).
Proof.
  intros Hperm. apply Forall_forall. intros x Hx.
  destruct (treeInv_children ch tl out i x Hperm Hx) as (c & s & _ & _ & _ & ->).
  by eexists.
Qed.

(** Below [r] the sort returns, leaving in order of start the children
    of every node it went through: a call at depth [length A] needs no
    more stack than there are spans left. *)
Lemma sortChildren_sorts tl out fuel : forall i A (P : nat -> Prop),
  chainTo r (i :: A) ->
  (length spans - length A <= fuel)%nat ->
  triple (treeInv P tl out) (sortChildren fuel (loc_of i))
    (fun _ => treeInv (fun k => P k \/ exists B, chainTo i (k :: B)) tl out)
    (fun _ => False).
Proof.
  induction fuel as [| fuel IH]; intros i A P Hch Hfuel.
  { pose proof (chain_length _ Hch) as Hlen. cbn in Hlen. lia. }
  intros w (ch & -> & Hperm & Hsorted).
  pose proof (chain_head_lt _ _ Hch) as Hi.
  destruct (lookup_lt_is_Some_2 spans i Hi) as [s Hs].
  cbn [sortChildren].
  rewrite bind_run, (readNode_run _ _ _ _ (treeWorld_node ch tl out i s Hs)).
  destruct (readAll_returns _ _ (treeInv_readable ch tl out i Hperm))
    as (kids & Hrun & Hfst & Hkids).
  rewrite bind_run, Hrun.
  rewrite bind_run, (treeWorld_write _ _ _ _ _ _ Hs).
  set (L := (js_sort byStartTime kids).*1).
  assert (L ≡ₚ ch i) as HL by (subst L; by rewrite js_sort_fst_perm, Hfst).
  assert (sortedKids L) as HLs by exact (sorted_written ch tl out kids Hkids).
  set (Inv := fun (idx : nat) =>
         treeInv (fun k => P k \/ k = i \/
                    exists j c B, (j < idx)%nat /\ L !! j = Some (loc_of c) /\
                                  chainTo c (k :: B)) tl out).
  assert (forall idx x, L !! idx = Some x ->
            triple (Inv idx) (sortChildren fuel x) (fun _ => Inv (S idx)) (fun _ => False))
    as Hstep.
  { intros idx x Hx.
    assert (x ∈ ch i) as Hin by (rewrite <- HL; eapply list_elem_of_lookup_2, Hx).
    destruct (treeInv_children ch tl out i x Hperm Hin) as (c & _ & -> & Hc & _).
    eapply triple_conseq;
      [apply (IH c (i :: A)); [by apply chain_step | cbn; lia]
      | intros w Hw; exact Hw | | auto].
    intros u w. apply treeInv_mono.
    intros k [HP | [-> | (j & c' & B & Hj & Hc' & HB)]]; [left; by left | left; right; by left |].
    destruct (decide (j = idx)) as [-> | Hne].
    - rewrite Hx in Hc'. injection Hc' as ->%loc_of_inj. right. by exists B.
    - left. right. right. exists j, c', B. split; [lia | by split]. }
  pose proof (triple_forEach_at Inv (fun _ => False) (sortChildren fuel) L Hstep
                (treeWorld (<[i := L]> ch) tl out)) as Hres.
  destruct (forEach (sortChildren fuel) L (treeWorld (<[i := L]> ch) tl out))
    as [w' [u | e]].
  - eapply treeInv_mono; [| apply Hres].
    + intros k [HP | [B HB]]; [by left |].
      destruct (chain_last_step i k B HB) as [-> | (c & B' & Hc & HcB)];
        [right; by left |].
      right. right.
      assert (loc_of c ∈ L) as Hin.
      { rewrite HL, (Hperm i). apply list_elem_of_fmap. exists c.
        split; [reflexivity | by apply elem_of_kidsOf]. }
      apply list_elem_of_lookup_1 in Hin as [j Hj].
      exists j, c, B'. split; [eapply lookup_lt_Some, Hj | by split].
    + exists (<[i := L]> ch). split; [reflexivity |]. split.
      * intros k. destruct (decide (k = i)) as [-> | Hne].
        -- by rewrite fn_lookup_insert, HL.
        -- by rewrite fn_lookup_insert_ne by congruence.
      * intros k Hk. destruct (decide (k = i)) as [-> | Hne].
        -- by rewrite fn_lookup_insert.
        -- rewrite fn_lookup_insert_ne by congruence.
           destruct Hk as [HP | [-> | (j & _ & _ & Hj & _)]];
             [by apply Hsorted | done | lia].
  - apply Hres.
    exists (<[i := L]> ch). split; [reflexivity |]. split.
    + intros k. destruct (decide (k = i)) as [-> | Hne].
      * by rewrite fn_lookup_insert, HL.
      * by rewrite fn_lookup_insert_ne by congruence.
    + intros k Hk. destruct (decide (k = i)) as [-> | Hne].
      * by rewrite fn_lookup_insert.
      * rewrite fn_lookup_insert_ne by congruence.
        destruct Hk as [HP | [-> | (j & _ & _ & Hj & _)]];
          [by apply Hsorted | done | lia].
Qed.

(** Below [r] the renderer returns, having pushed one line per node
    it went through and written nothing. *)
Lemma renderNode_returns ch tl out totalDuration traceStartTime fuel :
  (forall k, ch k ≡ₚ loc_of <$> kidsOf k) ->
  forall i A lines prefix isLast isRoot,
  chainTo r (i :: A) ->
  (length spans - length A <= fuel)%nat ->
  exists new,
    renderNode fuel totalDuration traceStartTime lines (loc_of i) prefix isLast isRoot
      (treeWorld ch tl out) = (treeWorld ch tl out, Ok (lines ++ new)) /\
    Forall (rendersBelow i totalDuration traceStartTime) new.
Proof.
  intros Hperm.
  induction fuel as [| fuel IH]; intros i A lines prefix isLast isRoot Hch Hfuel.
  { pose proof (chain_length _ Hch) as Hlen. cbn in Hlen. lia. }
  pose proof (chain_head_lt _ _ Hch) as Hi.
  destruct (lookup_lt_is_Some_2 spans i Hi) as [s Hs].
  cbn [renderNode].
  rewrite bind_run, (readNode_run _ _ _ _ (treeWorld_node ch tl out i s Hs)).
  destruct (renderLine_returns s totalDuration traceStartTime prefix isLast isRoot)
    as [line Hline].
  rewrite bind_run. unfold liftR at 1. rewrite Hline.
  set (W := treeWorld ch tl out).
  set (body := fun (lines : list jsstring) (ic : nat * loc) => renderNode fuel _ _ lines _ _ _ _).
  set (Inv := fun (_ : nat) (ls : list jsstring) (w : world) =>
                w = W /\ exists new, ls = lines ++ new /\
                  Forall (rendersBelow i totalDuration traceStartTime) new).
  assert (forall idx ls x, imap pair (ch i) !! idx = Some x ->
            triple (Inv idx ls) (body ls x) (Inv (S idx)) (fun _ => False)) as Hstep.
  { intros idx ls [idx' x] Hx w (-> & new & -> & Hnew).
    rewrite list_lookup_imap in Hx.
    destruct (ch i !! idx) as [x' |] eqn:Hx'; [| discriminate].
    injection Hx as <- <-.
    apply list_elem_of_lookup_2 in Hx'.
    destruct (treeInv_children ch tl out i x' Hperm Hx') as (c & _ & -> & Hc & _).
    unfold body. cbn [fst snd].
    edestruct (IH c (i :: A)) as (new' & -> & Hnew');
      [by apply chain_step | cbn; lia |].
    split; [reflexivity |]. exists (new ++ new'). split; [by rewrite app_assoc |].
    apply Forall_app. split; [exact Hnew |].
    eapply Forall_impl; [exact Hnew' |].
    intros l (j & sj & p & il & ir & Hj & Hsj & Hl).
    exists j, sj, p, il, ir. split; [right | by split].
    destruct Hj as [-> | Hj]; [by eexists | exact Hj]. }
  destruct (triple_returns _ _ _ W
              (triple_forOf Inv _ body _ (lines ++ [line]) Hstep))
    as (w' & ls & Hrun & -> & new & -> & Hnew).
  { split; [reflexivity |]. exists [line]. split; [reflexivity |].
    constructor; [| constructor].
    exists i, s, prefix, isLast, isRoot. split; [by left |]. by split. }
  fold body. rewrite Hrun. exists new. by split.
Qed.
End Walk.

Lemma parentless_acyclic r y B :
  rootAt r = true -> ~ chainTo r (r :: y :: B).
Proof.
  intros Hroot Hch. inversion Hch as [| ? ? ? Hp _]; subst.
  rewrite (rootAt_parentAt _ Hroot) in Hp. discriminate.
Qed.

Lemma chain_ancestor r x B :
  chainTo r (x :: B) -> ancestor spans (length B) x = Some r.
Proof.
  revert x. induction B as [| i B IH]; intros x Hch.
  - by inversion Hch.
  - inversion Hch as [| ? ? ? Hp Hch']; subst.
    cbn. rewrite Hp. cbn. by apply IH.
Qed.

Lemma acyclic_chain r y B : acyclic spans -> ~ chainTo r (r :: y :: B).
Proof.
  intros Hac Hch. apply chain_ancestor in Hch.
  apply (Hac r (length (y :: B))); [cbn; lia | exact Hch].
Qed.

(** *** Objects allocated after the nodes *)

Lemma treeWorld_alloc ch tl out o :
  alloc o (treeWorld ch tl out) =
    (treeWorld ch (tl ++ [o]) out, Ok (length h0 + length spans + length tl)%nat).
Proof.
  unfold alloc, treeWorld. cbn. f_equal.
  - f_equal. by rewrite <- !app_assoc.
  - f_equal. rewrite !length_app, length_imap. lia.
Qed.

Lemma treeWorld_tail ch tl out k :
  heap (treeWorld ch tl out) !! (length h0 + length spans + k)%nat = tl !! k.
Proof.
  cbn. rewrite lookup_app_r by lia. rewrite lookup_app_r by (rewrite length_imap; lia).
  f_equal. rewrite length_imap. lia.
Qed.

Lemma treeWorld_write_tail ch tl out k o :
  writeObj (length h0 + length spans + k)%nat o (treeWorld ch tl out) =
    (treeWorld ch (<[k := o]> tl) out, Ok tt).
Proof.
  unfold writeObj, treeWorld. cbn. f_equal. f_equal.
  rewrite insert_app_r_alt by lia. f_equal.
  rewrite insert_app_r_alt by (rewrite length_imap; lia). f_equal.
  f_equal. rewrite length_imap. lia.
Qed.

Lemma treeWorld_recs ch tl out :
  Forall2 (fun l s => heap (treeWorld ch tl out) !! l ≫= fieldsOf = Some s) elems spans.
Proof.
  eapply Forall2_impl; [exact Hrecs |]. intros l s H. cbn beta in H.
  destruct (h0 !! l) as [o |] eqn:E; [| discriminate].
  by rewrite (treeWorld_old _ _ _ _ _ E).
Qed.

Lemma treeWorld_log ch tl out line :
  console_log line (treeWorld ch tl out) = (treeWorld ch tl (out ++ [line]), Ok tt).
Proof. reflexivity. Qed.

(** *** The builder *)

Section Build.
Variable a : loc.
Hypothesis Harr : h0 !! a = Some (OArray elems).

(** With a parentless span: the root is the last one, the nodes
    below it get sorted, and [fuel] need not exceed the number of
    spans. *)
Lemma buildSpanTree_root_run out fuel r :
  rootUpTo (length spans) = Some r ->
  (length spans <= fuel)%nat ->
  exists ch,
    buildSpanTree fuel a {| heap := h0; console := out |} =
      (treeWorld ch [] out, Ok (Some (loc_of r))) /\
    (forall k, ch k ≡ₚ loc_of <$> kidsOf k) /\
    (forall k B, chainTo r (k :: B) -> sortedKids (ch k)).
Proof.
  intros Hroot Hfuel.
  apply rootUpTo_Some in Hroot as Hr. destruct Hr as (Hr & Hrt & _).
  unfold buildSpanTree.
  rewrite bind_run, (readArray_run {| heap := h0; console := out |} a elems Harr).
  rewrite decide_False by (rewrite (Forall2_length _ _ _ Hrecs); lia).
  rewrite bind_run, (createNodes_run elems spans) by exact Hrecs.
  cbn [heap console].
  rewrite bind_run, link_loop_run, Hroot. cbn [fmap option_fmap option_map].
  destruct (triple_returns _ _ _ (treeWorld (linked (length spans)) [] out)
              (sortChildren_sorts r Hr (fun y B => parentless_acyclic r y B Hrt)
                 [] out fuel r [] (fun _ => False) (chain_root r) ltac:(cbn; lia)))
    as (w' & u & Hrun & ch & -> & Hperm & Hsorted).
  { exists (linked (length spans)). split; [reflexivity |]. split; [| done].
    intros k. reflexivity. }
  rewrite bind_run, Hrun. exists ch. split; [reflexivity |]. split; [exact Hperm |].
  intros k B HB. apply Hsorted. right. by exists B.
Qed.

(** Without a parentless span: the root is the earliest of the spans
    that start first, and nothing gets sorted but a copy of the
    array. *)
Lemma buildSpanTree_fallback_run out :
  rootUpTo (length spans) = None ->
  spans <> [] ->
  exists i s sorted,
    spans !! i = Some s /\
    (forall j s', spans !! j = Some s' ->
       (startTime s <= startTime s')%Q /\
       ((j < i)%nat -> (startTime s < startTime s')%Q)) /\
    forall fuel,
      buildSpanTree fuel a {| heap := h0; console := out |} =
        (treeWorld (linked (length spans)) [OArray sorted] out, Ok (Some (loc_of i))).
Proof.
  intros Hroot Hne.
  assert (length spans <> 0)%nat as Hlen by (by destruct spans).
  destruct (js_sort_head (zip elems spans)) as (i & [l s] & Hx & Hhead & Hmin).
  { destruct elems, spans; try done. by inversion Hrecs. }
  rewrite lookup_zip_with in Hx.
  destruct (elems !! i) as [l' |] eqn:Hl; [| discriminate].
  destruct (spans !! i) as [s' |] eqn:Hs; [| discriminate].
  cbn in Hx. injection Hx as -> ->.
  exists i, s, (js_sort byStartTime (zip elems spans)).*1.
  split; [exact Hs |]. split.
  { intros j sj Hj.
    destruct (Forall2_lookup_r _ _ _ _ _ Hrecs Hj) as (lj & Hlj & _).
    apply (Hmin j (lj, sj)). rewrite lookup_zip_with, Hlj, Hj. reflexivity. }
  intros fuel. unfold buildSpanTree.
  rewrite bind_run, (readArray_run {| heap := h0; console := out |} a elems Harr).
  rewrite decide_False by (rewrite (Forall2_length _ _ _ Hrecs); lia).
  rewrite bind_run, (createNodes_run elems spans) by exact Hrecs.
  cbn [heap console].
  rewrite bind_run, link_loop_run, Hroot. cbn [fmap option_fmap option_map].
  rewrite decide_True by (rewrite (Forall2_length _ _ _ Hrecs); lia).
  rewrite bind_run. unfold sortedCopy.
  rewrite bind_run, treeWorld_alloc. cbn [length app].
  rewrite bind_run, (readArray_run _ _ elems) by (by rewrite treeWorld_tail).
  rewrite bind_run, (readAll_run _ _ _ (treeWorld_recs _ _ _)).
  rewrite bind_run, treeWorld_write_tail. cbn [insert list_insert].
  rewrite ret_run.
  rewrite bind_run, (readArray_run _ _ (js_sort byStartTime (zip elems spans)).*1)
    by (by rewrite treeWorld_tail).
  assert ((js_sort byStartTime (zip elems spans)).*1 !! 0%nat = Some l) as ->.
  { rewrite list_lookup_fmap, <- head_lookup, Hhead. reflexivity. }
  rewrite bind_run, (readSpan_run _ _ _ (treeWorld_span _ _ _ _ _ _ Hl Hs)).
  rewrite bind_run, (Map_get_run _ _ _ _ (spanMap_node _ _ Hs)).
  reflexivity.
Qed.

(** The renderer on a linked tree, from a root that is not its own
    ancestor. *)
Lemma renderSpanTree_run ch tl out fuel r totalDuration traceStartTime :
  (forall k, ch k ≡ₚ loc_of <$> kidsOf k) ->
  (r < length spans)%nat ->
  (forall y B, ~ chainTo r (r :: y :: B)) ->
  (length spans <= fuel)%nat ->
  exists header lines,
    renderSpanTree fuel (loc_of r) totalDuration traceStartTime (treeWorld ch tl out) =
      (treeWorld ch tl out, Ok (js_join [10%N] (header :: lines))) /\
    Forall (rendersBelow r totalDuration traceStartTime) lines.
Proof.
  intros Hperm Hr Hacyc Hfuel. unfold renderSpanTree.
  rewrite bind_run. unfold liftR at 1. rewrite js_repeat_ok by lia.
  rewrite bind_run. unfold liftR at 1.
  rewrite js_repeat_ok by (unfold timelineWidth; lia).
  rewrite bind_run.
  match goal with
  | |- context [renderNode _ _ _ ?ls _ _ _ _] =>
      destruct (renderNode_returns r Hr Hacyc ch tl out totalDuration traceStartTime
                  fuel Hperm r [] ls [] true true (chain_root r))
        as (new & Hrun & Hnew); [cbn; lia |]
  end.
  rewrite Hrun, ret_run. eexists _, new. split; [reflexivity | exact Hnew].
Qed.

Lemma renderTrace_run ch tl out fuel r traceId :
  buildSpanTree fuel a {| heap := h0; console := out |} =
    (treeWorld ch tl out, Ok (Some (loc_of r))) ->
  (forall k, ch k ≡ₚ loc_of <$> kidsOf k) ->
  (r < length spans)%nat ->
  (forall y B, ~ chainTo r (r :: y :: B)) ->
  (length spans <= fuel)%nat ->
  exists root title header lines,
    spans !! r = Some root /\
    renderTrace fuel traceId a {| heap := h0; console := out |} =
      (treeWorld ch tl (out ++ [[]; title; js_join [10%N] (header :: lines); []]),
       Ok tt) /\
    Forall (rendersBelow r (duration root) (startTime root)) lines.
Proof.
  intros Hbuild Hperm Hr Hacyc Hfuel.
  destruct (lookup_lt_is_Some_2 spans r Hr) as [root Hroot].
  unfold renderTrace. rewrite bind_run, Hbuild.
  rewrite bind_run, (readSpan_run _ _ root)
    by (by rewrite (treeWorld_node _ _ _ _ _ Hroot)).
  rewrite bind_run, treeWorld_log.
  rewrite bind_run, (readArray_run _ _ elems) by (by apply treeWorld_old).
  rewrite bind_run, treeWorld_log.
  rewrite bind_run.
  match goal with
  | |- context [renderSpanTree _ _ _ _ (treeWorld _ _ ?o)] =>
      destruct (renderSpanTree_run ch tl o fuel r
                  (duration root) (startTime root) Hperm Hr Hacyc Hfuel)
        as (header & lines & Hrun & Hlines)
  end.
  rewrite Hrun. rewrite bind_run, !treeWorld_log.
  eexists root, _, header, lines. split; [exact Hroot |]. split; [| exact Hlines].
  by rewrite <- !app_assoc.
Qed.

(** The nodes of the tree below the node of span [r]. *)
Lemma treeWorld_reachable ch tl out r l :
  (forall k, ch k ≡ₚ loc_of <$> kidsOf k) ->
  (r < length spans)%nat ->
  reachable (heap (treeWorld ch tl out)) (loc_of r) l ->
  exists j B, l = loc_of j /\ (j < length spans)%nat /\ chainTo r (j :: B).
Proof.
  intros Hperm Hr. induction 1 as [| l s chl c _ IH Hl Hc].
  - exists r, []. repeat split; [exact Hr | constructor].
  - destruct IH as (j & B & -> & Hj & HB).
    destruct (lookup_lt_is_Some_2 spans j Hj) as [sj Hsj].
    rewrite (treeWorld_node _ _ _ _ _ Hsj) in Hl. injection Hl as <- <-.
    destruct (treeInv_children ch tl out j c Hperm Hc) as (c' & _ & -> & Hp & _).
    exists c', (j :: B). repeat split; [eapply parentAt_lt, Hp | by constructor].
Qed.

Lemma chain_root_or_child r j B :
  chainTo r (j :: B) -> j = r \/ is_Some (parentAt spans j).
Proof. intros H. inversion H; subst; [by left | right; by eexists]. Qed.

Lemma parentAt_not_dangling j s :
  spans !! j = Some s -> is_Some (parentAt spans j) -> ~ dangling spans s.
Proof.
  intros Hs [k Hk] [_ Hd]. unfold parentAt in Hk. rewrite Hs in Hk. cbn in Hk.
  unfold parentIdx in Hk. destruct (truthy (parentKey s)); [| discriminate].
  apply indexOf_None in Hd. congruence.
Qed.

Lemma parentless_not_dangling s : parentless s -> ~ dangling spans s.
Proof. unfold parentless. intros Hp [Ht _]. congruence. Qed.
End Build.
End Tree.

(** ** The tree builder, on any store that holds the spans *)

Lemma world_eta w : w = {| heap := heap w; console := console w |}.
Proof. by destruct w. Qed.

Lemma filter_absent (l : list loc) x :
  x ∉ l -> filter (fun y => y = x) l = [].
Proof.
  induction l as [| y l IH]; [reflexivity |].
  intros [Hne Hl]%not_elem_of_cons.
  rewrite filter_cons_False by congruence. by apply IH.
Qed.

Lemma filter_once (l : list loc) x :
  NoDup l -> x ∈ l -> length (filter (fun y => y = x) l) = 1%nat.
Proof.
  induction 1 as [| y l Hy Hnd IH]; [by intros ?%elem_of_nil |].
  intros [-> | Hin]%elem_of_cons.
  - rewrite filter_cons_True by reflexivity. by rewrite filter_absent.
  - rewrite filter_cons_False by (intros ->; contradiction). by apply IH.
Qed.

Lemma kidsOf_NoDup spans h0 k : NoDup (loc_of h0 <$> kidsOf spans k).
Proof.
  apply NoDup_fmap_2.
  - intros x y. unfold loc_of. lia.
  - apply NoDup_filter, NoDup_seq.
Qed.

Lemma parentAt_by_id spans j k c p :
  NoDup (spanId <$> spans) ->
  spans !! j = Some c -> spans !! k = Some p ->
  ~ parentless c -> parentSpanId c = Some (spanId p) ->
  parentAt spans j = Some k.
Proof.
  intros Hnd Hc Hp Hnp Hid. unfold parentAt, parentIdx. rewrite Hc. cbn.
  unfold parentless in Hnp. destruct (truthy (parentKey c)); [| done].
  unfold parentKey. rewrite Hid. cbn. by apply indexOf_NoDup.
Qed.

(** The spans that are parentless, read off the positions. *)
Lemma rootUpTo_last spans i root :
  spans !! i = Some root -> parentless root ->
  (forall j s, spans !! j = Some s -> parentless s -> (j <= i)%nat) ->
  rootUpTo spans (length spans) = Some i.
Proof.
  intros Hi Hp Hlast. apply rootUpTo_Some. split; [eapply lookup_lt_Some, Hi |].
  split; [apply rootAt_true; eauto |].
  intros j Hj. destruct (rootAt spans j) eqn:E; [| reflexivity].
  apply rootAt_true in E as (s & Hs & Hps). specialize (Hlast j s Hs Hps). lia.
Qed.

(** C1. For a non-empty list of spans with unique ids and exactly one
    parentless span, [buildSpanTree] returns the node of that span as the
    root, and every other span whose parentSpanId is the id of a span of
    the input appears exactly once in the children of that span's node. *)
Theorem buildSpanTree_single_parentless
    (w : world) (a : loc) (spans : list SpanData) (i : nat) (root : SpanData) :
  holdsSpans w a spans ->
  NoDup (spanId <$> spans) ->
  spans !! i = Some root ->
  parentless root ->
  (forall j s, spans !! j = Some s -> parentless s -> j = i) ->
  exists fuel w' children,
    buildSpanTree fuel a w = (w', Ok (Some (nodeOf w i))) /\
    heap w' !! nodeOf w i = Some (ONode root children) /\
    forall j k c p,
      spans !! j = Some c -> j <> i ->
      spans !! k = Some p -> parentSpanId c = Some (spanId p) ->
      exists cch pch,
        heap w' !! nodeOf w j = Some (ONode c cch) /\
        heap w' !! nodeOf w k = Some (ONode p pch) /\
        length (filter (fun x => x = nodeOf w j) pch) = 1%nat.
Proof.
  intros (elems & Harr & Hrecs) Hnd Hi Hp Honly.
  assert (rootUpTo spans (length spans) = Some i) as Hroot.
  { apply (rootUpTo_last spans i root Hi Hp).
    intros j s Hs Hps. by rewrite (Honly j s Hs Hps). }
  destruct (buildSpanTree_root_run spans (heap w) elems Hrecs Hnd a Harr (console w)
              (length spans) i Hroot (Nat.le_refl _)) as (ch & Hrun & Hperm & _).
  rewrite <- world_eta in Hrun.
  exists (length spans), (treeWorld spans (heap w) ch [] (console w)), (ch i).
  split; [exact Hrun |]. split; [by apply treeWorld_node |].
  intros j k c p Hc Hji Hpk Hid.
  exists (ch j), (ch k).
  split; [by apply treeWorld_node |]. split; [by apply treeWorld_node |].
  assert (parentAt spans j = Some k) as Hpar.
  { apply (parentAt_by_id spans j k c p Hnd Hc Hpk); [| exact Hid].
    intros Hpc. apply Hji. by apply (Honly j c). }
  rewrite (Hperm k). apply filter_once; [apply kidsOf_NoDup |].
  apply list_elem_of_fmap. exists j. split; [reflexivity |].
  by apply elem_of_kidsOf.
Qed.

Lemma parentless_rootUpTo spans s :
  s ∈ spans -> parentless s -> exists r, rootUpTo spans (length spans) = Some r.
Proof.
  intros (j & Hj)%list_elem_of_lookup_1 Hp.
  destruct (rootUpTo spans (length spans)) as [r |] eqn:E; [eauto |].
  assert (rootAt spans j = true) as Hr by (apply rootAt_true; eauto).
  rewrite (proj1 (rootUpTo_None spans _) E j) in Hr; [discriminate |].
  eapply lookup_lt_Some, Hj.
Qed.

Lemma no_parentless_rootUpTo spans :
  (forall s, s ∈ spans -> ~ parentless s) -> rootUpTo spans (length spans) = None.
Proof.
  intros Hno. apply rootUpTo_None. intros j _.
  destruct (rootAt spans j) eqn:E; [| reflexivity].
  apply rootAt_true in E as (s & Hs & Hp).
  destruct (Hno s); [eapply list_elem_of_lookup_2, Hs | exact Hp].
Qed.

(** C6, as amended.  For a list of spans with unique ids of which two or
    more are parentless, [buildSpanTree] returns as root the node of the
    last parentless span in input order. *)
Theorem buildSpanTree_last_parentless_wins
    (w : world) (a : loc) (spans : list SpanData) :
  holdsSpans w a spans ->
  NoDup (spanId <$> spans) ->
  (2 <= length (filter parentless spans))%nat ->
  exists fuel w' i root children,
    buildSpanTree fuel a w = (w', Ok (Some (nodeOf w i))) /\
    heap w' !! nodeOf w i = Some (ONode root children) /\
    spans !! i = Some root /\ parentless root /\
    forall j s, spans !! j = Some s -> parentless s -> (j <= i)%nat.
Proof.
  intros (elems & Harr & Hrecs) Hnd Htwo.
  destruct (filter parentless spans) as [| s0 rest] eqn:Hf; [cbn in Htwo; lia |].
  assert (s0 ∈ filter parentless spans) as Hs0 by (rewrite Hf; left).
  apply list_elem_of_filter in Hs0 as [Hp0 Hin0].
  destruct (parentless_rootUpTo spans s0 Hin0 Hp0) as [i Hroot].
  pose proof Hroot as Hroot'.
  apply rootUpTo_Some in Hroot' as (Hi & Hrt & Hlast).
  apply rootAt_true in Hrt as (root & Hri & Hrp).
  destruct (buildSpanTree_root_run spans (heap w) elems Hrecs Hnd a Harr (console w)
              (length spans) i Hroot (Nat.le_refl _)) as (ch & Hrun & Hperm & _).
  rewrite <- world_eta in Hrun.
  exists (length spans), (treeWorld spans (heap w) ch [] (console w)), i, root, (ch i).
  split; [exact Hrun |]. split; [by apply treeWorld_node |].
  split; [exact Hri |]. split; [exact Hrp |].
  intros j s Hs Hps.
  destruct (decide (j <= i)%nat) as [| Hgt]; [done |].
  assert (rootAt spans j = true) as Hj by (apply rootAt_true; eauto).
  rewrite Hlast in Hj; [discriminate |].
  split; [lia | eapply lookup_lt_Some, Hs].
Qed.

(** C7, as amended.  For a non-empty list of spans with unique ids in
    which every span has a non-empty parentSpanId, [buildSpanTree]
    returns as root the node of the span with the least startTime, the
    earliest in input order among those. *)
Theorem buildSpanTree_fallback_earliest
    (w : world) (a : loc) (spans : list SpanData) :
  holdsSpans w a spans ->
  NoDup (spanId <$> spans) ->
  spans <> [] ->
  (forall s, s ∈ spans -> ~ parentless s) ->
  exists w' i root children,
    (forall fuel, buildSpanTree fuel a w = (w', Ok (Some (nodeOf w i)))) /\
    heap w' !! nodeOf w i = Some (ONode root children) /\
    spans !! i = Some root /\
    forall j s, spans !! j = Some s ->
      (startTime root <= startTime s)%Q /\
      ((j < i)%nat -> (startTime root < startTime s)%Q).
Proof.
  intros (elems & Harr & Hrecs) Hnd Hne Hno.
  destruct (buildSpanTree_fallback_run spans (heap w) elems Hrecs Hnd a Harr (console w)
              (no_parentless_rootUpTo spans Hno) Hne)
    as (i & root & sorted & Hi & Hmin & Hrun).
  rewrite <- world_eta in Hrun.
  eexists _, i, root, _.
  split; [exact Hrun |]. split; [by apply treeWorld_node |].
  split; [exact Hi | exact Hmin].
Qed.

Lemma empty_run w a traceId fuel :
  heap w !! a = Some (OArray []) ->
  buildSpanTree fuel a w = (w, Ok None) /\
  renderTrace fuel traceId a w = (w, Ok tt).
Proof.
  intros Harr.
  assert (buildSpanTree fuel a w = (w, Ok None)) as Hb.
  { unfold buildSpanTree. by rewrite bind_run, (readArray_run _ _ _ Harr). }
  split; [exact Hb |]. unfold renderTrace. by rewrite bind_run, Hb.
Qed.

(** C9, as amended.  For the empty list [buildSpanTree] returns the
    absent result and [renderTrace] returns having changed nothing, the
    console included; for a non-empty list of spans with unique ids
    [buildSpanTree] returns a root. *)
Theorem buildSpanTree_absent_iff_empty
    (w : world) (a : loc) (spans : list SpanData) (traceId : jsstring) :
  holdsSpans w a spans ->
  (spans = [] ->
     forall fuel,
       buildSpanTree fuel a w = (w, Ok None) /\
       renderTrace fuel traceId a w = (w, Ok tt)) /\
  (spans <> [] -> NoDup (spanId <$> spans) ->
     exists fuel w' r, buildSpanTree fuel a w = (w', Ok (Some r))).
Proof.
  intros (elems & Harr & Hrecs). split.
  - intros -> fuel. inversion Hrecs; subst. by apply empty_run.
  - intros Hne Hnd.
    destruct (rootUpTo spans (length spans)) as [r |] eqn:Hroot.
    + destruct (buildSpanTree_root_run spans (heap w) elems Hrecs Hnd a Harr (console w)
                  (length spans) r Hroot (Nat.le_refl _)) as (ch & Hrun & _).
      rewrite <- world_eta in Hrun. eauto.
    + destruct (buildSpanTree_fallback_run spans (heap w) elems Hrecs Hnd a Harr
                  (console w) Hroot Hne) as (i & root & sorted & _ & _ & Hrun).
      specialize (Hrun 0%nat). rewrite <- world_eta in Hrun. eauto.
Qed.

(** What the builder leaves when it is given enough stack: a linked tree
    and a root that is not its own ancestor. *)
Lemma buildSpanTree_linked (w : world) (a : loc) (spans : list SpanData) :
  holdsSpans w a spans ->
  NoDup (spanId <$> spans) ->
  spans <> [] ->
  (exists s, s ∈ spans /\ parentless s) \/ acyclic spans ->
  exists ch tl r,
    buildSpanTree (length spans) a w =
      (treeWorld spans (heap w) ch tl (console w), Ok (Some (loc_of (heap w) r))) /\
    (forall k, ch k ≡ₚ loc_of (heap w) <$> kidsOf spans k) /\
    (r < length spans)%nat /\
    (forall y B, ~ chainTo spans r (r :: y :: B)) /\
    ((exists s, s ∈ spans /\ parentless s) ->
       rootAt spans r = true /\
       forall k B, chainTo spans r (k :: B) -> sortedKids spans (heap w) (ch k)).
Proof.
  intros (elems & Harr & Hrecs) Hnd Hne Hcond.
  destruct (rootUpTo spans (length spans)) as [r |] eqn:Hroot.
  - destruct (buildSpanTree_root_run spans (heap w) elems Hrecs Hnd a Harr (console w)
                (length spans) r Hroot (Nat.le_refl _)) as (ch & Hrun & Hperm & Hsorted).
    rewrite <- world_eta in Hrun.
    apply rootUpTo_Some in Hroot as (Hr & Hrt & _).
    exists ch, [], r. split; [exact Hrun |]. split; [exact Hperm |].
    split; [exact Hr |]. split; [| done].
    intros y B. by apply parentless_acyclic.
  - destruct (buildSpanTree_fallback_run spans (heap w) elems Hrecs Hnd a Harr
                (console w) Hroot Hne) as (i & root & sorted & Hi & _ & Hrun).
    specialize (Hrun (length spans)). rewrite <- world_eta in Hrun.
    assert (forall s, s ∈ spans -> parentless s -> False) as Hno.
    { intros s Hs Hp. destruct (parentless_rootUpTo spans s Hs Hp) as [r Hr]. congruence. }
    exists (linked spans (heap w) (length spans)), [OArray sorted], i.
    split; [exact Hrun |]. split; [done |].
    split; [eapply lookup_lt_Some, Hi |]. split.
    + destruct Hcond as [(s & Hs & Hp) | Hac]; [destruct (Hno s Hs Hp) |].
      intros y B. by apply acyclic_chain.
    + intros (s & Hs & Hp). destruct (Hno s Hs Hp).
Qed.

(** *** Walks no deeper than the stack *)

(** A span [d] levels below the span [r] is the start of a chain of
    [d] parent links that ends at [r]. *)
Lemma ancestor_chain spans r d j :
  ancestor spans d j = Some r ->
  exists B, chainTo spans r (j :: B) /\ length B = d.
Proof.
  revert j. induction d as [| d IH]; intros j H.
  - injection H as ->. exists []. split; [constructor | reflexivity].
  - cbn in H. destruct (parentAt spans j) as [p |] eqn:Hp; [| discriminate].
    cbn in H. destruct (IH p H) as (B & HB & Hlen).
    exists (p :: B). split; [by constructor | cbn; lia].
Qed.

Lemma ancestor_snoc spans d j c i :
  ancestor spans d j = Some c -> parentAt spans c = Some i ->
  ancestor spans (S d) j = Some i.
Proof.
  revert j. induction d as [| d IH]; intros j Hd Hc.
  - injection Hd as ->. cbn. by rewrite Hc.
  - cbn in Hd. destruct (parentAt spans j) as [p |] eqn:Hp; [| discriminate].
    cbn in Hd. change (parentAt spans j ≫= ancestor spans (S d) = Some i).
    rewrite Hp. cbn [mbind option_bind]. by apply IH.
Qed.

(** The sort below a node returns when no span is as many levels below
    the node as the stack is deep, and it leaves a linked tree. *)
Lemma sortChildren_shallow spans h0 tl out fuel : forall i,
  (i < length spans)%nat ->
  (forall j d, ancestor spans d j = Some i -> (d < fuel)%nat) ->
  triple (treeInv spans h0 (fun _ => False) tl out) (sortChildren fuel (loc_of h0 i))
    (fun _ => treeInv spans h0 (fun _ => False) tl out) (fun _ => False).
Proof.
  induction fuel as [| fuel IH]; intros i Hi Hdepth.
  { specialize (Hdepth i 0%nat eq_refl). lia. }
  intros w (ch & -> & Hperm & _).
  destruct (lookup_lt_is_Some_2 spans i Hi) as [s Hs].
  cbn [sortChildren].
  rewrite bind_run, (readNode_run _ _ _ _ (treeWorld_node spans h0 ch tl out i s Hs)).
  destruct (readAll_returns _ _ (treeInv_readable spans h0 ch tl out i Hperm))
    as (kids & Hrun & Hfst & Hkids).
  rewrite bind_run, Hrun.
  rewrite bind_run, (treeWorld_write spans h0 _ _ _ _ _ _ Hs).
  set (L := (js_sort byStartTime kids).*1).
  assert (L ≡ₚ ch i) as HL by (subst L; by rewrite js_sort_fst_perm, Hfst).
  apply (triple_forEach (treeInv spans h0 (fun _ => False) tl out)).
  - intros x Hx.
    assert (x ∈ ch i) as Hin by (by rewrite <- HL).
    destruct (treeInv_children spans h0 ch tl out i x Hperm Hin) as (c & _ & -> & Hc & _).
    apply IH; [eapply parentAt_lt, Hc |].
    intros j d Hd. pose proof (Hdepth j (S d) (ancestor_snoc spans d j c i Hd Hc)). lia.
  - exists (<[i := L]> ch). split; [reflexivity |]. split; [| done].
    intros k. destruct (decide (k = i)) as [-> | Hne].
    + by rewrite fn_lookup_insert, HL.
    + by rewrite fn_lookup_insert_ne by congruence.
Qed.

(** The renderer below a node returns, having written nothing, when no
    span is as many levels below the node as the stack is deep. *)
Lemma renderNode_shallow spans h0 ch tl out totalDuration traceStartTime fuel :
  (forall k, ch k ≡ₚ loc_of h0 <$> kidsOf spans k) ->
  forall i lines prefix isLast isRoot,
  (i < length spans)%nat ->
  (forall j d, ancestor spans d j = Some i -> (d < fuel)%nat) ->
  exists new,
    renderNode fuel totalDuration traceStartTime lines (loc_of h0 i) prefix isLast isRoot
      (treeWorld spans h0 ch tl out) = (treeWorld spans h0 ch tl out, Ok (lines ++ new)).
Proof.
  intros Hperm.
  induction fuel as [| fuel IH]; intros i lines prefix isLast isRoot Hi Hdepth.
  { specialize (Hdepth i 0%nat eq_refl). lia. }
  destruct (lookup_lt_is_Some_2 spans i Hi) as [s Hs].
  cbn [renderNode].
  rewrite bind_run, (readNode_run _ _ _ _ (treeWorld_node spans h0 ch tl out i s Hs)).
  destruct (renderLine_returns s totalDuration traceStartTime prefix isLast isRoot)
    as [line Hline].
  rewrite bind_run. unfold liftR at 1. rewrite Hline.
  set (W := treeWorld spans h0 ch tl out).
  set (body := fun (lines : list jsstring) (ic : nat * loc) => renderNode fuel _ _ lines _ _ _ _).
  set (Inv := fun (_ : nat) (ls : list jsstring) (w : world) =>
                w = W /\ exists new, ls = lines ++ new).
  assert (forall idx ls x, imap pair (ch i) !! idx = Some x ->
            triple (Inv idx ls) (body ls x) (Inv (S idx)) (fun _ => False)) as Hstep.
  { intros idx ls [idx' x] Hx w (-> & new & ->).
    rewrite list_lookup_imap in Hx.
    destruct (ch i !! idx) as [x' |] eqn:Hx'; [| discriminate].
    injection Hx as <- <-.
    apply list_elem_of_lookup_2 in Hx'.
    destruct (treeInv_children spans h0 ch tl out i x' Hperm Hx') as (c & _ & -> & Hc & _).
    unfold body. cbn [fst snd].
    edestruct (IH c) as (new' & ->); [eapply parentAt_lt, Hc | |].
    { intros j d Hd. pose proof (Hdepth j (S d) (ancestor_snoc spans d j c i Hd Hc)). lia. }
    split; [reflexivity |]. exists (new ++ new'). by rewrite app_assoc. }
  destruct (triple_returns _ _ _ W
              (triple_forOf Inv _ body _ (lines ++ [line]) Hstep))
    as (w' & ls & Hrun & -> & new & ->).
  { split; [reflexivity |]. by exists [line]. }
  fold body. rewrite Hrun. by exists new.
Qed.

Lemma renderSpanTree_shallow spans h0 ch tl out fuel i totalDuration traceStartTime :
  (forall k, ch k ≡ₚ loc_of h0 <$> kidsOf spans k) ->
  (i < length spans)%nat ->
  (forall j d, ancestor spans d j = Some i -> (d < fuel)%nat) ->
  exists block,
    renderSpanTree fuel (loc_of h0 i) totalDuration traceStartTime
        (treeWorld spans h0 ch tl out) =
      (treeWorld spans h0 ch tl out, Ok block).
Proof.
  intros Hperm Hi Hdepth. unfold renderSpanTree.
  rewrite bind_run. unfold liftR at 1. rewrite js_repeat_ok by lia.
  rewrite bind_run. unfold liftR at 1.
  rewrite js_repeat_ok by (unfold timelineWidth; lia).
  rewrite bind_run.
  match goal with
  | |- context [renderNode _ _ _ ?ls _ _ _ _] =>
      destruct (renderNode_shallow spans h0 ch tl out totalDuration traceStartTime
                  fuel Hperm i ls [] true true Hi Hdepth) as (new & Hrun)
  end.
  rewrite Hrun, ret_run. by eexists.
Qed.

Lemma renderTrace_shallow spans h0 elems a ch tl out fuel i traceId :
  Forall2 (fun l s => h0 !! l ≫= fieldsOf = Some s) elems spans ->
  h0 !! a = Some (OArray elems) ->
  buildSpanTree fuel a {| heap := h0; console := out |} =
    (treeWorld spans h0 ch tl out, Ok (Some (loc_of h0 i))) ->
  (forall k, ch k ≡ₚ loc_of h0 <$> kidsOf spans k) ->
  (i < length spans)%nat ->
  (forall j d, ancestor spans d j = Some i -> (d < fuel)%nat) ->
  exists w', renderTrace fuel traceId a {| heap := h0; console := out |} = (w', Ok tt).
Proof.
  intros Hrecs Harr Hbuild Hperm Hi Hdepth.
  destruct (lookup_lt_is_Some_2 spans i Hi) as [root Hroot].
  unfold renderTrace. rewrite bind_run, Hbuild.
  rewrite bind_run, (readSpan_run _ _ root)
    by (by rewrite (treeWorld_node _ _ _ _ _ _ _ Hroot)).
  rewrite bind_run, treeWorld_log.
  rewrite bind_run, (readArray_run _ _ elems) by (by apply treeWorld_old).
  rewrite bind_run, treeWorld_log.
  rewrite bind_run.
  match goal with
  | |- context [renderSpanTree _ _ _ _ (treeWorld _ _ _ _ ?o)] =>
      destruct (renderSpanTree_shallow spans h0 ch tl o fuel i
                  (duration root) (startTime root) Hperm Hi Hdepth) as (block & Hrun)
  end.
  rewrite Hrun. rewrite bind_run, !treeWorld_log. by eexists.
Qed.

(** The span the builder picks as the root, and what it takes for the
    builder to return: a stack deeper than any span is below the root,
    when the root is a parentless span whose tree gets sorted, and
    nothing when it is the fallback. *)
Lemma buildSpanTree_picks spans h0 elems a out :
  Forall2 (fun l s => h0 !! l ≫= fieldsOf = Some s) elems spans ->
  NoDup (spanId <$> spans) ->
  h0 !! a = Some (OArray elems) ->
  spans <> [] ->
  exists i,
    (i < length spans)%nat /\
    (forall fuel w' r, buildSpanTree fuel a {| heap := h0; console := out |} = (w', Ok r) ->
       r = Some (loc_of h0 i)) /\
    (forall fuel,
       (forall j d, ancestor spans d j = Some i -> (d < fuel)%nat) ->
       exists ch tl,
         buildSpanTree fuel a {| heap := h0; console := out |} =
           (treeWorld spans h0 ch tl out, Ok (Some (loc_of h0 i))) /\
         forall k, ch k ≡ₚ loc_of h0 <$> kidsOf spans k) /\
    ((exists s, s ∈ spans /\ parentless s) \/ acyclic spans ->
     forall j d, ancestor spans d j = Some i -> (d < length spans)%nat).
Proof.
  intros Hrecs Hnd Harr Hne.
  assert (forall i, (i < length spans)%nat ->
            (forall y B, ~ chainTo spans i (i :: y :: B)) ->
            forall j d, ancestor spans d j = Some i -> (d < length spans)%nat) as Hpigeon.
  { intros i Hi Hacyc j d Hd. apply ancestor_chain in Hd as (B & HB & <-).
    pose proof (chain_length spans i Hi Hacyc _ HB) as Hlen. cbn in Hlen. lia. }
  destruct (rootUpTo spans (length spans)) as [r |] eqn:Hroot.
  - pose proof Hroot as Hroot'. apply rootUpTo_Some in Hroot' as (Hr & Hrt & _).
    exists r. split; [exact Hr |]. split; [| split].
    + intros fuel w' res Hrun.
      destruct (buildSpanTree_root_run spans h0 elems Hrecs Hnd a Harr out
                  (Nat.max fuel (length spans)) r Hroot (Nat.le_max_r _ _))
        as (ch & Hrun' & _).
      rewrite (buildSpanTree_fuel_mono fuel _ _ _ _ _ (Nat.le_max_l _ _) Hrun) in Hrun'.
      congruence.
    + intros fuel Hdepth. unfold buildSpanTree.
      rewrite bind_run, (readArray_run {| heap := h0; console := out |} a elems Harr).
      rewrite decide_False by (rewrite (Forall2_length _ _ _ Hrecs); lia).
      rewrite bind_run, (createNodes_run elems spans) by exact Hrecs.
      cbn [heap console].
      rewrite bind_run, (link_loop_run spans h0 elems Hrecs Hnd), Hroot.
      cbn [fmap option_fmap option_map].
      destruct (triple_returns _ _ _
                  (treeWorld spans h0 (linked spans h0 (length spans)) [] out)
                  (sortChildren_shallow spans h0 [] out fuel r Hr Hdepth))
        as (w' & u & Hrun & ch & -> & Hperm & _).
      { exists (linked spans h0 (length spans)). split; [reflexivity |].
        split; [intros k; reflexivity | done]. }
      rewrite bind_run, Hrun. by exists ch, [].
    + intros _. apply (Hpigeon r Hr). intros y B. by apply parentless_acyclic.
  - destruct (buildSpanTree_fallback_run spans h0 elems Hrecs Hnd a Harr out Hroot Hne)
      as (i & root & sorted & Hi & _ & Hrun).
    apply lookup_lt_Some in Hi.
    exists i. split; [exact Hi |]. split; [| split].
    + intros fuel w' res Hrun'. rewrite Hrun in Hrun'. congruence.
    + intros fuel _. exists (linked spans h0 (length spans)), [OArray sorted].
      split; [apply Hrun | intros k; reflexivity].
    + intros [(s & Hs & Hp) | Hac].
      * destruct (parentless_rootUpTo spans s Hs Hp) as [r Hr]. congruence.
      * apply (Hpigeon i Hi). intros y B. by apply acyclic_chain.
Qed.

(** C2, as amended.  For a list of spans with unique ids, tree building
    and rendering return whenever the stack admits more nested calls of
    the recursive walks than any span is levels below the root: then
    [buildSpanTree], [renderSpanTree] on the root it returns, and
    [renderTrace] raise nothing.  The root is one span of the list, the
    same at every stack depth at which [buildSpanTree] returns; for the
    empty list there is none and both calls return at every stack depth.
    When some span is parentless, or the parent links form no cycle, no
    span is as many levels below the root as there are spans, so a stack
    that admits as many nested calls as there are spans is enough.
    Cycles among spans that are not below the root do no harm, with or
    without a parentless span. *)
Theorem build_and_render_return
    (w : world) (a : loc) (spans : list SpanData) (traceId : jsstring) :
  holdsSpans w a spans ->
  NoDup (spanId <$> spans) ->
  (spans = [] ->
     forall fuel,
       buildSpanTree fuel a w = (w, Ok None) /\
       renderTrace fuel traceId a w = (w, Ok tt)) /\
  (spans <> [] ->
     exists i,
       (i < length spans)%nat /\
       (forall fuel w' r,
          buildSpanTree fuel a w = (w', Ok r) -> r = Some (nodeOf w i)) /\
       (forall fuel,
          (forall j d, ancestor spans d j = Some i -> (d < fuel)%nat) ->
          (exists w',
             buildSpanTree fuel a w = (w', Ok (Some (nodeOf w i))) /\
             forall totalDuration traceStartTime, exists out,
               renderSpanTree fuel (nodeOf w i) totalDuration traceStartTime w' =
                 (w', Ok out)) /\
          (exists w', renderTrace fuel traceId a w = (w', Ok tt))) /\
       ((exists s, s ∈ spans /\ parentless s) \/ acyclic spans ->
        forall j d, ancestor spans d j = Some i -> (d < length spans)%nat)).
Proof.
  intros (elems & Harr & Hrecs) Hnd. split.
  - intros -> fuel. inversion Hrecs; subst. by apply empty_run.
  - intros Hne.
    destruct (buildSpanTree_picks spans (heap w) elems a (console w) Hrecs Hnd Harr Hne)
      as (i & Hi & Hpick & Hruns & Hsuff).
    rewrite <- world_eta in Hpick.
    exists i. split; [exact Hi |]. split; [exact Hpick |]. split; [| exact Hsuff].
    intros fuel Hdepth.
    destruct (Hruns fuel Hdepth) as (ch & tl & Hbuild & Hperm).
    pose proof (renderTrace_shallow spans (heap w) elems a ch tl (console w) fuel i traceId
                  Hrecs Harr Hbuild Hperm Hi Hdepth) as Hrt.
    rewrite <- world_eta in Hbuild, Hrt. split; [| exact Hrt].
    exists (treeWorld spans (heap w) ch tl (console w)). split; [exact Hbuild |].
    intros tot st.
    apply (renderSpanTree_shallow spans (heap w) ch tl (console w) fuel i tot st
             Hperm Hi Hdepth).
Qed.


(** X1. For a list of spans with unique ids that holds a parentless span,
    the children of every node of the tree [buildSpanTree] returns are in
    non-decreasing order of startTime.  (On the fallback path nothing
    sorts them.) *)
Lemma buildSpanTree_children_sorted
    (w : world) (a : loc) (spans : list SpanData) :
  holdsSpans w a spans ->
  NoDup (spanId <$> spans) ->
  (exists s, s ∈ spans /\ parentless s) ->
  exists fuel w' r,
    buildSpanTree fuel a w = (w', Ok (Some r)) /\
    forall l s ch,
      reachable (heap w') r l -> heap w' !! l = Some (ONode s ch) ->
      childrenSorted (heap w') ch.
Proof.
  intros Hw Hnd Hpl.
  assert (spans <> []) as Hne.
  { destruct Hpl as (s & Hs & _). intros ->. by apply elem_of_nil in Hs. }
  destruct (buildSpanTree_linked w a spans Hw Hnd Hne (or_introl Hpl))
    as (ch & tl & r & Hrun & Hperm & Hr & Hacyc & Hroot).
  destruct (Hroot Hpl) as [_ Hsorted].
  eexists _, _, _. split; [exact Hrun |].
  intros l s chl Hreach Hl.
  destruct (treeWorld_reachable spans (heap w) ch tl (console w) r l Hperm Hr Hreach)
    as (k & B & -> & Hk & HB).
  destruct (lookup_lt_is_Some_2 spans k Hk) as [sk Hsk].
  rewrite (treeWorld_node _ _ _ _ _ _ _ Hsk) in Hl. injection Hl as <- <-.
  intros i j x y sx sy Hij Hi Hj Hx Hy.
  destruct (treeInv_children spans (heap w) ch tl (console w) k x Hperm
              (list_elem_of_lookup_2 _ _ _ Hi)) as (cx & sx' & -> & _ & Hcx & Hnx).
  destruct (treeInv_children spans (heap w) ch tl (console w) k y Hperm
              (list_elem_of_lookup_2 _ _ _ Hj)) as (cy & sy' & -> & _ & Hcy & Hny).
  rewrite Hnx in Hx. rewrite Hny in Hy. cbn in Hx, Hy.
  injection Hx as <-. injection Hy as <-.
  exact (Hsorted k B HB i j cx cy sx' sy' Hij Hi Hj Hcx Hcy).
Qed.

Lemma worldOf_holds spans : holdsSpans (worldOf spans) (spansRef spans) spans.
Proof.
  exists (seq 0 (length spans)). unfold worldOf, spansRef. cbn. split.
  - rewrite lookup_app_r by (rewrite length_fmap; lia).
    by rewrite length_fmap, Nat.sub_diag.
  - apply Forall2_same_length_lookup. split; [by rewrite length_seq |].
    intros i l s Hl Hs. apply lookup_seq in Hl as [-> Hi]. cbn.
    rewrite lookup_app_l by (by rewrite length_fmap).
    by rewrite list_lookup_fmap, Hs.
Qed.

Lemma buildSpanTree_single_parentless_witness :
  exists fuel w' children,
    buildSpanTree fuel (spansRef threeSpans) (worldOf threeSpans) =
      (w', Ok (Some (nodeOf (worldOf threeSpans) 0))) /\
    heap w' !! nodeOf (worldOf threeSpans) 0 =
      Some (ONode (mkSpan "A" None 0 100) children).
Proof.
  destruct (buildSpanTree_single_parentless (worldOf threeSpans) (spansRef threeSpans)
              threeSpans 0%nat (mkSpan "A" None 0 100))
    as (fuel & w' & children & Hrun & Hroot & _).
  - exists [0; 1; 2]%nat. split; [reflexivity | repeat constructor].
  - apply (bool_decide_unpack _). vm_compute. exact I.
  - reflexivity.
  - reflexivity.
  - intros [| [| [| j]]] s Hs Hp; cbn in Hs; try discriminate;
      injection Hs as <-; try reflexivity; vm_compute in Hp; discriminate.
  - exists fuel, w', children. split; assumption.
Defined.

(** ** A node that is its own child *)

Lemma readAll_self w l s ch :
  heap w !! l = Some (ONode s ch) -> readAll [l] w = (w, Ok [(l, s)]).
Proof.
  intros H. cbn [readAll].
  rewrite bind_run, (readSpan_run _ _ s) by (by rewrite H).
  reflexivity.
Qed.

(** The sort never returns from a node that is its only child. *)
Lemma sortChildren_self_loop w l s :
  heap w !! l = Some (ONode s [l]) ->
  forall fuel, sortChildren fuel l w = (w, Throw StackOverflow).
Proof.
  intros H. induction fuel as [| fuel IH]; [reflexivity |].
  cbn [sortChildren].
  rewrite bind_run, (readNode_run _ _ _ _ H).
  rewrite bind_run, (readAll_self _ _ _ _ H). cbn [js_sort js_insert fmap list_fmap fst].
  rewrite bind_run. unfold writeObj. rewrite (list_insert_id _ _ _ H), <- world_eta.
  cbn [forEach]. by rewrite bind_run, IH.
Qed.

(** Nor does the renderer. *)
Lemma renderNode_self_loop w l s totalDuration traceStartTime :
  heap w !! l = Some (ONode s [l]) ->
  forall fuel lines prefix isLast isRoot,
    renderNode fuel totalDuration traceStartTime lines l prefix isLast isRoot w =
      (w, Throw StackOverflow).
Proof.
  intros H. induction fuel as [| fuel IH]; intros lines prefix isLast isRoot;
    [reflexivity |].
  cbn [renderNode].
  rewrite bind_run, (readNode_run _ _ _ _ H).
  destruct (renderLine_returns s totalDuration traceStartTime prefix isLast isRoot)
    as [line Hline].
  rewrite bind_run. unfold liftR at 1. rewrite Hline.
  cbn [imap forOf fst snd]. by rewrite bind_run, IH.
Qed.

Lemma renderSpanTree_self_loop w l s totalDuration traceStartTime fuel :
  heap w !! l = Some (ONode s [l]) ->
  renderSpanTree fuel l totalDuration traceStartTime w = (w, Throw StackOverflow).
Proof.
  intros H. unfold renderSpanTree.
  rewrite bind_run. unfold liftR at 1. rewrite js_repeat_ok by lia.
  rewrite bind_run. unfold liftR at 1.
  rewrite js_repeat_ok by (unfold timelineWidth; lia).
  by rewrite bind_run, (renderNode_self_loop _ _ _ _ _ H).
Qed.

Lemma renderTrace_self_loop w a es fuel traceId w1 r s :
  buildSpanTree fuel a w = (w1, Ok (Some r)) ->
  heap w1 !! r = Some (ONode s [r]) ->
  heap w1 !! a = Some (OArray es) ->
  (renderTrace fuel traceId a w).2 = Throw StackOverflow.
Proof.
  intros Hb Hr Ha. unfold renderTrace. rewrite bind_run, Hb.
  rewrite bind_run, (readSpan_run _ _ s) by (by rewrite Hr).
  rewrite bind_run. unfold console_log at 1.
  rewrite bind_run, (readArray_run _ _ es) by exact Ha.
  rewrite bind_run. unfold console_log at 1. cbn [heap console].
  rewrite bind_run, (renderSpanTree_self_loop _ r s) by exact Hr.
  reflexivity.
Qed.

(** With an id occurring twice, a span that names that id as its parent
    can end as a child of the root itself: here the root becomes its own
    child and the sort never returns. *)
Lemma dupCycle_overflows fuel :
  (buildSpanTree fuel (spansRef dupCycle) (worldOf dupCycle)).2 = Throw StackOverflow.
Proof.
  unfold buildSpanTree.
  rewrite bind_run.
  set (x := readArray _ _). vm_compute in x. subst x. cbv beta iota.
  rewrite decide_False by (cbn; lia).
  rewrite bind_run.
  set (x := forOf createNode _ _ _). vm_compute in x. subst x. cbv beta iota.
  rewrite bind_run.
  set (x := forOf (linkSpan _) _ _ _). vm_compute in x. subst x. cbv beta iota.
  rewrite bind_run, (sortChildren_self_loop _ _ (mkSpan "X" None 0 1)) by reflexivity.
  reflexivity.
Qed.

(** A chain of three spans overflows a stack that admits two nested
    calls, in the sort and in the renderer, and fits one that admits
    three. *)
Lemma deepChain_overflows :
  NoDup (spanId <$> deepChain) /\
  (buildSpanTree 2 (spansRef deepChain) (worldOf deepChain)).2 = Throw StackOverflow /\
  (renderTrace 2 (str "trace") (spansRef deepChain) (worldOf deepChain)).2 =
    Throw StackOverflow /\
  (renderTrace 3 (str "trace") (spansRef deepChain) (worldOf deepChain)).2 = Ok tt.
Proof.
  split; [apply (bool_decide_unpack _); vm_compute; exact I |].
  repeat split; vm_compute; reflexivity.
Qed.

(** C2, the claim as stated fails.  A single span that is its own parent
    has unique ids; [buildSpanTree] returns it as the fallback root with
    itself as its only child, and rendering overflows the stack however
    deep the stack is.  With an id occurring twice [buildSpanTree]
    itself can overflow.  And a chain of spans, which has unique ids, a
    parentless span and no cycle, overflows a stack that admits fewer
    nested calls than the chain is long, in [buildSpanTree] and in
    [renderTrace]. *)
Lemma render_self_parent_overflows :
  NoDup (spanId <$> selfParent) /\
  (forall fuel,
     (buildSpanTree fuel (spansRef selfParent) (worldOf selfParent)).2 =
       Ok (Some 2%nat) /\
     (renderTrace fuel (str "trace") (spansRef selfParent) (worldOf selfParent)).2 =
       Throw StackOverflow) /\
  (forall fuel,
     (buildSpanTree fuel (spansRef dupCycle) (worldOf dupCycle)).2 =
       Throw StackOverflow) /\
  (NoDup (spanId <$> deepChain) /\
   (buildSpanTree 2 (spansRef deepChain) (worldOf deepChain)).2 = Throw StackOverflow /\
   (renderTrace 2 (str "trace") (spansRef deepChain) (worldOf deepChain)).2 =
     Throw StackOverflow /\
   (renderTrace 3 (str "trace") (spansRef deepChain) (worldOf deepChain)).2 = Ok tt).
Proof.
  split; [apply NoDup_singleton |].
  split; [| split; [exact dupCycle_overflows | exact deepChain_overflows]].
  intros fuel.
  destruct (buildSpanTree fuel (spansRef selfParent) (worldOf selfParent))
    as [w1 res] eqn:Hb.
  assert (res = Ok (Some 2%nat)) as ->.
  { change res with (w1, res).2. rewrite <- Hb. vm_compute. reflexivity. }
  assert (heap w1 = heap (buildSpanTree 0 (spansRef selfParent) (worldOf selfParent)).1)
    as Hh.
  { change w1 with (w1, Ok (Some 2%nat) : result (option loc)).1. rewrite <- Hb.
    vm_compute. reflexivity. }
  split; [reflexivity |].
  apply (renderTrace_self_loop _ _ [0%nat] _ _ w1 2%nat (mkSpan "A" (Some "A"%string) 0 10) Hb);
    rewrite Hh; vm_compute; reflexivity.
Qed.

(** C9, the claim as stated fails.  With an id occurring twice, a span
    that names that id as its parent can end as a child of the root
    itself; here the root becomes its own child and [buildSpanTree]
    overflows the stack instead of returning a root. *)
Lemma buildSpanTree_duplicate_id_overflows :
  dupCycle <> [] /\
  forall fuel,
    (buildSpanTree fuel (spansRef dupCycle) (worldOf dupCycle)).2 = Throw StackOverflow.
Proof. split; [discriminate | exact dupCycle_overflows]. Qed.


(** C6, the claim as stated fails.  With the id of the last parentless
    span occurring again later, the root is the node registered last
    under that id: here a span that has a parent, not a parentless one. *)
Lemma root_not_last_parentless_with_duplicate_id :
  (2 <= length (filter parentless dupRoots))%nat /\
  (buildSpanTree 1 (spansRef dupRoots) (worldOf dupRoots)).2 = Ok (Some 6%nat) /\
  forall fuel w' r,
    buildSpanTree fuel (spansRef dupRoots) (worldOf dupRoots) = (w', Ok (Some r)) ->
    heap w' !! r = Some (ONode (mkSpan "B" (Some "A"%string) 0 1) []) /\
    ~ parentless (mkSpan "B" (Some "A"%string) 0 1).
Proof.
  split; [vm_compute; lia |]. split; [vm_compute; reflexivity |].
  intros fuel w' r H. split; [| vm_compute; discriminate].
  destruct fuel as [| fuel]; vm_compute in H; [discriminate |].
  injection H as <- <-. reflexivity.
Qed.

(** C7, the claim as stated fails.  With an id occurring twice and no
    parentless span, the root is the node registered last under the id
    of the earliest span: here the one that starts at 5, not at 0. *)
Lemma root_not_earliest_with_duplicate_id :
  dupEarliest <> [] /\
  (forall s, s ∈ dupEarliest -> ~ parentless s) /\
  mkSpan "X" (Some "Z"%string) 0 1 ∈ dupEarliest /\
  forall fuel,
    let res := buildSpanTree fuel (spansRef dupEarliest) (worldOf dupEarliest) in
    res.2 = Ok (Some 4%nat) /\
    heap res.1 !! 4%nat = Some (ONode (mkSpan "X" (Some "Z"%string) 5 1) []) /\
    (startTime (mkSpan "X" (Some "Z"%string) 0 1) <
     startTime (mkSpan "X" (Some "Z"%string) 5 1))%Q.
Proof.
  split; [discriminate |]. split.
  - intros s Hs. unfold dupEarliest in Hs.
    apply elem_of_cons in Hs as [-> | Hs];
      [| apply list_elem_of_singleton in Hs as ->]; vm_compute; discriminate.
  - split; [left |]. intros fuel. cbv zeta.
    split; [vm_compute; reflexivity |]. split; [vm_compute; reflexivity |].
    reflexivity.
Qed.

(** C3, on the failing input.  With no parentless span the fallback
    selects A and nothing sorts its children: they stay in input order,
    B (start 20) before C (start 10). *)
Theorem buildSpanTree_fallback_children_unsorted :
  forall fuel,
    let res := buildSpanTree fuel (spansRef noRoot) (worldOf noRoot) in
    res.2 = Ok (Some 4%nat) /\
    heap res.1 !! 4%nat = Some (ONode (mkSpan "A" (Some "Z"%string) 0 100) [5; 6]%nat) /\
    heap res.1 !! 5%nat = Some (ONode (mkSpan "B" (Some "A"%string) 20 5) []) /\
    heap res.1 !! 6%nat = Some (ONode (mkSpan "C" (Some "A"%string) 10 5) []) /\
    (startTime (mkSpan "C" (Some "A"%string) 10 5) <
     startTime (mkSpan "B" (Some "A"%string) 20 5))%Q.
Proof.
  intros fuel. cbv zeta. repeat split; vm_compute; reflexivity.
Qed.

Lemma buildSpanTree_last_parentless_wins_witness :
  exists fuel w' i root children,
    buildSpanTree fuel (spansRef twoRoots) (worldOf twoRoots) =
      (w', Ok (Some (nodeOf (worldOf twoRoots) i))) /\
    heap w' !! nodeOf (worldOf twoRoots) i = Some (ONode root children) /\
    twoRoots !! i = Some root /\ parentless root /\
    forall j s, twoRoots !! j = Some s -> parentless s -> (j <= i)%nat.
Proof.
  apply (buildSpanTree_last_parentless_wins (worldOf twoRoots) (spansRef twoRoots) twoRoots).
  - exists [0; 1]%nat. split; [reflexivity | repeat constructor].
  - apply (bool_decide_unpack _). vm_compute. exact I.
  - vm_compute. lia.
Defined.

Lemma buildSpanTree_fallback_earliest_witness :
  exists w' i root children,
    (forall fuel,
       buildSpanTree fuel (spansRef noRoot) (worldOf noRoot) =
         (w', Ok (Some (nodeOf (worldOf noRoot) i)))) /\
    heap w' !! nodeOf (worldOf noRoot) i = Some (ONode root children) /\
    noRoot !! i = Some root /\
    forall j s, noRoot !! j = Some s ->
      (startTime root <= startTime s)%Q /\
      ((j < i)%nat -> (startTime root < startTime s)%Q).
Proof.
  apply (buildSpanTree_fallback_earliest (worldOf noRoot) (spansRef noRoot) noRoot).
  - exists [0; 1; 2]%nat. split; [reflexivity | repeat constructor].
  - apply (bool_decide_unpack _). vm_compute. exact I.
  - discriminate.
  - intros s Hs. unfold noRoot in Hs.
    repeat (apply elem_of_cons in Hs as [-> | Hs]; [vm_compute; discriminate |]).
    by apply elem_of_nil in Hs.
Defined.

Lemma buildSpanTree_absent_iff_empty_witness :
  (forall fuel,
     buildSpanTree fuel (spansRef []) (worldOf []) = (worldOf [], Ok None) /\
     renderTrace fuel (str "trace") (spansRef []) (worldOf []) = (worldOf [], Ok tt)) /\
  (exists fuel w' r,
     buildSpanTree fuel (spansRef threeSpans) (worldOf threeSpans) = (w', Ok (Some r))).
Proof.
  split.
  - apply (buildSpanTree_absent_iff_empty (worldOf []) (spansRef []) [] (str "trace")).
    + exists []. split; [reflexivity | constructor].
    + reflexivity.
  - apply (buildSpanTree_absent_iff_empty (worldOf threeSpans) (spansRef threeSpans)
             threeSpans (str "trace")).
    + exists [0; 1; 2]%nat. split; [reflexivity | repeat constructor].
    + discriminate.
    + apply (bool_decide_unpack _). vm_compute. exact I.
Defined.

(** In [sideCycle] no span is below the fallback root. *)
Lemma sideCycle_depth d : forall j, ancestor sideCycle d j = Some 0%nat -> d = 0%nat.
Proof.
  destruct d as [| d]; [reflexivity |]. intros j H. exfalso. revert j H.
  induction d as [| d IH]; intros j H.
  - destruct j as [| [| [| j]]]; vm_compute in H; discriminate.
  - change (parentAt sideCycle j ≫= ancestor sideCycle (S d) = Some 0%nat) in H.
    destruct (parentAt sideCycle j) as [p |]; [| discriminate].
    exact (IH p H).
Qed.

Lemma build_and_render_return_witness :
  exists i w',
    (forall fuel w1 r,
       buildSpanTree fuel (spansRef sideCycle) (worldOf sideCycle) = (w1, Ok r) ->
       r = Some (nodeOf (worldOf sideCycle) i)) /\
    renderTrace 1 (str "trace") (spansRef sideCycle) (worldOf sideCycle) = (w', Ok tt).
Proof.
  destruct (build_and_render_return (worldOf sideCycle) (spansRef sideCycle) sideCycle
              (str "trace")) as [_ H].
  - apply worldOf_holds.
  - apply (bool_decide_unpack _). vm_compute. exact I.
  - destruct (H ltac:(discriminate)) as (i & Hi & Hpick & Hret & _).
    assert (i = 0%nat) as ->.
    { assert (Some (nodeOf (worldOf sideCycle) 0) = Some (nodeOf (worldOf sideCycle) i))
        as Heq by (apply (Hpick 0%nat _ _ eq_refl)).
      injection Heq. unfold nodeOf. lia. }
    destruct (Hret 1%nat) as [_ [w' Hrt]].
    + intros j d Hd. rewrite (sideCycle_depth d j Hd). lia.
    + exists 0%nat, w'. split; [exact Hpick | exact Hrt].
Defined.


(** ** More about the timeline bar *)

Lemma Math_round_comp (x y : Q) : (x == y)%Q -> Math_round x = Math_round y.
Proof. intros H. unfold Math_round. apply Qfloor_comp. by rewrite H. Qed.

Lemma Math_round_Z (z : Z) : Math_round (inject_Z z) = z.
Proof.
  unfold Math_round.
  assert (Qfloor (inject_Z z + (1 # 2)) <= z /\ z <= Qfloor (inject_Z z + (1 # 2))); [| lia].
  split.
  - apply Z.lt_succ_r. rewrite Zlt_Qlt.
    eapply Qle_lt_trans; [apply Qfloor_le |].
    unfold Z.succ. rewrite inject_Z_plus. change (inject_Z 1) with 1%Q. lra.
  - rewrite <- (Qfloor_Z z) at 1. apply Qfloor_resp_le. lra.
Qed.

Lemma Math_round_le (x y : Q) : (x <= y)%Q -> Math_round x <= Math_round y.
Proof. intros H. unfold Math_round. apply Qfloor_resp_le. lra. Qed.

Lemma Math_round_nonpos (x : Q) : (x <= 0)%Q -> Math_round x <= 0.
Proof.
  intros H. change 0 with (Math_round 0). by apply Math_round_le.
Qed.

Lemma Qeq_bool_false (x : Q) : ~ (x == 0)%Q -> Qeq_bool x 0 = false.
Proof.
  intros H. destruct (Qeq_bool x 0) eqn:E; [| reflexivity].
  apply Qeq_bool_iff in E. contradiction.
Qed.

(** The leading run of fillers, as a function of the start ratio. *)
Lemma renderTimelineBar_nonzero st d ts tot w :
  1 <= w -> ~ (tot == 0)%Q ->
  let startRatio := Qmin (Qmax 0 (st - ts) / tot) 1 in
  let durationRatio := Qmin (d / tot) (1 - startRatio) in
  let adj := Z.min (Z.max 0 (Math_round (startRatio * inject_Z w))) (w - 1) in
  let endPos := Z.min w (adj + Z.max 1 (Math_round (durationRatio * inject_Z w))) in
  renderTimelineBar st d ts tot w =
    Ok (replicate (Z.to_nat adj) FILLER ++ replicate (Z.to_nat (endPos - adj)) SOLID ++
        replicate (Z.to_nat (w - endPos)) FILLER) /\
  0 <= adj < endPos /\ endPos <= w.
Proof.
  intros Hw Htot. cbv zeta. unfold renderTimelineBar.
  rewrite (Qeq_bool_false _ Htot).
  set (r1 := Math_round _). set (r2 := Math_round _).
  set (adj := Z.min (Z.max 0 r1) (w - 1)).
  set (endPos := Z.min w (adj + Z.max 1 r2)).
  assert (0 <= adj < w) by (subst adj; lia).
  assert (adj < endPos <= w) by (subst endPos; lia).
  rewrite !js_repeat_ok by lia. cbn.
  split; [| lia].
  rewrite (Z.max_r 1 (endPos - adj)) by lia.
  rewrite (Z.max_r 0 (w - endPos)) by lia. reflexivity.
Qed.

(** X2. A bar is a run of fillers, a run of at least one solid block and a
    run of fillers, [barWidth] cells in all: the solid blocks are
    contiguous and nothing else occurs in the bar. *)
Theorem renderTimelineBar_three_runs
    (startTime duration traceStartTime totalDuration : Q) (barWidth : Z) :
  1 <= barWidth ->
  exists before bar after : nat,
    renderTimelineBar startTime duration traceStartTime totalDuration barWidth =
      Ok (replicate before FILLER ++ replicate bar SOLID ++ replicate after FILLER) /\
    (1 <= bar)%nat /\
    Z.of_nat (before + bar + after) = barWidth.
Proof.
  intros Hw.
  destruct (renderTimelineBar_runs startTime duration traceStartTime totalDuration
              barWidth Hw) as (b & m & a & Hrun & Hm & Hlen).
  exists b, m, a. split; [exact Hrun |]. split; [lia | exact Hlen].
Qed.

Lemma renderTimelineBar_three_runs_witness :
  exists before bar after : nat,
    renderTimelineBar 10 20 0 100 40 =
      Ok (replicate before FILLER ++ replicate bar SOLID ++ replicate after FILLER) /\
    (1 <= bar)%nat /\
    Z.of_nat (before + bar + after) = 40.
Proof. apply (renderTimelineBar_three_runs 10 20 0 100 40). lia. Defined.

(** X3. A width below one: the empty bar for a width of zero in a trace of
    zero duration, and otherwise the [RangeError] of [repeat], whose
    count is then negative. *)
Theorem renderTimelineBar_width_below_one
    (startTime duration traceStartTime totalDuration : Q) (barWidth : Z) :
  barWidth <= 0 ->
  renderTimelineBar startTime duration traceStartTime totalDuration barWidth =
    if Qeq_bool totalDuration 0 && (barWidth =? 0) then Ok [] else Throw InvalidCount.
Proof.
  intros Hw. unfold renderTimelineBar.
  destruct (Qeq_bool totalDuration 0); cbn [andb].
  - unfold js_repeat. destruct (barWidth =? 0) eqn:E.
    + apply Z.eqb_eq in E. subst. reflexivity.
    + apply Z.eqb_neq in E. destruct (barWidth <? 0) eqn:E'; [reflexivity |].
      apply Z.ltb_ge in E'. lia.
  - set (r1 := Math_round _).
    assert (js_repeat FILLER (Z.min (Z.max 0 r1) (barWidth - 1)) = Throw InvalidCount)
      as ->; [| reflexivity].
    unfold js_repeat.
    destruct (Z.min (Z.max 0 r1) (barWidth - 1) <? 0) eqn:E; [reflexivity |].
    apply Z.ltb_ge in E. lia.
Qed.

Lemma renderTimelineBar_width_below_one_witness :
  renderTimelineBar 10 20 0 100 0 = Throw InvalidCount /\
  renderTimelineBar 10 20 0 0 0 = Ok [].
Proof.
  split.
  - apply (renderTimelineBar_width_below_one 10 20 0 100 0). lia.
  - apply (renderTimelineBar_width_below_one 10 20 0 0 0). lia.
Defined.

(** X4. A span measured against itself, as the root of a trace is: the bar
    is solid from end to end, whatever its start and its duration, a
    duration of zero included. *)
Theorem renderTimelineBar_whole_trace (startTime duration : Q) (barWidth : Z) :
  1 <= barWidth ->
  renderTimelineBar startTime duration startTime duration barWidth =
    Ok (replicate (Z.to_nat barWidth) SOLID).
Proof.
  intros Hw.
  destruct (Qeq_dec duration 0) as [H0 | Hne].
  - unfold renderTimelineBar. apply Qeq_bool_iff in H0. rewrite H0.
    apply js_repeat_ok. lia.
  - destruct (renderTimelineBar_nonzero startTime duration startTime duration barWidth
                Hw Hne) as [-> _].
    assert (Qmin (Qmax 0 (startTime - startTime) / duration) 1 == 0)%Q as Hs.
    { assert (Qmax 0 (startTime - startTime) == 0)%Q as ->
        by (apply Q.max_l; lra).
      assert (0 / duration == 0)%Q as -> by (by field).
      apply Q.min_l. lra. }
    assert (Qmin (duration / duration)
              (1 - Qmin (Qmax 0 (startTime - startTime) / duration) 1) == 1)%Q as Hd.
    { rewrite Hs. assert (duration / duration == 1)%Q as -> by (by field).
      apply Q.min_l. lra. }
    rewrite (Math_round_comp (_ * inject_Z barWidth) 0) by (rewrite Hs; lra).
    rewrite (Math_round_comp (_ * inject_Z barWidth) (inject_Z barWidth))
      by (rewrite Hd; lra).
    rewrite Math_round_Z. change (Math_round 0) with 0.
    rewrite (Z.max_l 0 0), (Z.min_l 0) by lia.
    rewrite (Z.max_r 1 barWidth), Z.add_0_l, Z.min_id, Z.sub_0_r, Z.sub_diag by lia.
    cbn. by rewrite app_nil_r.
Qed.

Lemma renderTimelineBar_whole_trace_witness :
  renderTimelineBar 7 0 7 0 50 = Ok (replicate 50 SOLID) /\
  renderTimelineBar 7 3 7 3 50 = Ok (replicate 50 SOLID).
Proof.
  split.
  - apply (renderTimelineBar_whole_trace 7 0 50). lia.
  - apply (renderTimelineBar_whole_trace 7 3 50). lia.
Defined.

(** X5. A span that starts at or after the end of the trace is one solid
    block in the last cell, whatever its duration. *)
Theorem renderTimelineBar_after_the_end
    (startTime duration traceStartTime totalDuration : Q) (barWidth : Z) :
  (0 < totalDuration)%Q ->
  (traceStartTime + totalDuration <= startTime)%Q ->
  1 <= barWidth ->
  renderTimelineBar startTime duration traceStartTime totalDuration barWidth =
    Ok (replicate (Z.to_nat (barWidth - 1)) FILLER ++ [SOLID]).
Proof.
  intros Htot Hlate Hw.
  destruct (renderTimelineBar_nonzero startTime duration traceStartTime totalDuration
              barWidth Hw) as [-> _]; [lra |].
  assert (Qmin (Qmax 0 (startTime - traceStartTime) / totalDuration) 1 == 1)%Q as Hs.
  { apply Q.min_r. apply Qle_shift_div_l; [exact Htot |].
    rewrite Qmult_1_l. eapply Qle_trans; [| apply Q.le_max_r]. lra. }
  set (r2 := Math_round (Qmin (duration / totalDuration) _ * _)).
  assert (r2 <= 0) as Hr2.
  { apply Math_round_nonpos.
    assert (Qmin (duration / totalDuration)
              (1 - Qmin (Qmax 0 (startTime - traceStartTime) / totalDuration) 1) <= 0)%Q
      as Hd by (eapply Qle_trans; [apply Q.le_min_r | rewrite Hs; lra]).
    assert (0 <= inject_Z barWidth)%Q as Hwq
      by (change 0%Q with (inject_Z 0); rewrite <- Zle_Qle; lia).
    eapply Qle_trans; [apply (Qmult_le_compat_r _ 0 _ Hd Hwq) | lra]. }
  rewrite (Math_round_comp (_ * inject_Z barWidth) (inject_Z barWidth))
    by (rewrite Hs; lra).
  rewrite Math_round_Z.
  rewrite (Z.max_r 0 barWidth), (Z.min_r barWidth (barWidth - 1)) by lia.
  rewrite (Z.max_l 1 r2) by lia.
  replace (barWidth - 1 + 1) with barWidth by lia.
  rewrite Z.min_id, Z.sub_diag.
  replace (barWidth - (barWidth - 1)) with 1 by lia.
  cbn. reflexivity.
Qed.

Lemma renderTimelineBar_after_the_end_witness :
  renderTimelineBar 130 20 0 100 40 = Ok (replicate 39 FILLER ++ [SOLID]).
Proof.
  apply (renderTimelineBar_after_the_end 130 20 0 100 40).
  - reflexivity.
  - unfold Qle; simpl; lia.
  - lia.
Defined.

(** X6. A span that starts at or before the start of the trace has its
    first solid block in the first cell. *)
Theorem renderTimelineBar_before_the_start
    (startTime duration traceStartTime totalDuration : Q) (barWidth : Z) :
  (startTime <= traceStartTime)%Q ->
  1 <= barWidth ->
  exists rest,
    renderTimelineBar startTime duration traceStartTime totalDuration barWidth =
      Ok (SOLID :: rest).
Proof.
  intros Hearly Hw.
  destruct (Qeq_dec totalDuration 0) as [H0 | Hne].
  - unfold renderTimelineBar. apply Qeq_bool_iff in H0. rewrite H0.
    rewrite js_repeat_ok by lia.
    destruct (Z.to_nat barWidth) as [| n] eqn:E; [lia |]. by eexists.
  - destruct (renderTimelineBar_nonzero startTime duration traceStartTime totalDuration
                barWidth Hw Hne) as [-> Hpos].
    cbv zeta in Hpos.
    assert (Qmin (Qmax 0 (startTime - traceStartTime) / totalDuration) 1 == 0)%Q as Hs.
    { assert (Qmax 0 (startTime - traceStartTime) == 0)%Q as ->
        by (apply Q.max_l; lra).
      assert (0 / totalDuration == 0)%Q as -> by (by field).
      apply Q.min_l. lra. }
    revert Hpos.
    rewrite (Math_round_comp (_ * inject_Z barWidth) 0) by (rewrite Hs; lra).
    change (Math_round 0) with 0.
    rewrite (Z.max_l 0 0), (Z.min_l 0) by lia.
    intros Hpos. cbn [Z.to_nat replicate app].
    destruct (Z.to_nat (_ - 0)) as [| n] eqn:E; [lia |].
    by eexists.
Qed.

Lemma renderTimelineBar_before_the_start_witness :
  exists rest, renderTimelineBar (-5) 20 0 100 40 = Ok (SOLID :: rest).
Proof.
  apply (renderTimelineBar_before_the_start (-5) 20 0 100 40).
  - unfold Qle; simpl; lia.
  - lia.
Defined.

(** X7. In a trace of positive duration, of two spans the one that starts
    later does not have its first solid block further to the left. *)
Theorem renderTimelineBar_start_monotone
    (startTime1 duration1 startTime2 duration2 traceStartTime totalDuration : Q)
    (barWidth : Z) :
  (0 < totalDuration)%Q ->
  (startTime1 <= startTime2)%Q ->
  1 <= barWidth ->
  exists (before1 before2 : nat) rest1 rest2,
    renderTimelineBar startTime1 duration1 traceStartTime totalDuration barWidth =
      Ok (replicate before1 FILLER ++ SOLID :: rest1) /\
    renderTimelineBar startTime2 duration2 traceStartTime totalDuration barWidth =
      Ok (replicate before2 FILLER ++ SOLID :: rest2) /\
    (before1 <= before2)%nat.
Proof.
  intros Htot Hle Hw.
  destruct (renderTimelineBar_nonzero startTime1 duration1 traceStartTime totalDuration
              barWidth Hw) as [-> H1]; [lra |].
  destruct (renderTimelineBar_nonzero startTime2 duration2 traceStartTime totalDuration
              barWidth Hw) as [-> H2]; [lra |].
  cbv zeta in H1, H2.
  set (r1 := Math_round (Qmin (Qmax 0 (startTime1 - _) / _) 1 * _)) in *.
  set (r2 := Math_round (Qmin (Qmax 0 (startTime2 - _) / _) 1 * _)) in *.
  assert (r1 <= r2) as Hr.
  { apply Math_round_le. apply Qmult_le_compat_r.
    - apply Q.min_le_compat_r. unfold Qdiv. apply Qmult_le_compat_r.
      + apply Q.max_le_compat_l. lra.
      + apply Qlt_le_weak, Qinv_lt_0_compat, Htot.
    - change 0%Q with (inject_Z 0). rewrite <- Zle_Qle. lia. }
  set (a1 := Z.min (Z.max 0 r1) (barWidth - 1)) in *.
  set (a2 := Z.min (Z.max 0 r2) (barWidth - 1)) in *.
  set (e1 := Z.min barWidth (a1 + _)) in *.
  set (e2 := Z.min barWidth (a2 + _)) in *.
  destruct (Z.to_nat (e1 - a1)) as [| n1] eqn:E1; [lia |].
  destruct (Z.to_nat (e2 - a2)) as [| n2] eqn:E2; [lia |].
  eexists (Z.to_nat a1), (Z.to_nat a2), _, _.
  split; [reflexivity |]. split; [reflexivity |]. subst a1 a2. lia.
Qed.

Lemma renderTimelineBar_start_monotone_witness :
  exists (before1 before2 : nat) rest1 rest2,
    renderTimelineBar 10 20 0 100 40 = Ok (replicate before1 FILLER ++ SOLID :: rest1) /\
    renderTimelineBar 50 10 0 100 40 = Ok (replicate before2 FILLER ++ SOLID :: rest2) /\
    (before1 <= before2)%nat.
Proof.
  apply (renderTimelineBar_start_monotone 10 20 50 10 0 100 40).
  - reflexivity.
  - unfold Qle; simpl; lia.
  - lia.
Defined.

(** ** The lines *)

Lemma getDurationColor_length d tot : length (getDurationColor d tot) = 5%nat.
Proof.
  unfold getDurationColor.
  repeat match goal with |- context [if ?b then _ else _] => destruct b end;
    reflexivity.
Qed.

Lemma displayName_length s : length (displayName s) = nameColWidth.
Proof.
  unfold displayName, js_slice0, js_padEnd, nameColWidth.
  destruct (decide (45 < length s)%nat).
  - rewrite length_app, length_take. change (length [ELLIPSIS]) with 1%nat. lia.
  - rewrite length_app, length_replicate. lia.
Qed.

(** X8. Every line of a span has the same layout: a name column of exactly
    [nameColWidth] code units, cut with an ellipsis or padded with
    spaces, and the [timelineWidth] cells of the bar, between the same
    escape sequences; 131 code units in all, whatever the span, its
    depth and its attributes. *)
Theorem renderLine_fixed_width
    (n : SpanData) (totalDuration traceStartTime : Q) (prefix : jsstring)
    (isLast isRoot : bool) :
  exists color nameCol bar,
    renderLine n totalDuration traceStartTime prefix isLast isRoot =
      Ok (color ++ nameCol ++ colors_reset ++ colors_dim ++ [VBAR] ++ colors_reset ++
          color ++ bar ++ colors_reset ++ colors_dim ++ [VBAR] ++ colors_reset) /\
    color = getDurationColor (duration n) totalDuration /\
    length nameCol = nameColWidth /\
    Z.of_nat (length bar) = timelineWidth /\
    length (color ++ nameCol ++ colors_reset ++ colors_dim ++ [VBAR] ++ colors_reset ++
            color ++ bar ++ colors_reset ++ colors_dim ++ [VBAR] ++ colors_reset)
      = 131%nat.
Proof.
  unfold renderLine.
  destruct (renderTimelineBar_runs (startTime n) (duration n) traceStartTime
              totalDuration timelineWidth) as (b & m & a & -> & _ & Hlen);
    [unfold timelineWidth; lia |].
  cbn [mbind result_bind mret result_ret].
  eexists _, _, _. split; [reflexivity |]. split; [reflexivity |].
  split; [apply displayName_length |].
  assert (Z.of_nat (length (replicate b FILLER ++ replicate m SOLID ++ replicate a FILLER))
          = timelineWidth) as Hbar.
  { rewrite !length_app, !length_replicate. lia. }
  split; [exact Hbar |].
  revert Hbar. generalize (replicate b FILLER ++ replicate m SOLID ++ replicate a FILLER).
  intros bar Hbar.
  rewrite !length_app, getDurationColor_length, displayName_length.
  unfold timelineWidth in Hbar. unfold nameColWidth.
  change (length colors_reset) with 4%nat. change (length colors_dim) with 4%nat.
  change (length [VBAR]) with 1%nat. lia.
Qed.

(** X9. The root of a trace is measured against itself, and its share of
    the total is 1, or [NaN] when its duration is zero: its colour is
    red in both cases. *)
Theorem getDurationColor_whole_trace (duration : Q) :
  getDurationColor duration duration = colors_red.
Proof.
  unfold getDurationColor.
  destruct (Qeq_bool duration 0) eqn:E.
  - apply Qeq_bool_iff in E.
    destruct (Qle_bool 0 duration) eqn:E'; [reflexivity |].
    assert (Qle_bool 0 duration = true) by (apply Qle_bool_iff; lra). congruence.
  - apply Qeq_bool_neq in E.
    assert (duration / duration == 1)%Q as H1 by (by field).
    assert (Qle_bool (1 # 10) (duration / duration) = true) as ->
      by (apply Qle_bool_iff; rewrite H1; lra).
    assert (Qle_bool (4 # 10) (duration / duration) = true) as ->
      by (apply Qle_bool_iff; rewrite H1; lra).
    reflexivity.
Qed.

(** X10. The three colours by share of a positive total: green below a
    tenth, yellow from a tenth to below four tenths, red from there. *)
Theorem getDurationColor_by_share (duration totalDuration : Q) :
  (0 < totalDuration)%Q ->
  ((10 * duration < totalDuration)%Q ->
     getDurationColor duration totalDuration = colors_green) /\
  ((totalDuration <= 10 * duration)%Q -> (10 * duration < 4 * totalDuration)%Q ->
     getDurationColor duration totalDuration = colors_yellow) /\
  ((4 * totalDuration <= 10 * duration)%Q ->
     getDurationColor duration totalDuration = colors_red).
Proof.
  intros Htot. unfold getDurationColor.
  rewrite Qeq_bool_false by lra.
  assert (forall c : Q, Qle_bool c (duration / totalDuration) = true <->
                        (c * totalDuration <= duration)%Q) as Hc.
  { intros c. rewrite Qle_bool_iff. split; intros H.
    - apply Qmult_le_compat_r with (z := totalDuration) in H; [| lra].
      assert (duration / totalDuration * totalDuration == duration)%Q as Heq
        by (field; lra).
      by rewrite Heq in H.
    - by apply Qle_shift_div_l. }
  assert (forall c : Q, (duration < c * totalDuration)%Q ->
                        Qle_bool c (duration / totalDuration) = false) as Hn.
  { intros c H. apply not_true_iff_false. rewrite Hc. lra. }
  repeat split.
  - intros H. rewrite Hn by lra. reflexivity.
  - intros H1 H2. rewrite (proj2 (Hc _)) by lra. rewrite Hn by lra. reflexivity.
  - intros H. rewrite !(proj2 (Hc _)) by lra. reflexivity.
Qed.

Lemma getDurationColor_by_share_witness :
  getDurationColor 9 100 = colors_green /\
  getDurationColor 10 100 = colors_yellow /\
  getDurationColor 40 100 = colors_red.
Proof.
  destruct (getDurationColor_by_share 9 100) as (Hg & _ & _); [reflexivity |].
  destruct (getDurationColor_by_share 10 100) as (_ & Hy & _); [reflexivity |].
  destruct (getDurationColor_by_share 40 100) as (_ & _ & Hr); [reflexivity |].
  split; [apply Hg; reflexivity |].
  split; [apply Hy; [unfold Qle; simpl; lia | reflexivity] |].
  apply Hr. unfold Qle; simpl; lia.
Defined.

(** ** [hrTimeToMs] *)

(** The doubles nearest to a tenth and to a third, and the first
    integer that is not a double. *)
Example toDouble_examples :
  Qred (toDouble (1 # 10)) = (3602879701896397 # 36028797018963968)%Q /\
  Qred (toDouble (1 # 3)) = (6004799503160661 # 18014398509481984)%Q /\
  Qred (toDouble 9007199254740993) = 9007199254740992%Q.
Proof. repeat split; vm_compute; reflexivity. Qed.

(** Rounding keeps the order. *)
Lemma roundEven_le x y : (x <= y)%Q -> roundEven x <= roundEven y.
Proof.
  intros Hxy. unfold roundEven.
  pose proof (Qfloor_resp_le x y Hxy) as Hf.
  pose proof (Qfloor_le x) as Hx1. pose proof (Qlt_floor x) as Hx2.
  pose proof (Qfloor_le y) as Hy1. pose proof (Qlt_floor y) as Hy2.
  rewrite inject_Z_plus in Hx2, Hy2. change (inject_Z 1) with 1%Q in Hx2, Hy2.
  destruct (Z.eq_dec (Qfloor x) (Qfloor y)) as [Heq | Hne].
  - rewrite <- Heq in *.
    destruct (x - inject_Z (Qfloor x) ?= 1 # 2)%Q eqn:Hcx;
      destruct (y - inject_Z (Qfloor x) ?= 1 # 2)%Q eqn:Hcy;
      try (destruct (Z.even (Qfloor x))); try lia; exfalso;
      qcmp Hcx; qcmp Hcy; lra.
  - assert (Qfloor x + 1 <= Qfloor y) by lia.
    destruct (x - inject_Z (Qfloor x) ?= 1 # 2)%Q;
      destruct (y - inject_Z (Qfloor y) ?= 1 # 2)%Q;
      try (destruct (Z.even (Qfloor x))); try (destruct (Z.even (Qfloor y))); lia.
Qed.

Lemma roundEven_Z z : roundEven (inject_Z z) = z.
Proof.
  unfold roundEven. rewrite Qfloor_Z.
  assert ((inject_Z z - inject_Z z ?= 1 # 2)%Q = Lt) as ->; [| reflexivity].
  rewrite <- Qlt_alt. lra.
Qed.

Lemma roundEven_comp x y : (x == y)%Q -> roundEven x = roundEven y.
Proof.
  intros H. apply Z.le_antisymm; apply roundEven_le; rewrite H; apply Qle_refl.
Qed.

Lemma pow2_pos e : (0 < 2 ^ e)%Q.
Proof. by apply Qpower_0_lt. Qed.

Lemma pow2_Z e : 0 <= e -> (inject_Z (2 ^ e) == 2 ^ e)%Q.
Proof. intros He. by rewrite Zpower_Qpower. Qed.

Lemma pow2_plus a b : (2 ^ (a + b) == 2 ^ a * 2 ^ b)%Q.
Proof. by apply Qpower_plus. Qed.

(** A quotient of powers of two. *)
Lemma pow2_div a b : (2 ^ a / 2 ^ b == 2 ^ (a - b))%Q.
Proof. by rewrite Qpower_minus. Qed.

(** [floorLog2] is the exponent it is meant to be. *)
Lemma floorLog2_spec x :
  (0 < x)%Q -> (2 ^ floorLog2 x <= x)%Q /\ (x < 2 ^ (floorLog2 x + 1))%Q.
Proof.
  intros Hx. unfold floorLog2.
  set (n := Qnum x). set (d := Z.pos (Qden x)).
  assert (0 < n) as Hn.
  { destruct x as [n' d']. unfold Qlt in Hx. cbn in *. subst n. lia. }
  assert (0 < d) as Hd by (subst d; lia).
  destruct (Z.log2_spec n Hn) as [Hn1 Hn2]. destruct (Z.log2_spec d Hd) as [Hd1 Hd2].
  pose proof (Z.log2_nonneg n) as Ha. pose proof (Z.log2_nonneg d) as Hb.
  set (a := Z.log2 n) in *. set (b := Z.log2 d) in *.
  assert (x * inject_Z d == inject_Z n)%Q as Hxd.
  { destruct x as [n' d']. unfold Qeq, Qmult, inject_Z. cbn. subst n d. cbn. lia. }
  rewrite Zle_Qle, pow2_Z in Hn1, Hd1 by lia.
  rewrite <- Z.add_1_r, Zlt_Qlt, pow2_Z in Hn2, Hd2 by lia.
  pose proof (pow2_pos b) as Hpb. pose proof (pow2_pos (b + 1)) as Hpb1.
  pose proof (pow2_pos (a - b - 1)) as Hlo.
  (* the bounds 2^(a-b-1) < x < 2^(a-b+1) *)
  assert (x < 2 ^ (a - b + 1))%Q as Hup.
  { apply (Qmult_lt_r _ _ (2 ^ b) Hpb). rewrite <- pow2_plus.
    replace (a - b + 1 + b) with (a + 1) by lia.
    apply Qle_lt_trans with (x * inject_Z d)%Q; [| by rewrite Hxd].
    apply Qmult_le_l; [exact Hx | exact Hd1]. }
  assert (2 ^ (a - b - 1) < x)%Q as Hdown.
  { apply (Qmult_lt_r _ _ (2 ^ (b + 1)) Hpb1). rewrite <- pow2_plus.
    replace (a - b - 1 + (b + 1)) with a by lia.
    apply Qle_lt_trans with (x * inject_Z d)%Q; [by rewrite Hxd |].
    apply Qmult_lt_l; [exact Hx | exact Hd2]. }
  destruct (Qle_bool (2 ^ (a - b)) x) eqn:Hc.
  - apply Qle_bool_iff in Hc. split; [exact Hc | exact Hup].
  - split; [apply Qlt_le_weak, Hdown |].
    replace (a - b - 1 + 1) with (a - b) by lia.
    apply Qnot_le_lt. intros Hle. apply Qle_bool_iff in Hle. congruence.
Qed.

Lemma floorLog2_le x y : (0 < x)%Q -> (x <= y)%Q -> floorLog2 x <= floorLog2 y.
Proof.
  intros Hx Hxy.
  destruct (floorLog2_spec x Hx) as [Hx1 _].
  destruct (floorLog2_spec y) as [_ Hy2]; [lra |].
  assert (2 ^ floorLog2 x < 2 ^ (floorLog2 y + 1))%Q as H by lra.
  apply Qpower_lt_compat_l_inv in H; [lia | reflexivity].
Qed.

Lemma ulpExp_le x y : (0 < x)%Q -> (x <= y)%Q -> ulpExp x <= ulpExp y.
Proof. intros Hx Hxy. pose proof (floorLog2_le x y Hx Hxy). unfold ulpExp. lia. Qed.

(** A power of two that is a multiple of the unit in the last place is
    left as it is. *)
Lemma scaled_pow2 e q : q <= e -> (2 ^ e / 2 ^ q == inject_Z (2 ^ (e - q)))%Q.
Proof. intros H. rewrite pow2_div, pow2_Z by lia. reflexivity. Qed.

Lemma roundPos_le x y : (0 < x)%Q -> (x <= y)%Q -> (roundPos x <= roundPos y)%Q.
Proof.
  intros Hx Hxy. assert (0 < y)%Q as Hy by lra.
  pose proof (ulpExp_le x y Hx Hxy) as Hq. unfold roundPos.
  pose proof (pow2_pos (ulpExp x)) as Hpx. pose proof (pow2_pos (ulpExp y)) as Hpy.
  destruct (Z.eq_dec (ulpExp x) (ulpExp y)) as [Heq | Hne].
  - rewrite <- Heq. apply Qmult_le_compat_r; [| lra].
    rewrite <- Zle_Qle. apply roundEven_le.
    apply Qmult_le_compat_r; [exact Hxy |]. apply Qlt_le_weak, Qinv_lt_0_compat, Hpx.
  - assert (ulpExp x < ulpExp y) as Hlt by lia.
    assert (ulpExp y = floorLog2 y - 52) as Hqy by (unfold ulpExp in *; lia).
    set (e := floorLog2 y) in *.
    destruct (floorLog2_spec y Hy) as [Hy1 _]. fold e in Hy1.
    assert (x < 2 ^ e)%Q as Hxe.
    { destruct (floorLog2_spec x Hx) as [_ Hx2].
      eapply Qlt_le_trans; [exact Hx2 |].
      apply Qpower_le_compat_l; [| discriminate]. unfold ulpExp in *. lia. }
    apply Qle_trans with (2 ^ e)%Q.
    + apply Qle_trans with (inject_Z (2 ^ (e - ulpExp x)) * 2 ^ ulpExp x)%Q.
      * apply Qmult_le_compat_r; [| lra]. rewrite <- Zle_Qle.
        rewrite <- (roundEven_Z (2 ^ (e - ulpExp x))). apply roundEven_le.
        rewrite <- scaled_pow2 by lia.
        apply Qmult_le_compat_r; [lra |]. apply Qlt_le_weak, Qinv_lt_0_compat, Hpx.
      * rewrite pow2_Z, <- pow2_plus by lia.
        replace (e - ulpExp x + ulpExp x) with e by lia. apply Qle_refl.
    + apply Qle_trans with (inject_Z (2 ^ (e - ulpExp y)) * 2 ^ ulpExp y)%Q.
      * rewrite pow2_Z, <- pow2_plus by lia.
        replace (e - ulpExp y + ulpExp y) with e by lia. apply Qle_refl.
      * apply Qmult_le_compat_r; [| lra]. rewrite <- Zle_Qle.
        rewrite <- (roundEven_Z (2 ^ (e - ulpExp y))) at 1. apply roundEven_le.
        rewrite <- scaled_pow2 by lia.
        apply Qmult_le_compat_r; [exact Hy1 |]. apply Qlt_le_weak, Qinv_lt_0_compat, Hpy.
Qed.

Lemma roundPos_nonneg x : (0 < x)%Q -> (0 <= roundPos x)%Q.
Proof.
  intros Hx. unfold roundPos. pose proof (pow2_pos (ulpExp x)) as Hp.
  apply Qmult_le_0_compat; [| lra].
  change 0%Q with (inject_Z 0). rewrite <- Zle_Qle.
  rewrite <- (roundEven_Z 0). apply roundEven_le.
  apply Qmult_le_0_compat; [lra |]. apply Qlt_le_weak, Qinv_lt_0_compat, Hp.
Qed.

(** Rounding to a double keeps the order of numbers. *)
Lemma toDouble_le x y : (x <= y)%Q -> (toDouble x <= toDouble y)%Q.
Proof.
  intros Hxy. unfold toDouble.
  destruct (x ?= 0)%Q eqn:Hcx; destruct (y ?= 0)%Q eqn:Hcy;
    qcmp Hcx; qcmp Hcy; try (exfalso; lra).
  - apply Qle_refl.
  - by apply roundPos_nonneg.
  - pose proof (roundPos_nonneg (- x)). lra.
  - pose proof (roundPos_le (- y) (- x)). lra.
  - pose proof (roundPos_nonneg (- x)). pose proof (roundPos_nonneg y). lra.
  - by apply roundPos_le.
Qed.

Lemma roundPos_Z z : 0 < z < 2 ^ 53 -> (roundPos (inject_Z z) == inject_Z z)%Q.
Proof.
  intros [Hz1 Hz2].
  assert (0 < inject_Z z)%Q as Hz by (change 0%Q with (inject_Z 0); by rewrite <- Zlt_Qlt).
  destruct (floorLog2_spec _ Hz) as [He1 He2].
  assert (floorLog2 (inject_Z z) < 53) as He.
  { assert (2 ^ floorLog2 (inject_Z z) < 2 ^ 53)%Q as H.
    { eapply Qle_lt_trans; [exact He1 |]. rewrite <- (pow2_Z 53) by lia.
      by rewrite <- Zlt_Qlt. }
    apply Qpower_lt_compat_l_inv in H; [lia | reflexivity]. }
  unfold roundPos. set (q := ulpExp (inject_Z z)).
  assert (-1074 <= q <= 0) as Hq by (subst q; unfold ulpExp; lia).
  pose proof (pow2_pos q) as Hp.
  assert (inject_Z z / 2 ^ q == inject_Z (z * 2 ^ (- q)))%Q as Hs.
  { rewrite inject_Z_mult, pow2_Z, Qpower_opp by lia. reflexivity. }
  rewrite (roundEven_comp _ _ Hs), roundEven_Z.
  rewrite inject_Z_mult, pow2_Z, Qpower_opp by lia. field. lra.
Qed.

(** An integer below 2^53 in size is a double. *)
Lemma toDouble_Z z : - 2 ^ 53 < z < 2 ^ 53 -> (toDouble (inject_Z z) == inject_Z z)%Q.
Proof.
  intros Hz. unfold toDouble.
  destruct (inject_Z z ?= 0)%Q eqn:Hc; qcmp Hc.
  - by rewrite Hc.
  - change 0%Q with (inject_Z 0) in Hc. rewrite <- Zlt_Qlt in Hc.
    rewrite <- inject_Z_opp, roundPos_Z by lia. rewrite inject_Z_opp. ring.
  - change 0%Q with (inject_Z 0) in Hc. rewrite <- Zlt_Qlt in Hc.
    apply roundPos_Z. lia.
Qed.

(** X11. With every operation rounded to a double as the program rounds
    it, the conversion keeps the order of high-resolution times, whole
    seconds first and then nanoseconds, as long as the seconds times
    1000 stay below 2^53 in size, the nanoseconds of the earlier time
    are below a second and those of the later one are not negative. *)
Theorem hrTimeToMs_monotone (s1 s2 : Z) (n1 n2 : Q) :
  - 2 ^ 53 < s1 * 1000 < 2 ^ 53 ->
  - 2 ^ 53 < s2 * 1000 < 2 ^ 53 ->
  (n1 < 1000000000)%Q -> (0 <= n2)%Q ->
  s1 < s2 \/ (s1 = s2 /\ (n1 <= n2)%Q) ->
  (hrTimeToMs_double (inject_Z s1, n1) <= hrTimeToMs_double (inject_Z s2, n2))%Q.
Proof.
  intros Hs1 Hs2 H1' H2 Hord. unfold hrTimeToMs_double. cbn [fst snd].
  apply toDouble_le.
  assert (/ 1000000 == 1 # 1000000)%Q as Hinv by reflexivity.
  assert (toDouble (n1 / 1000000) <= 1000)%Q as Hn1.
  { change 1000%Q with (inject_Z 1000). rewrite <- (toDouble_Z 1000) by lia.
    apply toDouble_le. unfold Qdiv. rewrite Hinv. change (inject_Z 1000) with 1000%Q. lra. }
  assert (0 <= toDouble (n2 / 1000000))%Q as Hn2.
  { change 0%Q with (toDouble 0). apply toDouble_le. unfold Qdiv. rewrite Hinv. lra. }
  assert (forall s : Z, - 2 ^ 53 < s * 1000 < 2 ^ 53 ->
            (toDouble (inject_Z s * 1000) == inject_Z s * 1000)%Q) as Hexact.
  { intros s Hs. change 1000%Q with (inject_Z 1000).
    rewrite <- inject_Z_mult. by apply toDouble_Z. }
  destruct Hord as [Hlt | [-> Hle]].
  - assert (inject_Z s1 + 1 <= inject_Z s2)%Q as Hs.
    { change 1%Q with (inject_Z 1). rewrite <- inject_Z_plus, <- Zle_Qle. lia. }
    rewrite (Hexact s1 Hs1), (Hexact s2 Hs2). lra.
  - apply Qplus_le_r. apply toDouble_le. unfold Qdiv. rewrite Hinv. lra.
Qed.

Lemma hrTimeToMs_monotone_witness :
  (hrTimeToMs_double (inject_Z 1, 999999999) <= hrTimeToMs_double (inject_Z 2, 0))%Q.
Proof.
  apply (hrTimeToMs_monotone 1 2 999999999 0).
  - lia.
  - lia.
  - reflexivity.
  - unfold Qle; simpl; lia.
  - left. lia.
Defined.

(** Beyond that bound the product is rounded and the order can be
    reversed: these two times are one nanosecond apart. *)
Example hrTimeToMs_double_reverses :
  (hrTimeToMs_double (inject_Z 8468129703804907, 0) <
   hrTimeToMs_double (inject_Z 8468129703804906, 999999999))%Q.
Proof. vm_compute. reflexivity. Qed.

(** ** The spans below the root *)

Section Descendants.
Variable spans : list SpanData.
Local Abbreviation chainTo := (chainTo spans).

Lemma chain_last r L : chainTo r L -> last L = Some r.
Proof. induction 1 as [| c i A _ _ IH]; [reflexivity | exact IH]. Qed.

Lemma chain_app r c i L A :
  chainTo c L -> parentAt spans c = Some i -> chainTo r (i :: A) ->
  chainTo r (L ++ i :: A).
Proof.
  intros HL Hp HA. induction HL as [| x y L' Hx _ IH].
  - by apply chain_step.
  - cbn. apply chain_step; [exact Hx | exact IH].
Qed.

Lemma chain_functional r x L1 L2 :
  chainTo r (x :: L1) -> chainTo r (x :: L2) -> length L1 = length L2 -> L1 = L2.
Proof.
  revert x L2. induction L1 as [| i A IH]; intros x L2 H1 H2 Hlen.
  - by destruct L2.
  - destruct L2 as [| i' A']; [discriminate |].
    inversion H1 as [| ? ? ? Hp H1']; subst.
    inversion H2 as [| ? ? ? Hp' H2']; subst.
    assert (i' = i) as -> by congruence.
    f_equal. apply (IH i); [exact H1' | exact H2' | cbn in Hlen; lia].
Qed.

Lemma chain_last_step_length i k B :
  chainTo i (k :: B) ->
  (k = i /\ B = []) \/
  exists c B', parentAt spans c = Some i /\ chainTo c (k :: B') /\
               length B = S (length B').
Proof.
  revert k. induction B as [| x B IH]; intros k Hch.
  - inversion Hch. by left.
  - inversion Hch as [| ? ? ? Hp Hch']; subst. right.
    destruct (IH x Hch') as [[-> ->] | (c & B' & Hc & Hcb & Hlen)].
    + exists k, []. split; [exact Hp |]. split; [constructor | reflexivity].
    + exists c, (x :: B'). split; [exact Hc |].
      split; [by constructor | cbn; lia].
Qed.

Lemma chain_iff_ancestor r j d :
  (exists B, chainTo r (j :: B) /\ length B = d) <-> ancestor spans d j = Some r.
Proof.
  split.
  - intros (B & HB & <-). by apply chain_ancestor.
  - apply ancestor_chain.
Qed.

(** Two ancestors of one span that have no parent among the spans are
    the same span. *)
Lemma ancestor_top_unique j d1 d2 a b :
  ancestor spans d1 j = Some a -> ancestor spans d2 j = Some b ->
  parentAt spans a = None -> parentAt spans b = None -> a = b.
Proof.
  revert j d2. induction d1 as [| d1 IH]; intros j d2 H1 H2 Ha Hb.
  - injection H1 as ->. destruct d2 as [| d2]; [by injection H2 |].
    cbn in H2. rewrite Ha in H2. discriminate.
  - cbn in H1. destruct (parentAt spans j) as [p |] eqn:Hp; [| discriminate].
    cbn in H1. destruct d2 as [| d2].
    + injection H2 as ->. congruence.
    + cbn in H2. rewrite Hp in H2. cbn in H2. exact (IH p d2 H1 H2 Ha Hb).
Qed.
End Descendants.

Lemma treeWorld_reaches spans h0 ch tl out r L :
  (forall k, ch k ≡ₚ loc_of h0 <$> kidsOf spans k) ->
  (r < length spans)%nat ->
  chainTo spans r L ->
  forall j, head L = Some j ->
  reachable (heap (treeWorld spans h0 ch tl out)) (loc_of h0 r) (loc_of h0 j).
Proof.
  intros Hperm Hr. induction 1 as [| c i A Hc Hch IH]; intros j Hj.
  - injection Hj as <-. constructor.
  - injection Hj as <-.
    pose proof (chain_bound spans r _ Hr Hch) as Hb. inversion Hb as [| ? ? Hi _]; subst.
    destruct (lookup_lt_is_Some_2 spans i Hi) as [si Hsi].
    apply (reach_child _ _ (loc_of h0 i) si (ch i)).
    + by apply IH.
    + by apply treeWorld_node.
    + rewrite (Hperm i). apply list_elem_of_fmap. exists c.
      split; [reflexivity |]. by apply elem_of_kidsOf.
Qed.

Lemma buildSpanTree_children_sorted_witness :
  exists fuel w' r,
    buildSpanTree fuel (spansRef threeSpans) (worldOf threeSpans) = (w', Ok (Some r)) /\
    forall l s ch,
      reachable (heap w') r l -> heap w' !! l = Some (ONode s ch) ->
      childrenSorted (heap w') ch.
Proof.
  apply (buildSpanTree_children_sorted (worldOf threeSpans) (spansRef threeSpans)
           threeSpans).
  - apply worldOf_holds.
  - apply (bool_decide_unpack _). vm_compute. exact I.
  - exists (mkSpan "A" None 0 100). split; [left | reflexivity].
Defined.

(** X12. The tree holds the root and the spans that descend from it, each
    under the node of its parent, and no other: the node of a span is in
    the tree exactly when following the parent links from the span leads
    to the root. *)
Theorem buildSpanTree_holds_the_descendants
    (w : world) (a : loc) (spans : list SpanData) :
  holdsSpans w a spans ->
  NoDup (spanId <$> spans) ->
  (exists s, s ∈ spans /\ parentless s) ->
  exists fuel w' r,
    buildSpanTree fuel a w = (w', Ok (Some (nodeOf w r))) /\
    forall l,
      reachable (heap w') (nodeOf w r) l <->
      exists j d, l = nodeOf w j /\ ancestor spans d j = Some r.
Proof.
  intros Hw Hnd Hpl.
  assert (spans <> []) as Hne.
  { destruct Hpl as (s & Hs & _). intros ->. by apply elem_of_nil in Hs. }
  destruct (buildSpanTree_linked w a spans Hw Hnd Hne (or_introl Hpl))
    as (ch & tl & r & Hrun & Hperm & Hr & Hacyc & _).
  eexists _, _, r. split; [exact Hrun |].
  intros l. split.
  - intros Hreach.
    destruct (treeWorld_reachable spans (heap w) ch tl (console w) r l Hperm Hr Hreach)
      as (j & B & -> & _ & HB).
    exists j, (length B). split; [reflexivity |]. by apply chain_ancestor.
  - intros (j & d & -> & Hd).
    apply ancestor_chain in Hd as (B & HB & _).
    by apply (treeWorld_reaches spans (heap w) ch tl (console w) r (j :: B)).
Qed.

Lemma buildSpanTree_holds_the_descendants_witness :
  exists fuel w' r,
    buildSpanTree fuel (spansRef withOrphan) (worldOf withOrphan) =
      (w', Ok (Some (nodeOf (worldOf withOrphan) r))) /\
    forall l,
      reachable (heap w') (nodeOf (worldOf withOrphan) r) l <->
      exists j d, l = nodeOf (worldOf withOrphan) j /\ ancestor withOrphan d j = Some r.
Proof.
  apply (buildSpanTree_holds_the_descendants (worldOf withOrphan) (spansRef withOrphan)
           withOrphan).
  - apply worldOf_holds.
  - apply (bool_decide_unpack _). vm_compute. exact I.
  - exists (mkSpan "A" None 0 100). split; [left | reflexivity].
Defined.

(** X13. Of several parentless spans only the last is kept: an earlier one,
    and every span that descends from it, is nowhere in the tree. *)
Theorem buildSpanTree_drops_earlier_roots
    (w : world) (a : loc) (spans : list SpanData)
    (i i' j d : nat) (p p' : SpanData) :
  holdsSpans w a spans ->
  NoDup (spanId <$> spans) ->
  spans !! i = Some p -> parentless p ->
  spans !! i' = Some p' -> parentless p' -> (i < i')%nat ->
  ancestor spans d j = Some i ->
  exists fuel w' r,
    buildSpanTree fuel a w = (w', Ok (Some r)) /\
    ~ reachable (heap w') r (nodeOf w j).
Proof.
  intros Hw Hnd Hi Hp Hi' Hp' Hlt Hd.
  destruct Hw as (elems & Harr & Hrecs).
  destruct (parentless_rootUpTo spans p (list_elem_of_lookup_2 _ _ _ Hi) Hp) as [r Hroot].
  pose proof Hroot as Hroot'.
  apply rootUpTo_Some in Hroot' as (Hr & Hrt & Hlast).
  destruct (buildSpanTree_root_run spans (heap w) elems Hrecs Hnd a Harr (console w)
              (length spans) r Hroot (Nat.le_refl _)) as (ch & Hrun & Hperm & _).
  rewrite <- world_eta in Hrun.
  eexists _, _, _. split; [exact Hrun |].
  intros Hreach.
  destruct (treeWorld_reachable spans (heap w) ch [] (console w) r _ Hperm Hr Hreach)
    as (j' & B & Hj & _ & HB).
  assert (j' = j) as -> by (unfold nodeOf, loc_of in Hj; lia).
  apply chain_ancestor in HB.
  assert (rootAt spans i = true) as Hri by (apply rootAt_true; eauto).
  assert (rootAt spans i' = true) as Hri' by (apply rootAt_true; eauto).
  assert (i = r) as ->.
  { apply (ancestor_top_unique spans j d (length B)); auto using rootAt_parentAt. }
  rewrite Hlast in Hri'; [discriminate |].
  split; [exact Hlt | eapply lookup_lt_Some, Hi'].
Qed.

Lemma buildSpanTree_drops_earlier_roots_witness :
  exists fuel w' r,
    buildSpanTree fuel (spansRef twoRoots) (worldOf twoRoots) = (w', Ok (Some r)) /\
    ~ reachable (heap w') r (nodeOf (worldOf twoRoots) 0).
Proof.
  apply (buildSpanTree_drops_earlier_roots (worldOf twoRoots) (spansRef twoRoots)
           twoRoots 0%nat 1%nat 0%nat 0%nat (mkSpan "X" None 5 1) (mkSpan "Y" None 1 1)).
  - apply worldOf_holds.
  - apply (bool_decide_unpack _). vm_compute. exact I.
  - reflexivity.
  - reflexivity.
  - reflexivity.
  - reflexivity.
  - lia.
  - reflexivity.
Defined.

(** X14. Without a parentless span nothing sorts the tree: the children of
    every node, in the tree and outside of it, are the spans that name it
    as their parent, in the order of the input. *)
Theorem buildSpanTree_fallback_keeps_input_order
    (w : world) (a : loc) (spans : list SpanData) :
  holdsSpans w a spans ->
  NoDup (spanId <$> spans) ->
  spans <> [] ->
  (forall s, s ∈ spans -> ~ parentless s) ->
  exists w' r,
    (forall fuel, buildSpanTree fuel a w = (w', Ok (Some r))) /\
    forall k s, spans !! k = Some s ->
      heap w' !! nodeOf w k = Some (ONode s (nodeOf w <$> kidsOf spans k)).
Proof.
  intros (elems & Harr & Hrecs) Hnd Hne Hno.
  destruct (buildSpanTree_fallback_run spans (heap w) elems Hrecs Hnd a Harr (console w)
              (no_parentless_rootUpTo spans Hno) Hne)
    as (i & root & sorted & _ & _ & Hrun).
  rewrite <- world_eta in Hrun.
  eexists _, _. split; [exact Hrun |].
  intros k s Hs. by apply treeWorld_node.
Qed.

Lemma buildSpanTree_fallback_keeps_input_order_witness :
  exists w' r,
    (forall fuel,
       buildSpanTree fuel (spansRef noRoot) (worldOf noRoot) = (w', Ok (Some r))) /\
    forall k s, noRoot !! k = Some s ->
      heap w' !! nodeOf (worldOf noRoot) k =
        Some (ONode s (nodeOf (worldOf noRoot) <$> kidsOf noRoot k)).
Proof.
  apply (buildSpanTree_fallback_keeps_input_order (worldOf noRoot) (spansRef noRoot) noRoot).
  - apply worldOf_holds.
  - apply (bool_decide_unpack _). vm_compute. exact I.
  - discriminate.
  - intros s Hs Hp.
    repeat (apply elem_of_cons in Hs as [-> | Hs]; [vm_compute in Hp; discriminate |]).
    by apply elem_of_nil in Hs.
Defined.

(** ** One line for each span below a node *)

Section Rows.
Variable spans : list SpanData.
Variable h0 : list obj.
Variable r : nat.
Hypothesis Hr : (r < length spans)%nat.
Hypothesis Hacyc : forall y B, ~ chainTo spans r (r :: y :: B).
Variable ch : nat -> list loc.
Variable tl : list obj.
Variable out : list jsstring.
Hypothesis Hperm : forall k, ch k ≡ₚ loc_of h0 <$> kidsOf spans k.
Variable totalDuration traceStartTime : Q.

Local Abbreviation chainTo := (chainTo spans).
Local Abbreviation loc_of := (loc_of h0).
Local Abbreviation W := (treeWorld spans h0 ch tl out).
Local Abbreviation rowLine := (rowLine spans totalDuration traceStartTime).

(** The subtrees of two children of one node share no span. *)
Lemma chain_one_child i A c0 c j B0 B' :
  chainTo r (i :: A) ->
  parentAt spans c0 = Some i -> parentAt spans c = Some i ->
  chainTo c0 (j :: B0) -> chainTo c (j :: B') -> c0 = c.
Proof.
  intros HA Hc0 Hc H0 H'.
  pose proof (chain_app spans r c0 i _ A H0 Hc0 HA) as L0.
  pose proof (chain_app spans r c i _ A H' Hc HA) as L'.
  cbn in L0, L'.
  destruct (Nat.lt_total (length (B0 ++ i :: A)) (length (B' ++ i :: A)))
    as [Hlt | [Heq | Hgt]].
  - destruct (chain_det spans r j _ _ L0 L' Hlt) as (y & B & Hbad).
    destruct (Hacyc _ _ Hbad).
  - pose proof (chain_functional spans r j _ _ L0 L' Heq) as HB.
    apply app_inv_tail in HB. subst B'.
    apply chain_last in H0, H'. congruence.
  - destruct (chain_det spans r j _ _ L' L0 Hgt) as (y & B & Hbad).
    destruct (Hacyc _ _ Hbad).
Qed.

(** A node is not in the subtree of its child. *)
Lemma chain_not_below_child i A c B' :
  chainTo r (i :: A) -> parentAt spans c = Some i -> ~ chainTo c (i :: B').
Proof.
  intros HA Hc H'.
  pose proof (chain_app spans r c i _ A H' Hc HA) as L'. cbn in L'.
  destruct (chain_det spans r i A (B' ++ i :: A) HA L') as (y & B & Hbad).
  - rewrite length_app. cbn. lia.
  - exact (Hacyc _ _ Hbad).
Qed.

Lemma child_position i c :
  parentAt spans c = Some i -> exists t, ch i !! t = Some (loc_of c).
Proof.
  intros Hc. apply list_elem_of_lookup_1. rewrite (Hperm i).
  apply list_elem_of_fmap. exists c. split; [reflexivity |]. by apply elem_of_kidsOf.
Qed.

Lemma children_NoDup i : NoDup (ch i).
Proof. rewrite (Hperm i). apply kidsOf_NoDup. Qed.

Lemma position_child i t c :
  ch i !! t = Some (loc_of c) -> parentAt spans c = Some i.
Proof.
  intros Ht. apply list_elem_of_lookup_2 in Ht.
  destruct (treeInv_children spans h0 ch tl out i _ Hperm Ht) as (c' & _ & Heq & Hc & _).
  apply loc_of_inj in Heq. by subst.
Qed.

(** The renderer below a node: one line for the node and for each span
    that descends from it, and no other line. *)
Lemma renderNode_rows fuel :
  forall i A lines prefix isLast isRoot,
  chainTo r (i :: A) ->
  (length spans - length A <= fuel)%nat ->
  exists rows new,
    renderNode fuel totalDuration traceStartTime lines (loc_of i) prefix isLast isRoot W
      = (W, Ok (lines ++ new)) /\
    Forall2 (rowLine prefix isLast isRoot) rows new /\
    NoDup rows.*1 /\
    head rows = Some (i, 0%nat) /\
    (forall j d, (j, d) ∈ rows <-> exists B, chainTo i (j :: B) /\ length B = d) /\
    parentsFirst spans rows.
Proof.
  induction fuel as [| fuel IH]; intros i A lines prefix isLast isRoot Hch Hfuel.
  { pose proof (chain_length spans r Hr Hacyc _ Hch) as Hlen. cbn in Hlen. lia. }
  pose proof (chain_head_lt spans r Hr _ _ Hch) as Hi.
  destruct (lookup_lt_is_Some_2 spans i Hi) as [s Hs].
  cbn [renderNode].
  rewrite bind_run, (readNode_run _ _ _ _ (treeWorld_node spans h0 ch tl out i s Hs)).
  destruct (renderLine_returns s totalDuration traceStartTime prefix isLast isRoot)
    as [line Hline].
  rewrite bind_run. unfold liftR at 1. rewrite Hline.
  set (childPrefix := if isRoot then [] else prefix ++ _).
  assert (length childPrefix = if isRoot then 0 else length prefix + 3)%nat as Hcp.
  { subst childPrefix. destruct isRoot; [reflexivity |].
    rewrite length_app. by destruct isLast. }
  set (body := fun (lines : list jsstring) (ic : nat * loc) =>
                 renderNode fuel _ _ lines _ _ _ _).
  set (Inv := fun (idx : nat) (ls : list jsstring) (w : world) =>
                w = W /\ exists rows new,
                  ls = (lines ++ [line]) ++ new /\
                  Forall2 (rowLine prefix isLast isRoot) rows new /\
                  NoDup rows.*1 /\
                  (forall j d, (j, d) ∈ rows <->
                     exists t c B', (t < idx)%nat /\ ch i !! t = Some (loc_of c) /\
                                    chainTo c (j :: B') /\ d = S (length B')) /\
                  (forall p j d, rows !! p = Some (j, d) ->
                     (d = 1%nat /\ parentAt spans j = Some i) \/
                     exists d' p' k, d = S (S d') /\ (p' < p)%nat /\
                       rows !! p' = Some (k, S d') /\ parentAt spans j = Some k)).
  assert (forall idx ls x, imap pair (ch i) !! idx = Some x ->
            triple (Inv idx ls) (body ls x) (Inv (S idx)) (fun _ => False)) as Hstep.
  { intros idx ls [idx' x] Hx w (-> & rows & new & -> & Hrows & Hnd & Hmem & Hpf).
    rewrite list_lookup_imap in Hx.
    destruct (ch i !! idx) as [x' |] eqn:Hx'; [| discriminate].
    injection Hx as <- <-.
    destruct (treeInv_children spans h0 ch tl out i x' Hperm
                (list_elem_of_lookup_2 _ _ _ Hx')) as (c & _ & -> & Hc & _).
    unfold body. cbn [fst snd].
    edestruct (IH c (i :: A)) as (rows' & new' & -> & Hrows' & Hnd' & _ & Hmem' & Hpf');
      [by apply chain_step | cbn; lia |].
    split; [reflexivity |].
    exists (rows ++ (prod_map id S <$> rows')), (new ++ new').
    split; [by rewrite !app_assoc |]. split; [| split; [| split]].
    - apply Forall2_app; [exact Hrows |].
      apply Forall2_fmap_l. eapply Forall2_impl; [exact Hrows' |].
      intros [j d] l (sj & p & il & Hsj & Hl & Hp). cbn [fst snd] in *.
      exists sj, p, il. cbn [prod_map fst snd id]. split; [exact Hsj |]. split.
      + by destruct d.
      + rewrite Hp. destruct d; lia.
    - rewrite fmap_app. apply NoDup_app. split; [exact Hnd |]. split.
      + intros j Hj Hj'.
        apply list_elem_of_fmap in Hj as ([j0 d0] & -> & Hin). cbn [fst] in *.
        apply Hmem in Hin as (t & c0 & B0 & Ht & Hc0 & HB0 & _).
        rewrite <- list_fmap_compose in Hj'.
        apply list_elem_of_fmap in Hj' as ([j1 d1] & Heq & Hin').
        cbn in Heq. subst j1.
        apply Hmem' in Hin' as (B' & HB' & _).
        assert (c0 = c) as ->.
        { apply (chain_one_child i A c0 c j0 B0 B' Hch); auto.
          eapply position_child, Hc0. }
        pose proof (children_NoDup i) as Hndc.
        pose proof (NoDup_lookup _ _ _ _ Hndc Hc0 Hx'). lia.
      + assert ((prod_map id S <$> rows').*1 = rows'.*1) as ->; [| exact Hnd'].
        rewrite <- list_fmap_compose. apply list_fmap_ext. by intros ? [].
    - intros j d. rewrite elem_of_app, Hmem. split.
      + intros [(t & c0 & B0 & Ht & H) | Hin].
        * exists t, c0, B0. split; [lia | exact H].
        * apply list_elem_of_fmap in Hin as ([j1 d1] & [= -> ->] & Hin).
          apply Hmem' in Hin as (B' & HB' & <-).
          exists idx, c, B'. repeat split; [lia | exact Hx' | exact HB'].
      + intros (t & c0 & B0 & Ht & Hc0 & HB0 & ->).
        destruct (decide (t = idx)) as [-> | Hne].
        * right. rewrite Hx' in Hc0. injection Hc0 as Heq%loc_of_inj. subst c0.
          apply list_elem_of_fmap. exists (j, length B0). split; [reflexivity |].
          apply Hmem'. by exists B0.
        * left. exists t, c0, B0. repeat split; [lia | exact Hc0 | exact HB0].
    - intros p j d Hp. apply lookup_app_Some in Hp as [Hp | [Hlen Hp]].
      + destruct (Hpf p j d Hp) as [H1 | (d' & p' & k & -> & Hlt & Hk & Hpar)];
          [by left | right].
        exists d', p', k. repeat split; [exact Hlt | | exact Hpar].
        by apply lookup_app_l_Some.
      + rewrite list_lookup_fmap in Hp.
        destruct (rows' !! (p - length rows)%nat) as [[j0 d0] |] eqn:E; [| discriminate].
        cbn in Hp. injection Hp as <- <-. destruct d0 as [| d1].
        * left. split; [reflexivity |].
          apply list_elem_of_lookup_2, Hmem' in E as (B & HB & Hlen0).
          destruct B; [| discriminate]. inversion HB; subst. exact Hc.
        * right. destruct (Hpf' _ _ _ E) as (q' & k & Hq & Hk & Hpar).
          exists d1, (length rows + q')%nat, k.
          repeat split; [lia | | exact Hpar].
          rewrite lookup_app_r by lia.
          replace (length rows + q' - length rows)%nat with q' by lia.
          by rewrite list_lookup_fmap, Hk. }
  destruct (triple_returns _ _ _ W
              (triple_forOf Inv _ body _ (lines ++ [line]) Hstep))
    as (w' & ls & Hrun & -> & rows & new & -> & Hrows & Hnd & Hmem & Hpf).
  { split; [reflexivity |]. exists [], []. split; [by rewrite app_nil_r |].
    split; [constructor |]. split; [constructor |]. split.
    - intros j d.
      split; [by intros ?%elem_of_nil | intros (t & ? & ? & Ht & _); lia].
    - intros p j d Hp. by rewrite lookup_nil in Hp. }
  fold body. rewrite Hrun. rewrite length_imap in Hmem.
  exists ((i, 0%nat) :: rows), (line :: new).
  split; [by rewrite <- app_assoc |].
  split; [| split; [| split; [reflexivity | split]]].
  - constructor; [| exact Hrows]. by exists s, prefix, isLast.
  - cbn. apply NoDup_cons. split; [| exact Hnd].
    intros Hin. apply list_elem_of_fmap in Hin as ([j0 d0] & Heq & Hin).
    cbn in Heq. subst j0.
    apply Hmem in Hin as (t & c & B' & _ & Hc & HB' & _).
    exact (chain_not_below_child i A c B' Hch (position_child _ _ _ Hc) HB').
  - intros j d. rewrite elem_of_cons, Hmem. split.
    + intros [[= -> ->] | (t & c & B' & _ & Hc & HB' & ->)].
      * exists []. split; [constructor | reflexivity].
      * exists (B' ++ [i]). split.
        -- apply (chain_app spans i c i (j :: B') [] HB' (position_child _ _ _ Hc)).
           constructor.
        -- rewrite length_app. cbn. lia.
    + intros (B & HB & <-).
      destruct (chain_last_step_length spans i j B HB)
        as [[-> ->] | (c & B' & Hc & HB' & Hlen)]; [by left | right].
      destruct (child_position i c Hc) as [t Ht].
      exists t, c, B'.
      repeat split; [eapply lookup_lt_Some, Ht | exact Ht | exact HB' | exact Hlen].
  - intros p j d Hp. destruct p as [| p]; [discriminate |]. cbn in Hp.
    destruct (Hpf p j (S d) Hp) as [[[= ->] Hpar] | (d' & p' & k & [= ->] & Hlt & Hk & Hpar)].
    + exists 0%nat, i. split; [lia |]. split; [reflexivity | exact Hpar].
    + exists (S p'), k. split; [lia |]. split; [exact Hk | exact Hpar].
Qed.
End Rows.

(** ** The sort is stable *)

Lemma js_insert_stable x l :
  StronglySorted startsFirst l ->
  Forall (fun y => x.1 < y.1)%nat l ->
  StronglySorted startsFirst (js_insert byStartTime x l).
Proof.
  induction 1 as [| y l Hl IH Hy]; intros Hx; cbn [js_insert].
  - repeat constructor.
  - inversion Hx as [| ? ? Hxy Hxl]; subst.
    destruct (Qle_bool (byStartTime x y) 0) eqn:E.
    + apply Qle_bool_iff in E. unfold byStartTime in E.
      assert (startTime x.2 <= startTime y.2)%Q as Hle by lra.
      constructor; [by constructor |].
      constructor.
      * unfold startsFirst. destruct (Qlt_le_dec (startTime x.2) (startTime y.2));
          [by left | right; split; [lra | exact Hxy]].
      * rewrite Forall_forall in Hy. rewrite Forall_forall in Hxl.
        rewrite Forall_forall. intros z Hz.
        specialize (Hy z Hz). specialize (Hxl z Hz). unfold startsFirst in *.
        destruct (Qlt_le_dec (startTime x.2) (startTime z.2)); [by left |].
        right. split; [| exact Hxl]. destruct Hy as [? | [? _]]; lra.
    + assert (startTime y.2 < startTime x.2)%Q as Hlt.
      { apply Qnot_le_lt. intros Hle.
        assert (Qle_bool (byStartTime x y) 0 = true)
          by (apply Qle_bool_iff; unfold byStartTime; lra).
        congruence. }
      constructor; [by apply IH |].
      rewrite Forall_forall. intros z Hz.
      rewrite js_insert_perm in Hz. apply elem_of_cons in Hz as [-> | Hz].
      * by left.
      * rewrite Forall_forall in Hy. by apply Hy.
Qed.

Lemma js_sort_stable l :
  StronglySorted (fun x y => x.1 < y.1)%nat l ->
  StronglySorted startsFirst (js_sort byStartTime l).
Proof.
  induction 1 as [| x l _ IH Hx]; cbn [js_sort]; [constructor |].
  apply js_insert_stable; [exact IH |].
  rewrite Forall_forall in Hx. rewrite Forall_forall.
  intros y Hy. apply Hx. by rewrite <- js_sort_perm.
Qed.

Lemma StronglySorted_seq a n : StronglySorted lt (seq a n).
Proof.
  revert a. induction n as [| n IH]; intros a; cbn; constructor; [apply IH |].
  apply Forall_forall. intros x Hx. apply elem_of_seq in Hx. lia.
Qed.

Lemma StronglySorted_filter_lt (P : nat -> Prop) `{!forall x, Decision (P x)} l :
  StronglySorted lt l -> StronglySorted lt (filter P l).
Proof.
  induction 1 as [| x l _ IH Hx]; [constructor |].
  rewrite filter_cons. destruct (decide (P x)); [| exact IH].
  constructor; [exact IH |].
  rewrite Forall_forall in Hx. rewrite Forall_forall.
  intros y [_ Hy]%list_elem_of_filter. by apply Hx.
Qed.

Lemma kidsOf_increasing spans k : StronglySorted lt (kidsOf spans k).
Proof. apply StronglySorted_filter_lt, StronglySorted_seq. Qed.

Lemma StronglySorted_fst (kids : list (loc * SpanData)) :
  StronglySorted lt kids.*1 -> StronglySorted (fun x y => x.1 < y.1)%nat kids.
Proof.
  induction kids as [| x kids IH]; cbn; [constructor |].
  intros H. inversion H as [| ? ? Hs Hx]; subst.
  constructor; [by apply IH |].
  rewrite Forall_forall in Hx. rewrite Forall_forall. intros y Hy. apply Hx.
  apply list_elem_of_fmap. by exists y.
Qed.

Section Stable.
Variable spans : list SpanData.
Variable h0 : list obj.
Variable r : nat.
Hypothesis Hr : (r < length spans)%nat.
Hypothesis Hacyc : forall y B, ~ chainTo spans r (r :: y :: B).
Variable tl : list obj.
Variable out : list jsstring.

Local Abbreviation chainTo := (chainTo spans).
Local Abbreviation loc_of := (loc_of h0).
Local Abbreviation kidsOf := (kidsOf spans).
Local Abbreviation treeWorld := (treeWorld spans h0).
Local Abbreviation stableKids := (stableKids spans h0).
Local Abbreviation stableInv := (stableInv spans h0).

Lemma stableInv_iff (P Q : nat -> Prop) w :
  (forall k, P k <-> Q k) -> stableInv P tl out w -> stableInv Q tl out w.
Proof.
  intros HPQ (ch & -> & Hperm & Hs & Hu). exists ch.
  split; [reflexivity |]. split; [exact Hperm |]. split.
  - intros k Hk. apply Hs, HPQ, Hk.
  - intros k Hk. apply Hu. intros HP. apply Hk, HPQ, HP.
Qed.

(** What the sort writes into a node whose children are in the order of
    the input. *)
Lemma stable_written ch i kids :
  Forall (fun p => heap (treeWorld ch tl out) !! p.1 ≫= fieldsOf = Some p.2) kids ->
  kids.*1 = loc_of <$> kidsOf i ->
  stableKids (js_sort byStartTime kids).*1.
Proof.
  intros Hkids Hfst x y a b sa sb Hxy Hx Hy Ha Hb.
  rewrite list_lookup_fmap in Hx, Hy.
  destruct (js_sort byStartTime kids !! x) as [[la sa'] |] eqn:Ex; [| discriminate].
  destruct (js_sort byStartTime kids !! y) as [[lb sb'] |] eqn:Ey; [| discriminate].
  cbn in Hx, Hy. injection Hx as ->. injection Hy as ->.
  assert (forall c sc sc', spans !! c = Some sc ->
            (loc_of c, sc') ∈ js_sort byStartTime kids -> sc' = sc) as Hfields.
  { intros c sc sc' Hc Hin. rewrite js_sort_perm in Hin.
    rewrite Forall_forall in Hkids. specialize (Hkids _ Hin). cbn [fst snd] in Hkids.
    rewrite (treeWorld_node _ _ _ _ _ _ _ Hc) in Hkids. cbn in Hkids. congruence. }
  rewrite <- (Hfields a sa sa' Ha (list_elem_of_lookup_2 _ _ _ Ex)).
  rewrite <- (Hfields b sb sb' Hb (list_elem_of_lookup_2 _ _ _ Ey)).
  assert (StronglySorted startsFirst (js_sort byStartTime kids)) as Hsorted.
  { apply js_sort_stable, StronglySorted_fst. rewrite Hfst.
    apply StronglySorted_fmap with (R1 := lt); [| apply kidsOf_increasing].
    intros c1 c2. unfold loc_of. lia. }
  destruct (StronglySorted_lookup startsFirst _ x y _ _ Hsorted Hxy Ex Ey)
    as [Hlt | [Heq Hpos]]; cbn [fst snd] in *; [by left | right].
  split; [exact Heq |]. unfold loc_of in Hpos. lia.
Qed.

(** Below [r] the sort returns, and it leaves the children of every node
    it went through in order of start, ties in the order of the input:
    no node is gone through twice. *)
Lemma sortChildren_stable fuel : forall i A (P : nat -> Prop),
  chainTo r (i :: A) ->
  (length spans - length A <= fuel)%nat ->
  (forall k B, chainTo i (k :: B) -> ~ P k) ->
  triple (stableInv P tl out) (sortChildren fuel (loc_of i))
    (fun _ => stableInv (fun k => P k \/ exists B, chainTo i (k :: B)) tl out)
    (fun _ => False).
Proof.
  induction fuel as [| fuel IH]; intros i A P Hch Hfuel Hfresh.
  { pose proof (chain_length spans r Hr Hacyc _ Hch) as Hlen. cbn in Hlen. lia. }
  intros w (ch & -> & Hperm & Hsorted & Hlinked).
  pose proof (chain_head_lt spans r Hr _ _ Hch) as Hi.
  destruct (lookup_lt_is_Some_2 spans i Hi) as [s Hs].
  cbn [sortChildren].
  rewrite bind_run, (readNode_run _ _ _ _ (treeWorld_node spans h0 ch tl out i s Hs)).
  destruct (readAll_returns _ _ (treeInv_readable spans h0 ch tl out i Hperm))
    as (kids & Hrun & Hfst & Hkids).
  rewrite bind_run, Hrun.
  rewrite bind_run, (treeWorld_write spans h0 _ _ _ _ _ _ Hs).
  set (L := (js_sort byStartTime kids).*1).
  assert (L ≡ₚ ch i) as HL by (subst L; by rewrite js_sort_fst_perm, Hfst).
  assert (ch i = loc_of <$> kidsOf i) as Hchi.
  { apply Hlinked. apply (Hfresh i []). constructor. }
  assert (stableKids L) as HLs.
  { apply (stable_written ch i kids Hkids). by rewrite Hfst. }
  assert (NoDup L) as HLnd by (rewrite HL, (Hperm i); apply kidsOf_NoDup).
  assert (forall x c, L !! x = Some (loc_of c) -> parentAt spans c = Some i) as Hpar.
  { intros x c Hx.
    assert (loc_of c ∈ ch i) as Hin by (rewrite <- HL; eapply list_elem_of_lookup_2, Hx).
    destruct (treeInv_children spans h0 ch tl out i _ Hperm Hin) as (c' & _ & Heq & Hc & _).
    apply loc_of_inj in Heq. by subst. }
  set (Q := fun (idx : nat) (k : nat) =>
              P k \/ k = i \/
              exists j c B, (j < idx)%nat /\ L !! j = Some (loc_of c) /\
                            chainTo c (k :: B)).
  set (Inv := fun (idx : nat) => stableInv (Q idx) tl out).
  assert (forall idx x, L !! idx = Some x ->
            triple (Inv idx) (sortChildren fuel x) (fun _ => Inv (S idx)) (fun _ => False))
    as Hstep.
  { intros idx x Hx.
    assert (x ∈ ch i) as Hin by (rewrite <- HL; eapply list_elem_of_lookup_2, Hx).
    destruct (treeInv_children spans h0 ch tl out i x Hperm Hin) as (c & _ & -> & Hc & _).
    eapply triple_conseq;
      [apply (IH c (i :: A) (Q idx)); [by apply chain_step | cbn; lia |]
      | intros w Hw; exact Hw | | auto].
    - intros k B HkB [HP | [-> | (j & c' & B' & Hj & Hc' & HB')]].
      + apply (Hfresh k (B ++ [i])); [| exact HP].
        apply (chain_app spans i c i (k :: B) [] HkB Hc). constructor.
      + exact (chain_not_below_child spans r Hr Hacyc i A c B Hch Hc HkB).
      + assert (c' = c) as ->.
        { apply (chain_one_child spans r Hacyc i A c' c k B' B Hch); auto.
          eapply Hpar, Hc'. }
        pose proof (NoDup_lookup _ _ _ _ HLnd Hc' Hx). lia.
    - intros u w. apply stableInv_iff. intros k. unfold Q. split.
      + intros [[HP | [-> | (j & c' & B & Hj & Hc' & HB)]] | [B HB]].
        * by left.
        * right. by left.
        * right. right. exists j, c', B. split; [lia | by split].
        * right. right. exists idx, c, B. split; [lia | by split].
      + intros [HP | [-> | (j & c' & B & Hj & Hc' & HB)]];
          [left; by left | left; right; by left |].
        destruct (decide (j = idx)) as [-> | Hne].
        * rewrite Hx in Hc'. injection Hc' as ->%loc_of_inj. right. by exists B.
        * left. right. right. exists j, c', B. split; [lia | by split]. }
  pose proof (triple_forEach_at Inv (fun _ => False) (sortChildren fuel) L Hstep
                (treeWorld (<[i := L]> ch) tl out)) as Hres.
  assert (Inv 0%nat (treeWorld (<[i := L]> ch) tl out)) as Hinit.
  { exists (<[i := L]> ch). split; [reflexivity |]. split; [| split].
    - intros k. destruct (decide (k = i)) as [-> | Hne].
      + by rewrite fn_lookup_insert, HL.
      + by rewrite fn_lookup_insert_ne by congruence.
    - intros k Hk. destruct (decide (k = i)) as [-> | Hne].
      + by rewrite fn_lookup_insert.
      + rewrite fn_lookup_insert_ne by congruence.
        destruct Hk as [HP | [-> | (j & _ & _ & Hj & _)]];
          [by apply Hsorted | done | lia].
    - intros k Hk. destruct (decide (k = i)) as [-> | Hne].
      + destruct Hk. right. by left.
      + rewrite fn_lookup_insert_ne by congruence. apply Hlinked.
        intros HP. apply Hk. by left. }
  specialize (Hres Hinit).
  destruct (forEach (sortChildren fuel) L (treeWorld (<[i := L]> ch) tl out))
    as [w' [u | e]]; [| exact Hres].
  eapply stableInv_iff; [| exact Hres].
  intros k. unfold Q. split.
  - intros [HP | [-> | (j & c & B & _ & Hc & HB)]].
    + by left.
    + right. exists []. constructor.
    + right. exists (B ++ [i]).
      apply (chain_app spans i c i (k :: B) [] HB (Hpar _ _ Hc)). constructor.
  - intros [HP | [B HB]]; [by left |].
    destruct (chain_last_step spans i k B HB) as [-> | (c & B' & Hc & HcB)];
      [right; by left |].
    right. right.
    assert (loc_of c ∈ L) as Hin.
    { rewrite HL, (Hperm i). apply list_elem_of_fmap. exists c.
      split; [reflexivity | by apply elem_of_kidsOf]. }
    apply list_elem_of_lookup_1 in Hin as [j Hj].
    exists j, c, B'. split; [eapply lookup_lt_Some, Hj | by split].
Qed.
End Stable.

Lemma buildSpanTree_root_stable spans h0 elems a out fuel r :
  Forall2 (fun l s => h0 !! l ≫= fieldsOf = Some s) elems spans ->
  NoDup (spanId <$> spans) ->
  h0 !! a = Some (OArray elems) ->
  rootUpTo spans (length spans) = Some r ->
  (length spans <= fuel)%nat ->
  exists ch,
    buildSpanTree fuel a {| heap := h0; console := out |} =
      (treeWorld spans h0 ch [] out, Ok (Some (loc_of h0 r))) /\
    (forall k, ch k ≡ₚ loc_of h0 <$> kidsOf spans k) /\
    (forall k B, chainTo spans r (k :: B) -> stableKids spans h0 (ch k)).
Proof.
  intros Hrecs Hnd Harr Hroot Hfuel.
  apply rootUpTo_Some in Hroot as Hr. destruct Hr as (Hr & Hrt & _).
  unfold buildSpanTree.
  rewrite bind_run, (readArray_run {| heap := h0; console := out |} a elems Harr).
  rewrite decide_False by (rewrite (Forall2_length _ _ _ Hrecs); lia).
  rewrite bind_run, (createNodes_run elems spans) by exact Hrecs.
  cbn [heap console].
  rewrite bind_run, (link_loop_run spans h0 elems Hrecs Hnd), Hroot.
  cbn [fmap option_fmap option_map].
  destruct (triple_returns _ _ _ (treeWorld spans h0 (linked spans h0 (length spans)) [] out)
              (sortChildren_stable spans h0 r Hr
                 (fun y B => parentless_acyclic spans r y B Hrt)
                 [] out fuel r [] (fun _ => False) (chain_root r) ltac:(cbn; lia)
                 (fun _ _ _ H => H)))
    as (w' & u & Hrun & ch & -> & Hperm & Hsorted & _).
  { exists (linked spans h0 (length spans)). split; [reflexivity |].
    split; [intros k; reflexivity |]. split; [done |]. intros k _. reflexivity. }
  rewrite bind_run, Hrun. exists ch. split; [reflexivity |]. split; [exact Hperm |].
  intros k B HB. apply Hsorted. right. by exists B.
Qed.

(** X15. With a parentless span, the children of every node of the tree are
    in order of start, and those that start at the same time are in the
    order of the input: the sort is stable and nothing else reorders
    them. *)
Theorem buildSpanTree_siblings_in_stable_order
    (w : world) (a : loc) (spans : list SpanData) :
  holdsSpans w a spans ->
  NoDup (spanId <$> spans) ->
  (exists s, s ∈ spans /\ parentless s) ->
  exists fuel w' r,
    buildSpanTree fuel a w = (w', Ok (Some r)) /\
    forall l s ch,
      reachable (heap w') r l -> heap w' !! l = Some (ONode s ch) ->
      forall i j x y sx sy, (i < j)%nat ->
        ch !! i = Some (nodeOf w x) -> ch !! j = Some (nodeOf w y) ->
        spans !! x = Some sx -> spans !! y = Some sy ->
        (startTime sx < startTime sy)%Q \/
        ((startTime sx == startTime sy)%Q /\ (x < y)%nat).
Proof.
  intros (elems & Harr & Hrecs) Hnd (p & Hp & Hpl).
  destruct (parentless_rootUpTo spans p Hp Hpl) as [r Hroot].
  destruct (buildSpanTree_root_stable spans (heap w) elems a (console w) (length spans) r
              Hrecs Hnd Harr Hroot (Nat.le_refl _)) as (ch & Hrun & Hperm & Hstable).
  rewrite <- world_eta in Hrun.
  apply rootUpTo_Some in Hroot as (Hr & _).
  eexists _, _, _. split; [exact Hrun |].
  intros l s chl Hreach Hl.
  destruct (treeWorld_reachable spans (heap w) ch [] (console w) r l Hperm Hr Hreach)
    as (k & B & -> & Hk & HB).
  destruct (lookup_lt_is_Some_2 spans k Hk) as [sk Hsk].
  rewrite (treeWorld_node _ _ _ _ _ _ _ Hsk) in Hl. injection Hl as <- <-.
  exact (Hstable k B HB).
Qed.

Lemma buildSpanTree_siblings_in_stable_order_witness :
  exists fuel w' r,
    buildSpanTree fuel (spansRef threeSpans) (worldOf threeSpans) = (w', Ok (Some r)) /\
    forall l s ch,
      reachable (heap w') r l -> heap w' !! l = Some (ONode s ch) ->
      forall i j x y sx sy, (i < j)%nat ->
        ch !! i = Some (nodeOf (worldOf threeSpans) x) ->
        ch !! j = Some (nodeOf (worldOf threeSpans) y) ->
        threeSpans !! x = Some sx -> threeSpans !! y = Some sy ->
        (startTime sx < startTime sy)%Q \/
        ((startTime sx == startTime sy)%Q /\ (x < y)%nat).
Proof.
  apply (buildSpanTree_siblings_in_stable_order (worldOf threeSpans) (spansRef threeSpans)
           threeSpans).
  - apply worldOf_holds.
  - apply (bool_decide_unpack _). vm_compute. exact I.
  - exists (mkSpan "A" None 0 100). split; [left | reflexivity].
Defined.


(** ** The rendered tree *)

Lemma renderSpanTree_rows spans h0 r ch tl out totalDuration traceStartTime fuel :
  (r < length spans)%nat ->
  (forall y B, ~ chainTo spans r (r :: y :: B)) ->
  (forall k, ch k ≡ₚ loc_of h0 <$> kidsOf spans k) ->
  (length spans <= fuel)%nat ->
  exists rows lines,
    renderSpanTree fuel (loc_of h0 r) totalDuration traceStartTime
        (treeWorld spans h0 ch tl out) =
      (treeWorld spans h0 ch tl out,
       Ok (js_join [10%N]
             ((replicate nameColWidth SPACE ++ colors_dim ++ str "0ms" ++
               replicate 43 SPACE ++ toFixed totalDuration 0 ++ str "ms" ++
               colors_reset) :: lines))) /\
    Forall2 (rowLine spans totalDuration traceStartTime [] true true) rows lines /\
    NoDup rows.*1 /\
    head rows = Some (r, 0%nat) /\
    (forall j d, (j, d) ∈ rows <-> ancestor spans d j = Some r) /\
    parentsFirst spans rows.
Proof.
  intros Hr Hacyc Hperm Hfuel. unfold renderSpanTree.
  rewrite bind_run. unfold liftR at 1. rewrite js_repeat_ok by lia.
  rewrite bind_run. unfold liftR at 1.
  rewrite js_repeat_ok by (unfold timelineWidth; lia).
  rewrite bind_run.
  match goal with
  | |- context [renderNode _ _ _ ?ls _ _ _ _] =>
      destruct (renderNode_rows spans h0 r Hr Hacyc ch tl out Hperm totalDuration
                  traceStartTime fuel r [] ls [] true true (chain_root r))
        as (rows & new & Hrun & Hrows & Hnd & Hhd & Hmem & Hpf); [cbn; lia |]
  end.
  rewrite Hrun, ret_run. exists rows, new.
  split; [reflexivity |]. split; [exact Hrows |]. split; [exact Hnd |].
  split; [exact Hhd |]. split; [| exact Hpf].
  intros j d. rewrite Hmem. apply chain_iff_ancestor.
Qed.



(** X17. What [renderTrace] logs for a trace it can render: an empty entry,
    the title, the block of the tree and an empty entry.  The title
    shows the first eight code units of the trace id, the duration of
    the root and the number of spans handed in, whether or not they are
    in the tree; the block is the header and the lines of the root and
    of the spans that descend from it, all measured against the start
    and the duration of the root. *)
Theorem renderTrace_logs_title_and_tree
    (w : world) (a : loc) (spans : list SpanData) (traceId : jsstring) :
  holdsSpans w a spans ->
  NoDup (spanId <$> spans) ->
  spans <> [] ->
  (exists s, s ∈ spans /\ parentless s) \/ acyclic spans ->
  exists fuel w' r root rows lines,
    spans !! r = Some root /\
    renderTrace fuel traceId a w = (w', Ok tt) /\
    console w' = console w ++
      [ [];
        colors_bold ++ colors_cyan ++ str "Trace " ++ take 8 traceId ++
          colors_reset ++ str " " ++ colors_dim ++ str "(" ++
          toFixed (duration root) 1 ++ str "ms total, " ++
          digits (N.of_nat (length spans)) ++ str " spans)" ++ colors_reset;
        js_join [10%N]
          ((replicate nameColWidth SPACE ++ colors_dim ++ str "0ms" ++
            replicate 43 SPACE ++ toFixed (duration root) 0 ++ str "ms" ++
            colors_reset) :: lines);
        [] ] /\
    (forall j d, (j, d) ∈ rows <-> ancestor spans d j = Some r) /\
    Forall2 (fun row line =>
               exists s prefix isLast,
                 spans !! row.1 = Some s /\
                 renderLine s (duration root) (startTime root) prefix isLast
                   (bool_decide (row.2 = 0%nat)) = Ok line) rows lines.
Proof.
  intros Hw Hnd Hne Hcond.
  destruct (buildSpanTree_linked w a spans Hw Hnd Hne Hcond)
    as (ch & tl & r & Hbuild & Hperm & Hr & Hacyc & _).
  destruct Hw as (elems & Harr & Hrecs).
  destruct (lookup_lt_is_Some_2 spans r Hr) as [root Hroot].
  exists (length spans). unfold renderTrace. rewrite bind_run, Hbuild.
  rewrite bind_run, (readSpan_run _ _ root)
    by (by rewrite (treeWorld_node _ _ _ _ _ _ _ Hroot)).
  rewrite bind_run, treeWorld_log.
  rewrite bind_run, (readArray_run _ _ elems) by (by apply treeWorld_old).
  rewrite bind_run, treeWorld_log.
  rewrite bind_run.
  match goal with
  | |- context [renderSpanTree _ _ _ _ (treeWorld _ _ _ _ ?o)] =>
      destruct (renderSpanTree_rows spans (heap w) r ch tl o (duration root)
                  (startTime root) (length spans) Hr Hacyc Hperm (Nat.le_refl _))
        as (rows & lines & Hrs & Hrows & _ & _ & Hmem & _)
  end.
  unfold loc_of in Hrs. unfold loc_of. rewrite Hrs. rewrite bind_run, !treeWorld_log.
  eexists _, r, root, rows, lines. split; [exact Hroot |].
  split; [reflexivity |]. split; [| split; [exact Hmem |]].
  - cbn [console treeWorld]. rewrite <- !app_assoc.
    rewrite (Forall2_length _ _ _ Hrecs). reflexivity.
  - eapply Forall2_impl; [exact Hrows |].
    intros [j d] line (s & p & il & Hs & Hl & _). cbn [fst snd] in *.
    exists s, p, il. split; [exact Hs |]. by destruct d.
Qed.

Lemma renderTrace_logs_title_and_tree_witness :
  exists fuel w' r root rows lines,
    threeSpans !! r = Some root /\
    renderTrace fuel (str "0123456789abcdef") (spansRef threeSpans) (worldOf threeSpans)
      = (w', Ok tt) /\
    console w' = console (worldOf threeSpans) ++
      [ [];
        colors_bold ++ colors_cyan ++ str "Trace " ++ take 8 (str "0123456789abcdef") ++
          colors_reset ++ str " " ++ colors_dim ++ str "(" ++
          toFixed (duration root) 1 ++ str "ms total, " ++
          digits (N.of_nat (length threeSpans)) ++ str " spans)" ++ colors_reset;
        js_join [10%N]
          ((replicate nameColWidth SPACE ++ colors_dim ++ str "0ms" ++
            replicate 43 SPACE ++ toFixed (duration root) 0 ++ str "ms" ++
            colors_reset) :: lines);
        [] ] /\
    (forall j d, (j, d) ∈ rows <-> ancestor threeSpans d j = Some r) /\
    Forall2 (fun row line =>
               exists s prefix isLast,
                 threeSpans !! row.1 = Some s /\
                 renderLine s (duration root) (startTime root) prefix isLast
                   (bool_decide (row.2 = 0%nat)) = Ok line) rows lines.
Proof.
  apply (renderTrace_logs_title_and_tree (worldOf threeSpans) (spansRef threeSpans)
           threeSpans).
  - apply worldOf_holds.
  - apply (bool_decide_unpack _). vm_compute. exact I.
  - discriminate.
  - left. exists (mkSpan "A" None 0 100). split; [left | reflexivity].
Defined.

(** ** The collector *)

(** A span with a parent and then two roots end in trace t1, one root in
    trace t2: the timer of the first root of t1 is cancelled by the
    second, and when the timer of t1 fires the three spans of t1 are
    rendered and forgotten, the span of t2 stays. *)
Example sampleEvents_run :
  exists c c',
    (runEvents 3 sampleEvents emptyWorld).2 = Ok c /\
    timers c !! 0%nat = None /\ timers c !! 1%nat = Some (str "t2") /\
    timers c !! 2%nat = Some (str "t1") /\
    (runEvents 3 (sampleEvents ++ [TimerFires 2]) emptyWorld).2 = Ok c' /\
    traceSpans c' !! str "t1" = None /\ traceSpans c' !! str "t2" = Some 4%nat /\
    length (console (runEvents 3 (sampleEvents ++ [TimerFires 2]) emptyWorld).1) = 4%nat.
Proof.
  eexists _, _. split; [vm_compute; reflexivity |].
  do 3 (split; [vm_compute; reflexivity |]).
  split; [vm_compute; reflexivity |].
  repeat split; vm_compute; reflexivity.
Qed.

Lemma holdsSpans_length w a spans :
  holdsSpans w a spans -> (a < length (heap w))%nat.
Proof. intros (elems & Ha & _). eapply lookup_lt_Some, Ha. Qed.

Lemma holdsSpans_functional w a spans spans' :
  holdsSpans w a spans -> holdsSpans w a spans' -> spans = spans'.
Proof.
  intros (elems & Ha & H) (elems' & Ha' & H').
  assert (elems' = elems) as -> by congruence. clear Ha Ha'.
  revert spans' H'. induction H as [| l s elems spans Hl _ IH]; intros spans' H'.
  - by inversion H'.
  - inversion H' as [| ? s' ? spans'' Hl' H'']; subst. f_equal; [congruence | by apply IH].
Qed.

(** A record list survives whatever keeps the objects that are there. *)
Lemma holdsSpans_kept w w' a spans :
  (forall l o, heap w !! l = Some o -> heap w' !! l = Some o) ->
  holdsSpans w a spans -> holdsSpans w' a spans.
Proof.
  intros Hkeep (elems & Ha & H). exists elems. split; [by apply Hkeep |].
  eapply Forall2_impl; [exact H |]. intros l s Hl. cbn beta in Hl.
  destruct (heap w !! l) as [o |] eqn:E; [| discriminate].
  by rewrite (Hkeep _ _ E).
Qed.

(** It survives the update of another array. *)
Lemma holdsSpans_other_array w a spans b es es' :
  holdsSpans w a spans -> heap w !! b = Some (OArray es) -> a <> b ->
  holdsSpans {| heap := <[b := OArray es']> (heap w); console := console w |} a spans.
Proof.
  intros (elems & Ha & H) Hb Hne. exists elems. cbn [heap]. split.
  - by rewrite list_lookup_insert_ne.
  - eapply Forall2_impl; [exact H |]. intros l s Hl. cbn beta in Hl.
    rewrite list_lookup_insert_ne; [exact Hl |].
    intros <-. rewrite Hb in Hl. discriminate.
Qed.

(** Pushing a fresh record onto an array. *)
Lemma holdsSpans_push w a spans es rec sd :
  holdsSpans w a spans -> heap w !! a = Some (OArray es) ->
  heap w !! rec = Some (OSpan sd) ->
  holdsSpans {| heap := <[a := OArray (es ++ [rec])]> (heap w); console := console w |}
    a (spans ++ [sd]).
Proof.
  intros (elems & Ha & H) Ha' Hrec.
  assert (elems = es) as -> by congruence.
  assert (rec <> a) as Hne by (intros ->; congruence).
  exists (es ++ [rec]). cbn [heap]. split.
  - apply list_lookup_insert_eq. eapply lookup_lt_Some, Ha.
  - apply Forall2_app.
    + eapply Forall2_impl; [exact H |]. intros l s Hl. cbn beta in Hl.
      rewrite list_lookup_insert_ne; [exact Hl |].
      intros <-. rewrite Ha in Hl. discriminate.
    + constructor; [| constructor].
      rewrite list_lookup_insert_ne by congruence. by rewrite Hrec.
Qed.

Lemma recorded_functional c w T spans spans' :
  recorded c w T spans -> recorded c w T spans' -> spans = spans'.
Proof.
  intros (arr & Ha & H) (arr' & Ha' & H').
  assert (arr' = arr) as -> by congruence. eapply holdsSpans_functional; eauto.
Qed.

(** What [onEnd] does: it returns, having put the record it built at the
    end of the list of its trace, a new list when the trace had none, and
    having touched no other list; when the record is parentless it has
    replaced the pending timer of the trace by a fresh one. *)
Lemma onEnd_run span c w :
  collector_ok c w ->
  let T := ctx_traceId (_spanContext span) in
  let sd := spanDataOf span in
  exists w' c' arr prev,
    onEnd span c w = (w', Ok c') /\
    (recorded c w T prev \/ (traceSpans c !! T = None /\ prev = [])) /\
    traceSpans c' = <[T := arr]> (traceSpans c) /\
    (traceSpans c !! T = Some arr \/
     (traceSpans c !! T = None /\ (length (heap w) <= arr)%nat)) /\
    holdsSpans w' arr (prev ++ [sd]) /\
    (forall a spans, a <> arr -> holdsSpans w a spans -> holdsSpans w' a spans) /\
    console w' = console w /\
    pendingRenders c' =
      (if decide (parentless sd) then <[T := nextTimer c]> (pendingRenders c)
       else pendingRenders c) /\
    timers c' =
      (if decide (parentless sd)
       then <[nextTimer c := T]>
              (match pendingRenders c !! T with
               | Some t => delete t (timers c)
               | None => timers c
               end)
       else timers c) /\
    nextTimer c' = (if decide (parentless sd) then S (nextTimer c) else nextTimer c).
Proof.
  intros (Hlists & Hinj & Htimers & Hpending) T sd. unfold onEnd. fold T. fold sd.
  rewrite bind_run. unfold alloc at 1. cbv beta iota.
  set (rec := length (heap w)).
  set (w1 := {| heap := heap w ++ [OSpan sd]; console := console w |}).
  assert (forall l o, heap w !! l = Some o -> heap w1 !! l = Some o) as Hkeep1.
  { intros l o H. cbn. by apply lookup_app_l_Some. }
  assert (heap w1 !! rec = Some (OSpan sd)) as Hrec1.
  { cbn. rewrite lookup_app_r by (unfold rec; lia).
    by rewrite Nat.sub_diag. }
  assert (negb (truthy (parentKey sd)) = bool_decide (parentless sd)) as Hpl.
  { case_bool_decide as H; unfold parentless in H.
    - by rewrite H.
    - by destruct (truthy (parentKey sd)). }
  rewrite bind_run. unfold Map_has.
  destruct (traceSpans c !! T) as [arr |] eqn:HT.
  - (* the trace has a list *)
    rewrite bool_decide_true by eauto. rewrite ret_run.
    destruct (Hlists T arr HT) as (prev & Hprev & Hne).
    pose proof Hprev as (es & Harr & Hrecs).
    rewrite bind_run, (Map_get_run _ _ _ _ HT).
    rewrite bind_run, (readArray_run w1 arr es (Hkeep1 _ _ Harr)).
    rewrite bind_run. unfold writeObj at 1. cbv beta iota.
    set (w' := {| heap := _; console := _ |}).
    assert (holdsSpans w' arr (prev ++ [sd])) as Hpush.
    { apply (holdsSpans_push w1 arr prev es rec sd); auto.
      by apply (holdsSpans_kept w). }
    assert (forall a spans, a <> arr -> holdsSpans w a spans -> holdsSpans w' a spans)
      as Hothers.
    { intros a spans Ha H.
      apply (holdsSpans_other_array w1 a spans arr es); auto.
      by apply (holdsSpans_kept w). }
    rewrite Hpl. destruct (decide (parentless sd)) as [Hp | Hp].
    + rewrite bool_decide_true by exact Hp. rewrite ret_run.
      eexists _, _, arr, prev. split; [reflexivity |].
      cbn [traceSpans pendingRenders timers nextTimer].
      split; [left; by exists arr |]. split; [by rewrite insert_id |].
      split; [by left |]. split; [exact Hpush |]. split; [exact Hothers |]. done.
    + rewrite bool_decide_false by exact Hp. rewrite ret_run.
      eexists _, _, arr, prev. split; [reflexivity |].
      cbn [traceSpans pendingRenders timers nextTimer].
      split; [left; by exists arr |]. split; [by rewrite insert_id |].
      split; [by left |]. split; [exact Hpush |]. split; [exact Hothers |]. done.
  - (* the trace has none *)
    rewrite bool_decide_false by (by intros [? ?]).
    rewrite bind_run. unfold alloc at 1. cbv beta iota. rewrite ret_run.
    set (arr := length (heap w1)).
    set (w2 := {| heap := heap w1 ++ [OArray []]; console := console w1 |}).
    assert (forall l o, heap w1 !! l = Some o -> heap w2 !! l = Some o) as Hkeep2.
    { intros l o H. cbn. by apply lookup_app_l_Some. }
    assert (heap w2 !! arr = Some (OArray [])) as Harr.
    { cbn. rewrite lookup_app_r by (unfold arr; cbn; lia).
      unfold arr. cbn. by rewrite Nat.sub_diag. }
    rewrite bind_run, (Map_get_run _ _ arr) by apply lookup_insert_eq.
    rewrite bind_run, (readArray_run w2 arr [] Harr).
    rewrite bind_run. unfold writeObj at 1. cbv beta iota.
    set (w' := {| heap := _; console := _ |}).
    assert (holdsSpans w' arr ([] ++ [sd])) as Hpush.
    { apply (holdsSpans_push w2 arr [] [] rec sd); auto.
      exists []. split; [exact Harr | constructor]. }
    assert (forall a spans, a <> arr -> holdsSpans w a spans -> holdsSpans w' a spans)
      as Hothers.
    { intros a spans Ha H.
      apply (holdsSpans_other_array w2 a spans arr []); auto.
      apply (holdsSpans_kept w1); [exact Hkeep2 |]. by apply (holdsSpans_kept w). }
    assert (length (heap w) <= arr)%nat as Hfresh.
    { unfold arr. cbn. rewrite length_app. lia. }
    rewrite Hpl. destruct (decide (parentless sd)) as [Hp | Hp].
    + rewrite bool_decide_true by exact Hp. rewrite ret_run.
      eexists _, _, arr, []. split; [reflexivity |].
      cbn [traceSpans pendingRenders timers nextTimer].
      split; [by right |]. split; [reflexivity |].
      split; [by right |]. split; [exact Hpush |]. split; [exact Hothers |]. done.
    + rewrite bool_decide_false by exact Hp. rewrite ret_run.
      eexists _, _, arr, []. split; [reflexivity |].
      cbn [traceSpans pendingRenders timers nextTimer].
      split; [by right |]. split; [reflexivity |].
      split; [by right |]. split; [exact Hpush |]. split; [exact Hothers |]. done.
Qed.

Lemma onEnd_ok span c w w' c' :
  collector_ok c w -> onEnd span c w = (w', Ok c') -> collector_ok c' w'.
Proof.
  intros Hok Hrun.
  destruct (onEnd_run span c w Hok)
    as (w'' & c'' & arr & prev & Hrun' & Hprev & Hts & Harr & Hpush & Hothers & _ &
        Hpend & Htim & Hnext).
  rewrite Hrun in Hrun'. injection Hrun' as <- <-.
  destruct Hok as (Hlists & Hinj & Htimers & Hpending).
  set (T := ctx_traceId (_spanContext span)) in *.
  set (sd := spanDataOf span) in *.
  assert (forall T' arr', T' <> T -> traceSpans c !! T' = Some arr' -> arr' <> arr)
    as Hdiff.
  { intros T' arr' HT' H' ->. destruct Harr as [H | [_ Hfresh]].
    - apply HT'. by apply (Hinj T' T arr).
    - destruct (Hlists T' arr H') as (sp & Hsp & _).
      apply holdsSpans_length in Hsp. lia. }
  assert (forall T' spans, T' <> T -> recorded c w T' spans -> recorded c' w' T' spans)
    as Hrec_other.
  { intros T' spans HT' (arr' & Ha' & Hsp). exists arr'. split.
    - by rewrite Hts, lookup_insert_ne.
    - apply Hothers; [by apply (Hdiff T') | exact Hsp]. }
  assert (forall spans, recorded c w T spans -> recorded c' w' T (spans ++ [sd]))
    as Hrec_same.
  { intros spans Hsp. destruct Hprev as [Hp | [Hnone _]].
    - rewrite (recorded_functional c w T spans prev Hsp Hp).
      exists arr. split; [by rewrite Hts, lookup_insert_eq | exact Hpush].
    - destruct Hsp as (? & ? & _). congruence. }
  assert (forall t T', timers c !! t = Some T' ->
            exists spans, recorded c' w' T' spans /\ exists s, s ∈ spans /\ parentless s)
    as Hrec_timer.
  { intros t T' Ht. destruct (Htimers t T' Ht) as (_ & _ & spans & Hsp & s & Hs & Hpl).
    destruct (decide (T' = T)) as [-> | HT'].
    - exists (spans ++ [sd]). split; [by apply Hrec_same |].
      exists s. split; [apply elem_of_app; by left | exact Hpl].
    - exists spans. split; [by apply Hrec_other |]. eauto. }
  split; [| split; [| split]].
  - intros T' arr' H'. rewrite Hts in H'.
    destruct (decide (T' = T)) as [-> | HT'].
    + rewrite lookup_insert_eq in H'. injection H' as <-.
      exists (prev ++ [sd]). split; [exact Hpush | by destruct prev].
    + rewrite lookup_insert_ne in H' by congruence.
      destruct (Hlists T' arr' H') as (sp & Hsp & Hne).
      exists sp. split; [| exact Hne]. apply Hothers; [by apply (Hdiff T') | exact Hsp].
  - intros T1 T2 a H1 H2. rewrite Hts in H1, H2.
    destruct (decide (T1 = T)) as [-> | H1']; destruct (decide (T2 = T)) as [-> | H2'];
      [reflexivity | | |].
    + rewrite lookup_insert_eq in H1. rewrite lookup_insert_ne in H2 by congruence.
      injection H1 as <-. by destruct (Hdiff T2 arr H2' H2).
    + rewrite lookup_insert_eq in H2. rewrite lookup_insert_ne in H1 by congruence.
      injection H2 as <-. by destruct (Hdiff T1 arr H1' H1).
    + rewrite lookup_insert_ne in H1, H2 by congruence. by apply (Hinj T1 T2 a).
  - intros t T' Ht. rewrite Htim in Ht. rewrite Hpend, Hnext.
    destruct (decide (parentless sd)) as [Hpl | Hpl].
    + destruct (decide (t = nextTimer c)) as [-> | Hne].
      * rewrite lookup_insert_eq in Ht. injection Ht as <-.
        split; [by rewrite lookup_insert_eq |]. split; [lia |].
        exists (prev ++ [sd]). split.
        -- exists arr. split; [by rewrite Hts, lookup_insert_eq | exact Hpush].
        -- exists sd. split; [apply elem_of_app; right; left | exact Hpl].
      * rewrite lookup_insert_ne in Ht by congruence.
        assert (timers c !! t = Some T' /\ pendingRenders c !! T <> Some t) as [Ht' Hnot].
        { destruct (pendingRenders c !! T) as [t0 |].
          - apply lookup_delete_Some in Ht as [Hne0 Ht]. split; [exact Ht | congruence].
          - split; [exact Ht | discriminate]. }
        destruct (Htimers t T' Ht') as (Hp & Hlt & _).
        assert (T' <> T) as HT' by (intros ->; contradiction).
        split; [by rewrite lookup_insert_ne |]. split; [lia |].
        by apply (Hrec_timer t).
    + destruct (Htimers t T' Ht) as (Hp & Hlt & _).
      split; [exact Hp |]. split; [exact Hlt |]. by apply (Hrec_timer t).
  - intros T' t Hp. rewrite Hpend in Hp. rewrite Htim.
    destruct (decide (parentless sd)) as [Hpl | Hpl]; [| by apply Hpending].
    destruct (decide (T' = T)) as [-> | HT'].
    + rewrite lookup_insert_eq in Hp. injection Hp as <-. by rewrite lookup_insert_eq.
    + rewrite lookup_insert_ne in Hp by congruence.
      pose proof (Hpending T' t Hp) as Ht.
      destruct (Htimers t T' Ht) as (_ & Hlt & _).
      rewrite lookup_insert_ne by lia.
      destruct (pendingRenders c !! T) as [t0 |] eqn:Hp0; [| exact Ht].
      rewrite lookup_delete_ne; [exact Ht |].
      intros ->. pose proof (Hpending T t Hp0). congruence.
Qed.

(** The store after [renderTrace] keeps the objects that were there. *)
Lemma renderTrace_keeps fuel traceId spans w w' r :
  renderTrace fuel traceId spans w = (w', r) ->
  forall l o, heap w !! l = Some o -> heap w' !! l = Some o.
Proof.
  intros Hrun l o Hl.
  pose proof (renderTrace_framed (heap w) fuel traceId spans w (framed_initial w)) as H.
  rewrite Hrun in H.
  assert (framed (heap w) w') as (ext & -> & _) by (by destruct r).
  by apply lookup_app_l_Some.
Qed.

Lemma fire_ok fuel t c w w' c' :
  collector_ok c w -> handle fuel c (TimerFires t) w = (w', Ok c') ->
  collector_ok c' w'.
Proof.
  intros Hok Hrun. cbn [handle] in Hrun.
  destruct (timers c !! t) as [T |] eqn:Ht.
  2: { rewrite ret_run in Hrun. by injection Hrun as <- <-. }
  destruct Hok as (Hlists & Hinj & Htimers & Hpending).
  destruct (Htimers t T Ht) as (Hp & Hlt & spans & (arr & Harr & Hsp) & s & Hs & Hpl).
  unfold renderPending in Hrun. cbn [traceSpans] in Hrun. rewrite Harr in Hrun.
  pose proof Hsp as (elems & Ha & Hrecs).
  rewrite bind_run, (readArray_run w arr elems Ha) in Hrun.
  rewrite decide_True in Hrun.
  2: { rewrite (Forall2_length _ _ _ Hrecs).
       destruct spans; [by apply elem_of_nil in Hs | cbn; lia]. }
  rewrite bind_run in Hrun.
  destruct (renderTrace fuel T arr w) as [w2 [[] | e]] eqn:Hrt; [| discriminate].
  rewrite ret_run in Hrun. injection Hrun as <- <-.
  pose proof (renderTrace_keeps _ _ _ _ _ _ Hrt) as Hkeep.
  cbn [traceSpans pendingRenders timers nextTimer].
  split; [| split; [| split]].
  - intros T' arr' H'. cbn [traceSpans] in H'.
    apply lookup_delete_Some in H' as [HT' H'].
    destruct (Hlists T' arr' H') as (sp & Hsp' & Hne).
    exists sp. split; [by apply (holdsSpans_kept w) | exact Hne].
  - intros T1 T2 a H1 H2. cbn [traceSpans] in H1, H2.
    apply lookup_delete_Some in H1 as [_ H1]. apply lookup_delete_Some in H2 as [_ H2].
    by apply (Hinj T1 T2 a).
  - intros t' T' Ht'. cbn [timers] in Ht'.
    apply lookup_delete_Some in Ht' as [Hne Ht'].
    destruct (Htimers t' T' Ht') as (Hp' & Hlt' & sp & (arr' & Harr' & Hsp') & Hroot).
    assert (T' <> T) as HT' by (intros ->; congruence).
    cbn [pendingRenders nextTimer].
    split; [by rewrite lookup_delete_ne |]. split; [exact Hlt' |].
    exists sp. split; [| exact Hroot].
    exists arr'. cbn [traceSpans].
    split; [by rewrite lookup_delete_ne | by apply (holdsSpans_kept w)].
  - intros T' t' Hp'. cbn [pendingRenders] in Hp'. cbn [timers].
    apply lookup_delete_Some in Hp' as [HT' Hp'].
    rewrite lookup_delete_ne; [by apply Hpending |].
    intros Heq. subst t'. pose proof (Hpending T' t Hp'). congruence.
Qed.

Lemma initial_ok w : collector_ok initial w.
Proof.
  split; [| split; [| split]].
  - intros T arr H. cbn in H. by rewrite lookup_empty in H.
  - intros T1 T2 arr H. cbn in H. by rewrite lookup_empty in H.
  - intros t T H. cbn in H. by rewrite lookup_empty in H.
  - intros T t H. cbn in H. by rewrite lookup_empty in H.
Qed.

Lemma handle_ok fuel e c w w' c' :
  collector_ok c w -> handle fuel c e w = (w', Ok c') -> collector_ok c' w'.
Proof.
  destruct e as [span | t]; [apply onEnd_ok | apply fire_ok].
Qed.

Lemma forOf_handle_ok fuel es : forall c w w' c',
  collector_ok c w -> forOf (handle fuel) c es w = (w', Ok c') -> collector_ok c' w'.
Proof.
  induction es as [| e es IH]; intros c w w' c' Hok Hrun.
  - cbn in Hrun. rewrite ret_run in Hrun. by injection Hrun as <- <-.
  - cbn [forOf] in Hrun. rewrite bind_run in Hrun.
    destruct (handle fuel c e w) as [w1 [c1 | err]] eqn:He; [| discriminate].
    apply (IH c1 w1); [| exact Hrun]. by apply (handle_ok fuel e c w).
Qed.

Lemma runEvents_ok fuel es w w' c :
  runEvents fuel es w = (w', Ok c) -> collector_ok c w'.
Proof. apply forOf_handle_ok, initial_ok. Qed.

Lemma renderTrace_rooted fuel traceId a w spans :
  holdsSpans w a spans ->
  NoDup (spanId <$> spans) ->
  (exists s, s ∈ spans /\ parentless s) ->
  (length spans <= fuel)%nat ->
  exists w' title tree,
    renderTrace fuel traceId a w = (w', Ok tt) /\
    console w' = console w ++ [[]; title; tree; []].
Proof.
  intros Hw Hnd Hpl Hfuel.
  assert (spans <> []) as Hne.
  { destruct Hpl as (s & Hs & _). intros ->. by apply elem_of_nil in Hs. }
  destruct (buildSpanTree_linked w a spans Hw Hnd Hne (or_introl Hpl))
    as (ch & tl & r & Hrun & Hperm & Hr & Hacyc & _).
  destruct Hw as (elems & Harr & Hrecs).
  rewrite (world_eta w) in Hrun.
  destruct (renderTrace_run spans (heap w) elems a Harr ch tl (console w)
              (length spans) r traceId Hrun Hperm Hr Hacyc (Nat.le_refl _))
    as (root & title & hd & lines & _ & Hrt & _).
  rewrite <- world_eta in Hrt.
  eexists _, title, _. split.
  - apply (renderTrace_fuel_mono (length spans)); [exact Hfuel | exact Hrt].
  - reflexivity.
Qed.

(** X18. Debouncing.  After any run of events at most one timer is armed
    for a trace, and it is the one [pendingRenders] holds for it: each
    end of a parentless span cancels the timer armed before for its
    trace. *)
Theorem collector_one_timer_per_trace
    (fuel : nat) (es : list event) (w0 w : world) (c : collector)
    (t1 t2 : nat) (T : jsstring) :
  runEvents fuel es w0 = (w, Ok c) ->
  timers c !! t1 = Some T ->
  timers c !! t2 = Some T ->
  t1 = t2 /\ pendingRenders c !! T = Some t1.
Proof.
  intros Hrun H1 H2.
  destruct (runEvents_ok _ _ _ _ _ Hrun) as (_ & _ & Htimers & _).
  destruct (Htimers t1 T H1) as (Hp1 & _). destruct (Htimers t2 T H2) as (Hp2 & _).
  split; [congruence | exact Hp1].
Qed.


(** X20. Spans without a root stay.  After any run of events, a trace
    whose list holds no parentless span has no timer armed, and no timer
    that fires removes or changes its list: only the end of a parentless
    span of that trace will get it rendered and dropped. *)
Theorem unrooted_spans_are_kept
    (fuel : nat) (es : list event) (w0 w : world) (c : collector)
    (T : jsstring) (spans : list SpanData)
    (fuel' t : nat) (w' : world) (c' : collector) :
  runEvents fuel es w0 = (w, Ok c) ->
  recorded c w T spans ->
  (forall s, s ∈ spans -> ~ parentless s) ->
  handle fuel' c (TimerFires t) w = (w', Ok c') ->
  (forall t', timers c !! t' <> Some T) /\ recorded c' w' T spans.
Proof.
  intros Hrun Hrec Hno Hfire.
  destruct (runEvents_ok _ _ _ _ _ Hrun) as (Hlists & Hinj & Htimers & Hpending).
  assert (forall t', timers c !! t' <> Some T) as Hnone.
  { intros t' Ht'. destruct (Htimers t' T Ht') as (_ & _ & sp & Hsp & s & Hs & Hpl).
    rewrite (recorded_functional c w T sp spans Hsp Hrec) in Hs. by apply (Hno s). }
  split; [exact Hnone |].
  cbn [handle] in Hfire.
  destruct (timers c !! t) as [T' |] eqn:Ht.
  2: { rewrite ret_run in Hfire. by injection Hfire as <- <-. }
  assert (T' <> T) as HT' by (intros ->; by apply (Hnone t)).
  destruct (Htimers t T' Ht) as (_ & _ & sp & (arr' & Harr' & Hsp') & s & Hs & _).
  unfold renderPending in Hfire. cbn [traceSpans] in Hfire. rewrite Harr' in Hfire.
  pose proof Hsp' as (elems & Ha & Hrecs).
  rewrite bind_run, (readArray_run w arr' elems Ha) in Hfire.
  rewrite decide_True in Hfire.
  2: { rewrite (Forall2_length _ _ _ Hrecs).
       destruct sp; [by apply elem_of_nil in Hs | cbn; lia]. }
  rewrite bind_run in Hfire.
  destruct (renderTrace fuel' T' arr' w) as [w2 [[] | e]] eqn:Hrt; [| discriminate].
  rewrite ret_run in Hfire. injection Hfire as <- <-.
  destruct Hrec as (arr & Harr & Hsp). exists arr. cbn [traceSpans].
  split; [by rewrite lookup_delete_ne |].
  apply (holdsSpans_kept w); [| exact Hsp].
  by apply (renderTrace_keeps _ _ _ _ _ _ Hrt).
Qed.

(** X21. [onEnd] appends.  After any run of events, [onEnd] returns; the
    record it built is at the end of the list of its trace, after the
    records that were there (a new list when there were none); the lists
    of the other traces are as they were, and nothing is logged. *)
Theorem onEnd_appends_to_its_trace
    (fuel : nat) (es : list event) (w0 w : world) (c : collector) (span : EndedSpan) :
  runEvents fuel es w0 = (w, Ok c) ->
  exists w' c' prev,
    onEnd span c w = (w', Ok c') /\
    (recorded c w (ctx_traceId (_spanContext span)) prev \/
     (traceSpans c !! ctx_traceId (_spanContext span) = None /\ prev = [])) /\
    recorded c' w' (ctx_traceId (_spanContext span)) (prev ++ [spanDataOf span]) /\
    (forall T spans, T <> ctx_traceId (_spanContext span) ->
       recorded c w T spans -> recorded c' w' T spans) /\
    console w' = console w.
Proof.
  intros Hrun. pose proof (runEvents_ok _ _ _ _ _ Hrun) as Hok.
  destruct (onEnd_run span c w Hok)
    as (w' & c' & arr & prev & Hend & Hprev & Hts & Harr & Hpush & Hothers & Hcon & _).
  exists w', c', prev. split; [exact Hend |]. split; [exact Hprev |].
  destruct Hok as (Hlists & Hinj & _ & _).
  split; [| split; [| exact Hcon]].
  - exists arr. split; [by rewrite Hts, lookup_insert_eq | exact Hpush].
  - intros T spans HT (arr' & Ha' & Hsp). exists arr'. split.
    + by rewrite Hts, lookup_insert_ne.
    + apply Hothers; [| exact Hsp]. intros ->.
      destruct Harr as [H | [_ Hfresh]].
      * apply HT. by apply (Hinj _ _ arr).
      * apply holdsSpans_length in Hsp. lia.
Qed.

(** X22. Scheduling.  After any run of events, the end of a span that has
    a parent leaves the timers as they are; the end of a parentless span
    arms one fresh timer for its trace and cancels every timer that was
    armed for that trace, and leaves the timers of the other traces
    armed. *)
Theorem onEnd_reschedules
    (fuel : nat) (es : list event) (w0 w w' : world) (c c' : collector)
    (span : EndedSpan) :
  runEvents fuel es w0 = (w, Ok c) ->
  onEnd span c w = (w', Ok c') ->
  if decide (parentless (spanDataOf span)) then
    timers c !! nextTimer c = None /\
    timers c' !! nextTimer c = Some (ctx_traceId (_spanContext span)) /\
    forall t T, t <> nextTimer c ->
      (timers c' !! t = Some T <->
       timers c !! t = Some T /\ T <> ctx_traceId (_spanContext span))
  else timers c' = timers c.
Proof.
  intros Hrun Hend. pose proof (runEvents_ok _ _ _ _ _ Hrun) as Hok.
  destruct (onEnd_run span c w Hok)
    as (w'' & c'' & arr & prev & Hend' & _ & _ & _ & _ & _ & _ & _ & Htim & _).
  rewrite Hend in Hend'. injection Hend' as <- <-.
  destruct Hok as (_ & _ & Htimers & Hpending).
  rewrite Htim. destruct (decide (parentless (spanDataOf span))); [| reflexivity].
  set (T0 := ctx_traceId (_spanContext span)) in *.
  split; [| split].
  - destruct (timers c !! nextTimer c) as [T |] eqn:E; [| reflexivity].
    destruct (Htimers _ _ E) as (_ & Hlt & _). lia.
  - by rewrite lookup_insert_eq.
  - intros t T Hne. rewrite lookup_insert_ne by congruence.
    destruct (pendingRenders c !! T0) as [t0 |] eqn:Hp.
    + rewrite lookup_delete_Some. split.
      * intros [Hne0 Ht]. split; [exact Ht |]. intros ->.
        destruct (Htimers t T0 Ht) as (Hp' & _). congruence.
      * intros [Ht HT]. split; [| exact Ht]. intros <-.
        pose proof (Hpending T0 t0 Hp). congruence.
    + split.
      * intros Ht. split; [exact Ht |]. intros ->.
        destruct (Htimers t T0 Ht) as (Hp' & _). congruence.
      * by intros [Ht _].
Qed.

(** X23. The parent of a record.  [onEnd] takes as the parent id the first
    non-empty of [span.parentSpanId], [span.parentSpanContext?.spanId]
    and [span._parentSpanContext?.spanId]; the record is parentless, and
    a render is scheduled, exactly when each of the three is absent or
    empty. *)
Theorem spanDataOf_parent (span : EndedSpan) :
  let p1 := default [] (span_parentSpanId span) in
  let p2 := default [] (ctx_spanId <$> parentSpanContext span) in
  let p3 := default [] (ctx_spanId <$> _parentSpanContext span) in
  parentKey (spanDataOf span) =
    (if decide (p1 <> []) then p1 else if decide (p2 <> []) then p2 else p3) /\
  (parentless (spanDataOf span) <-> p1 = [] /\ p2 = [] /\ p3 = []).
Proof.
  cbv zeta. unfold parentless, parentKey, spanDataOf, js_or. cbn [parentSpanId].
  destruct (span_parentSpanId span) as [[| x p1] |];
    destruct (parentSpanContext span) as [[? [| y p2]] |];
    destruct (_parentSpanContext span) as [[? [| z p3]] |];
    cbn;
    (split; [reflexivity |
             split; [try discriminate; done |
                     intros (? & ? & ?); try discriminate; done]]).
Qed.

(** X24. The attributes of a record.  [onEnd] keeps the attributes whose
    key does not start with [next.] and the three keys [next.segment],
    [next.page] and [next.route], in the order they come in, and records
    no attributes at all rather than an empty set of them. *)
Theorem spanDataOf_attributes (span : EndedSpan) :
  attributes (spanDataOf span) <> Some [] /\
  default [] (attributes (spanDataOf span)) `sublist_of`
    default [] (span_attributes span) /\
  forall k v,
    (k, v) ∈ default [] (attributes (spanDataOf span)) <->
    (k, v) ∈ default [] (span_attributes span) /\
    (js_startsWith k (str "next.") = true ->
       k ∈ [str "next.segment"; str "next.page"; str "next.route"]) /\
    k <> str "__proto__".
Proof.
  assert (default [] (attributes (spanDataOf span)) = usefulAttrs span) as Hattrs.
  { unfold spanDataOf. cbn [attributes].
    destruct (decide (0 < length (usefulAttrs span))%nat) as [| Hz]; [reflexivity |].
    destruct (usefulAttrs span); [reflexivity | cbn in Hz; lia]. }
  split; [| split].
  - unfold spanDataOf. cbn [attributes].
    destruct (decide (0 < length (usefulAttrs span))%nat) as [Hpos |]; [| discriminate].
    intros [= Heq]. rewrite Heq in Hpos. cbn in Hpos. lia.
  - rewrite Hattrs. apply sublist_filter.
  - intros k v. rewrite Hattrs. unfold usefulAttrs.
    rewrite list_elem_of_filter. cbn [fst]. unfold keepAttr.
    rewrite !elem_of_cons, elem_of_nil.
    rewrite !orb_true_iff, !bool_decide_eq_true, negb_true_iff.
    split.
    + intros [[Hk Hp] Hin]. split; [exact Hin |]. split; [| exact Hp].
      intros Hs. destruct Hk as [[[Hk | Hk] | Hk] | Hk]; [congruence | tauto..].
    + intros (Hin & Hk & Hp). split; [| exact Hin]. split; [| exact Hp].
      destruct (js_startsWith k (str "next.")); [| tauto].
      destruct (Hk eq_refl) as [H | [H | [H | []]]]; tauto.
Qed.

(** *** On runs of events *)

Lemma collector_one_timer_per_trace_witness :
  exists w c,
    runEvents 3 sampleEvents emptyWorld = (w, Ok c) /\
    pendingRenders c !! str "t1" = Some 2%nat.
Proof.
  destruct (runEvents 3 sampleEvents emptyWorld) as [w [c | e]] eqn:Hrun;
    [| vm_compute in Hrun; discriminate].
  exists w, c. split; [reflexivity |].
  assert (timers c !! 2%nat = Some (str "t1")) as Ht.
  { pose proof Hrun as Hrun'. vm_compute in Hrun'. injection Hrun' as _ <-.
    vm_compute. reflexivity. }
  exact (proj2 (collector_one_timer_per_trace 3 sampleEvents emptyWorld w c
                  2%nat 2%nat (str "t1") Hrun Ht Ht)).
Defined.


Lemma unrooted_spans_are_kept_witness :
  exists w c w' c',
    runEvents 3 unrootedEvents emptyWorld = (w, Ok c) /\
    handle 3 c (TimerFires 0) w = (w', Ok c') /\
    recorded c' w' (str "t1") [spanDataOf (mkEnded "t1" "b" (Some "a"%string) 1 1)].
Proof.
  destruct (runEvents 3 unrootedEvents emptyWorld) as [w [c | e]] eqn:Hrun;
    [| vm_compute in Hrun; discriminate].
  destruct (handle 3 c (TimerFires 0) w) as [w' [c' | e]] eqn:Hfire.
  2: { pose proof Hrun as Hrun'. vm_compute in Hrun'. injection Hrun' as <- <-.
       vm_compute in Hfire. discriminate. }
  exists w, c, w', c'. split; [reflexivity |]. split; [exact Hfire |].
  refine (proj2 (unrooted_spans_are_kept 3 unrootedEvents emptyWorld w c (str "t1")
                   [spanDataOf (mkEnded "t1" "b" (Some "a"%string) 1 1)]
                   3 0 w' c' Hrun _ _ Hfire)).
  - pose proof Hrun as Hrun'. vm_compute in Hrun'. injection Hrun' as <- <-.
    exists 1%nat. split; [vm_compute; reflexivity |].
    exists [0%nat]. split; [reflexivity |]. repeat constructor.
  - intros s Hs%list_elem_of_singleton Hp. subst s. vm_compute in Hp. discriminate.
Defined.

Lemma onEnd_appends_to_its_trace_witness :
  exists w c w' c' prev,
    runEvents 3 unrootedEvents emptyWorld = (w, Ok c) /\
    onEnd (mkEnded "t1" "a" None 0 3) c w = (w', Ok c') /\
    recorded c' w' (str "t1") (prev ++ [spanDataOf (mkEnded "t1" "a" None 0 3)]).
Proof.
  destruct (runEvents 3 unrootedEvents emptyWorld) as [w [c | e]] eqn:Hrun;
    [| vm_compute in Hrun; discriminate].
  destruct (onEnd_appends_to_its_trace 3 unrootedEvents emptyWorld w c
              (mkEnded "t1" "a" None 0 3) Hrun)
    as (w' & c' & prev & Hend & _ & Hrec & _).
  exists w, c, w', c', prev. split; [reflexivity |]. split; assumption.
Defined.

Lemma onEnd_reschedules_witness :
  exists w c w' c',
    runEvents 3 sampleEvents emptyWorld = (w, Ok c) /\
    onEnd (mkEnded "t1" "d" None 0 1) c w = (w', Ok c') /\
    timers c' !! nextTimer c = Some (str "t1").
Proof.
  destruct (runEvents 3 sampleEvents emptyWorld) as [w [c | e]] eqn:Hrun;
    [| vm_compute in Hrun; discriminate].
  destruct (onEnd (mkEnded "t1" "d" None 0 1) c w) as [w' [c' | e]] eqn:Hend.
  2: { pose proof Hrun as Hrun'. vm_compute in Hrun'. injection Hrun' as <- <-.
       vm_compute in Hend. discriminate. }
  exists w, c, w', c'. split; [reflexivity |]. split; [exact Hend |].
  pose proof (onEnd_reschedules 3 sampleEvents emptyWorld w w' c c'
                (mkEnded "t1" "d" None 0 1) Hrun Hend) as H.
  rewrite decide_True in H by reflexivity.
  exact (proj1 (proj2 H)).
Defined.
